(** * WhatsApp2PDF chat parser: a shallow embedding of [src/parser.js]

    The development follows the source object [WhatsAppParser] function by
    function.  JavaScript strings are sequences of UTF-16 code units
    ([list N]); regular-expression literals are transcribed into a small
    backtracking matcher with the ECMAScript priorities (greedy
    quantifiers, ordered alternation, leftmost match); [Date] values are
    time values in milliseconds, or [None] for an invalid date.

    Modelling conventions, used throughout:
    - [console.log] / [console.error] calls have no effect on the result and
      are left out;
    - numbers that the parser manipulates are integers or NaN
      ([option Z], [None] being NaN); they are kept exact, the rounding of
      IEEE doubles beyond 2^53 is not modelled;
    - the host's local time zone is taken to have a zero offset, so the
      time value of [new Date(y, m, d, ...)] is the civil time itself;
    - [toLowerCase] / [toUpperCase] act on the ASCII letters only; the
      media resolver is also given over an arbitrary lower-casing
      ([findMediaFile_on]);
    - the two host services the parser reads, the wall clock ([new Date()])
      and [toLocaleDateString], are section variables.

    The modules [JsString], [Regex], [JsDate] and [JsMap] model the
    language, [WhatsAppParser] is the program, [Vocabulary] holds what the
    statements need besides, and the remaining modules are the proofs. *)

From Stdlib Require Import String Ascii List Bool Arith NArith ZArith Lia.
From Stdlib Require Import Permutation Sorted.
Import ListNotations.

Set Implicit Arguments.

(* ================================================================== *)
(** ** JavaScript strings as lists of code units *)

Module JsString.

Definition str := list N.

(** An ASCII literal, one code unit per character. *)
Definition lit (s : string) : str :=
  map N_of_ascii (list_ascii_of_string s).
Arguments lit s%_string.

Definition in_range (lo hi c : N) : bool := (lo <=? c)%N && (c <=? hi)%N.

Definition is_empty (s : str) : bool :=
  match s with [] => true | _ => false end.

Fixpoint str_eqb (a b : str) : bool :=
  match a, b with
  | [], [] => true
  | x :: a', y :: b' => (x =? y)%N && str_eqb a' b'
  | _, _ => false
  end.

(** ECMAScript WhiteSpace and LineTerminator code units: what
    [String.prototype.trim] strips and what [\s] matches. *)
Definition is_ws (c : N) : bool :=
  in_range 9 13 c || (c =? 32)%N || (c =? 0xa0)%N || (c =? 0x1680)%N
  || in_range 0x2000 0x200a c || (c =? 0x2028)%N || (c =? 0x2029)%N
  || (c =? 0x202f)%N || (c =? 0x205f)%N || (c =? 0x3000)%N
  || (c =? 0xfeff)%N.

Fixpoint trim_start (s : str) : str :=
  match s with
  | [] => []
  | c :: t => if is_ws c then trim_start t else s
  end.

Fixpoint trim_end (s : str) : str :=
  match s with
  | [] => []
  | c :: t =>
      match trim_end t with
      | [] => if is_ws c then [] else [c]
      | t' => c :: t'
      end
  end.

(** [s.trim()] *)
Definition trim (s : str) : str := trim_end (trim_start s).

Definition is_upper (c : N) : bool := in_range 65 90 c.
Definition is_lower (c : N) : bool := in_range 97 122 c.
Definition lower_char (c : N) : N := if is_upper c then (c + 32)%N else c.
Definition upper_char (c : N) : N := if is_lower c then (c - 32)%N else c.

(** [s.toLowerCase()] and [s.toUpperCase()] *)
Definition toLowerCase (s : str) : str := map lower_char s.
Definition toUpperCase (s : str) : str := map upper_char s.

Fixpoint starts_with (p s : str) : bool :=
  match p, s with
  | [], _ => true
  | x :: p', y :: s' => (x =? y)%N && starts_with p' s'
  | _ :: _, [] => false
  end.

(** [s.includes(p)] *)
Fixpoint includes (s p : str) : bool :=
  starts_with p s ||
  match s with
  | [] => false
  | _ :: s' => includes s' p
  end.

(** [s.split(c)] for a separator recognised by [sep], one code unit long:
    the pieces between separators, always at least one piece. *)
Fixpoint split_on (sep : N -> bool) (s : str) : list str :=
  match s with
  | [] => [[]]
  | c :: t =>
      if sep c then [] :: split_on sep t
      else match split_on sep t with
           | [] => [[c]]
           | p :: ps => (c :: p) :: ps
           end
  end.

End JsString.

Import JsString.

(* ================================================================== *)
(** ** Regular expressions

    A regular-expression literal is transcribed constructor by constructor
    and run by a backtracking matcher in continuation-passing style, which
    explores the alternatives in the order ECMAScript prescribes: the left
    branch of [|] first, one more iteration of a greedy quantifier before
    stopping.  An iteration of [*] that consumes nothing is rejected, as
    in the specification of the language. *)

Module Regex.

Inductive re : Type :=
| Eps : re                          (* the empty pattern *)
| Cls : (N -> bool) -> re           (* one code unit of a class *)
| Cat : re -> re -> re              (* concatenation *)
| Alt : re -> re -> re              (* a|b *)
| Star : re -> re                   (* a*, greedy *)
| Cap : nat -> re -> re.            (* capture group number i *)

(** Captures, most recent first; a group that did not take part in the
    match has no entry ([undefined] in the match array). *)
Definition captures := list (nat * str).

(** The iterations of a starred pattern whose one iteration is run by
    [body]; [fuel] bounds their number by the length of the input, since an
    iteration has to consume something. *)
Fixpoint star_loop (A : Type)
    (body : str -> captures -> (str -> captures -> option A) -> option A)
    (k : str -> captures -> option A)
    (fuel : nat) (s : str) (c : captures) {struct fuel} : option A :=
  match fuel with
  | O => k s c
  | S fuel' =>
      match body s c
              (fun s' c' =>
                 if length s' <? length s then star_loop body k fuel' s' c'
                 else None) with
      | Some x => Some x
      | None => k s c
      end
  end.

Fixpoint run (A : Type) (r : re) (s : str) (c : captures)
    (k : str -> captures -> option A) {struct r} : option A :=
  match r with
  | Eps => k s c
  | Cls p =>
      match s with
      | x :: s' => if p x then k s' c else None
      | [] => None
      end
  | Cat a b => run a s c (fun s' c' => run b s' c' k)
  | Alt a b =>
      match run a s c k with
      | Some x => Some x
      | None => run b s c k
      end
  | Star a => star_loop (run a) k (length s) s c
  | Cap i a =>
      run a s c
        (fun s' c' => k s' ((i, firstn (length s - length s') s) :: c'))
  end.

(** A literal: [anchored] is a leading [^]; the flags [i] and [g] are not
    stored, [i] is in the classes of the transcription and [g] in the
    choice between [replace_first] and [replace_all]. *)
Record regex := { anchored : bool; pattern : re }.

(** The result of [s.match(rx)]: the text before the match, the matched
    text, the text after it and the groups. *)
Record match_result := {
  m_pre : str; m_text : str; m_post : str; m_caps : captures
}.

Definition match_at (r : re) (pre s : str) : option match_result :=
  run r s []
    (fun rest c =>
       Some {| m_pre := pre; m_text := firstn (length s - length rest) s;
               m_post := rest; m_caps := c |}).

(** Leftmost match: the start positions are tried from left to right. *)
Fixpoint search (r : re) (pre s : str) : option match_result :=
  match match_at r pre s with
  | Some m => Some m
  | None =>
      match s with
      | [] => None
      | x :: s' => search r (pre ++ [x]) s'
      end
  end.

(** [s.match(rx)] for a literal without the [g] flag. *)
Definition exec (rx : regex) (s : str) : option match_result :=
  if anchored rx then match_at (pattern rx) [] s
  else search (pattern rx) [] s.

(** [rx.test(s)] *)
Definition test (rx : regex) (s : str) : bool :=
  match exec rx s with Some _ => true | None => false end.

(** [m[i]] for [i >= 1]; [None] is [undefined]. *)
Fixpoint lookup_group (i : nat) (c : captures) : option str :=
  match c with
  | [] => None
  | (j, v) :: c' => if Nat.eqb i j then Some v else lookup_group i c'
  end.

Definition group (i : nat) (m : match_result) : option str :=
  lookup_group i (m_caps m).

(** [s.replace(rx, rep)] without the [g] flag: the first match only. *)
Definition replace_first (rx : regex) (rep s : str) : str :=
  match exec rx s with
  | Some m => m_pre m ++ rep ++ m_post m
  | None => s
  end.

(** [s.replace(rx, rep)] with the [g] flag, for an unanchored literal: the
    search resumes where the previous match ended (one code unit further
    after an empty match). *)
Fixpoint replace_loop (fuel : nat) (r : re) (rep s : str) : str :=
  match fuel with
  | O => s
  | S fuel' =>
      match search r [] s with
      | None => s
      | Some m =>
          match m_text m, m_post m with
          | [], x :: post' =>
              m_pre m ++ rep ++ x :: replace_loop fuel' r rep post'
          | [], [] => m_pre m ++ rep
          | _ :: _, post => m_pre m ++ rep ++ replace_loop fuel' r rep post
          end
      end
  end.

Definition replace_all (rx : regex) (rep s : str) : str :=
  replace_loop (S (length s)) (pattern rx) rep s.

(** *** Building blocks of the transcriptions *)

Definition chr (c : N) : re := Cls (N.eqb c).
Definition ch (a : ascii) : re := chr (N_of_ascii a).
Arguments ch a%_char.

(** A literal code unit under the [i] flag. *)
Definition chi (a : ascii) : re :=
  Cls (fun x => (upper_char x =? upper_char (N_of_ascii a))%N).
Arguments chi a%_char.

Definition opt (r : re) : re := Alt r Eps.          (* r? *)
Definition plus (r : re) : re := Cat r (Star r).    (* r+ *)

Fixpoint cat (l : list re) : re :=
  match l with
  | [] => Eps
  | [r] => r
  | r :: l' => Cat r (cat l')
  end.

Fixpoint alt (l : list re) : re :=
  match l with
  | [] => Cls (fun _ => false)
  | [r] => r
  | r :: l' => Alt r (alt l')
  end.

(** A literal word, case-sensitive and under the [i] flag. *)
Definition word (s : string) : re :=
  cat (map ch (list_ascii_of_string s)).
Definition wordi (s : string) : re :=
  cat (map chi (list_ascii_of_string s)).
Arguments word s%_string.
Arguments wordi s%_string.

(** [r{n}] and [r{lo,hi}] (with [extra = hi - lo]) and [r{n,}] *)
Fixpoint rep (n : nat) (r : re) : re :=
  match n with
  | O => Eps
  | S n' => Cat r (rep n' r)
  end.

Fixpoint upto (extra : nat) (r : re) : re :=
  match extra with
  | O => Eps
  | S e => opt (Cat r (upto e r))
  end.

Definition between (lo extra : nat) (r : re) : re :=
  Cat (rep lo r) (upto extra r).
Definition at_least (n : nat) (r : re) : re := Cat (rep n r) (Star r).

Definition is_digit (c : N) : bool := in_range 48 57 c.
Definition is_word (c : N) : bool :=
  is_upper c || is_lower c || is_digit c || (c =? 95)%N.
Definition is_line_terminator (c : N) : bool :=
  (c =? 10)%N || (c =? 13)%N || (c =? 0x2028)%N || (c =? 0x2029)%N.

Definition digit : re := Cls is_digit.                       (* \d *)
Definition space : re := Cls is_ws.                          (* \s *)
Definition wordc : re := Cls is_word.                        (* \w *)
Definition dot : re := Cls (fun c => negb (is_line_terminator c)). (* . *)
Definition none_of (c : N) : re := Cls (fun x => negb (x =? c)%N). (* [^c] *)

End Regex.

(* ================================================================== *)
(** ** Numbers and dates *)

Module JsDate.

Local Open Scope Z_scope.

(** A number: an integer, or [None] for NaN. *)
Definition num := option Z.

(** A [Date] object, by its time value in milliseconds; [None] is the
    invalid date. *)
Definition date := option Z.

(** [a < b] on numbers and on dates: false as soon as one side is NaN. *)
Definition num_lt (a b : num) : bool :=
  match a, b with
  | Some x, Some y => x <? y
  | _, _ => false
  end.

Definition num_gt (a b : num) : bool := num_lt b a.

Definition num_add (a b : num) : num :=
  match a, b with
  | Some x, Some y => Some (x + y)
  | _, _ => None
  end.

Definition num_sub (a b : num) : num :=
  match a, b with
  | Some x, Some y => Some (x - y)
  | _, _ => None
  end.

Fixpoint take_digits (s : str) : str :=
  match s with
  | c :: t => if Regex.is_digit c then c :: take_digits t else []
  | [] => []
  end.

Definition digits_value (ds : str) : Z :=
  fold_left (fun acc c => acc * 10 + (Z.of_N c - 48)) ds 0.

(** [parseInt(s, 10)]: leading white space, an optional sign, then the
    longest run of decimal digits; NaN when that run is empty. *)
Definition parseInt (s : str) : num :=
  let t := trim_start s in
  let '(sign, body) :=
    match t with
    | 45%N :: t' => (-1, t')
    | 43%N :: t' => (1, t')
    | _ => (1, t)
    end in
  match take_digits body with
  | [] => None
  | ds => Some (sign * digits_value ds)
  end.

(** Days from 1970-01-01 to the given day of the proleptic Gregorian
    calendar, [m] in 1..12. *)
Definition days_from_civil (y m d : Z) : Z :=
  let y' := if m <=? 2 then y - 1 else y in
  let era := y' / 400 in
  let yoe := y' - era * 400 in
  let mp := if m <=? 2 then m + 9 else m - 3 in
  let doy := (153 * mp + 2) / 5 + d - 1 in
  let doe := yoe * 365 + yoe / 4 - yoe / 100 + doy in
  era * 146097 + doe - 719468.

(** The abstract operations MakeDay, MakeTime, MakeDate and TimeClip of
    the language specification, on integers. *)
Definition MakeDay (year month dt : Z) : Z :=
  let ym := year + month / 12 in
  let mn := month mod 12 in
  days_from_civil ym (mn + 1) 1 + dt - 1.

Definition MakeTime (h m s ms : Z) : Z :=
  h * 3600000 + m * 60000 + s * 1000 + ms.

Definition MakeDate (day time : Z) : Z := day * 86400000 + time.

Definition TimeClip (t : Z) : date :=
  if Z.abs t >? 8640000000000000 then None else Some t.

(** [new Date(year, month, day, hours, minutes, seconds)]: a NaN argument
    gives the invalid date, a year in 0..99 means 1900 + year. *)
Definition new_Date (year month day hours minutes seconds : num) : date :=
  match year, month, day, hours, minutes, seconds with
  | Some y, Some m, Some d, Some h, Some mi, Some s =>
      let yr := if (0 <=? y) && (y <=? 99) then 1900 + y else y in
      TimeClip (MakeDate (MakeDay yr m d) (MakeTime h mi s 0))
  | _, _, _, _, _, _ => None
  end.

(** [new Date(year, month, day)] *)
Definition new_Date3 (year month day : num) : date :=
  new_Date year month day (Some 0) (Some 0) (Some 0).

End JsDate.

(* ================================================================== *)
(** ** [Map] objects

    A [Map] iterates in insertion order, and the parser depends on that
    order (the first key that matches wins, equal counts keep their
    order), so a map is the list of its entries, oldest first, without
    repeated keys. *)

Module JsMap.

Definition t (V : Type) := list (str * V).

Fixpoint get (V : Type) (m : t V) (k : str) : option V :=
  match m with
  | [] => None
  | (k', v) :: m' => if str_eqb k' k then Some v else get m' k
  end.

Definition has (V : Type) (m : t V) (k : str) : bool :=
  match get m k with Some _ => true | None => false end.

(** [m.set(k, v)]: an existing key keeps its place. *)
Fixpoint set (V : Type) (m : t V) (k : str) (v : V) : t V :=
  match m with
  | [] => [(k, v)]
  | (k', v') :: m' =>
      if str_eqb k' k then (k', v) :: m' else (k', v') :: set m' k v
  end.

Definition size (V : Type) (m : t V) : nat := length m.

(** [for (const [key, value] of m) if (p(key)) return value], the result
    when the loop falls through being [None]. *)
Fixpoint first_value (V : Type) (p : str -> bool) (m : t V) : option V :=
  match m with
  | [] => None
  | (k, v) :: m' => if p k then Some v else first_value p m'
  end.

End JsMap.

(* ================================================================== *)
(** ** The parser object *)

Module WhatsAppParser.

Import Regex JsDate.

(** *** [cleanText] (parser.js, lines 31-45) *)

(** The class of line 35: u200e, u200f, u200b-u200d, u2060-u206f, u2028,
    u2029, ufeff. *)
Definition invisible (c : N) : bool :=
  (c =? 0x200e)%N || (c =? 0x200f)%N || in_range 0x200b 0x200d c
  || in_range 0x2060 0x206f c || (c =? 0x2028)%N || (c =? 0x2029)%N
  || (c =? 0xfeff)%N.

(** The class of line 37: u00a0, u202f, u2007, u2008, u2009, u200a. *)
Definition special_space (c : N) : bool :=
  (c =? 0xa0)%N || (c =? 0x202f)%N || (c =? 0x2007)%N || (c =? 0x2008)%N
  || (c =? 0x2009)%N || (c =? 0x200a)%N.

(** The class of line 39: u202a-u202e, u2066-u2069. *)
Definition direction_mark (c : N) : bool :=
  in_range 0x202a 0x202e c || in_range 0x2066 0x2069 c.

Definition unanchored (r : re) : regex := {| anchored := false; pattern := r |}.

(** The five literals of lines 35-43, in order; each has the flag [g].
    The last two are [/\r/g] and [/  +/g]. *)
Definition invisible_rx : regex := unanchored (Cls invisible).
Definition special_space_rx : regex := unanchored (Cls special_space).
Definition direction_mark_rx : regex := unanchored (Cls direction_mark).
Definition cr_rx : regex := unanchored (chr 13).
Definition spaces_rx : regex := unanchored (cat [ch " "; plus (ch " ")]).

(** The chain of replacements applied to a string that passed [!text]. *)
Definition clean (text : str) : str :=
  trim
    (replace_all spaces_rx (lit " ")
       (replace_all cr_rx []
          (replace_all direction_mark_rx []
             (replace_all special_space_rx (lit " ")
                (replace_all invisible_rx [] text))))).

(** [cleanText(text)]: [None] is an [undefined] (or [null]) argument; the
    guard [if (!text) return ''] also catches the empty string. *)
Definition cleanText (text : option str) : str :=
  match text with
  | None => []
  | Some t => if is_empty t then [] else clean t
  end.

(** *** [detectFormat] (lines 52-80) *)

Inductive export_format : Type := ios | android_bracket | android_dash.

Definition nl : N := 10%N.
Definition bullet : N := 0x2022%N.

(** [(?:AM|PM|am|pm)] *)
Definition am_pm : re := alt [word "AM"; word "PM"; word "am"; word "pm"].

(** [/^\[[\d\/]+,\s*[\d:]+\s*(?:AM|PM|am|pm)?\]/] *)
Definition bracket_header_rx : regex :=
  {| anchored := true;
     pattern :=
       cat [ch "["; plus (Cls (fun c => is_digit c || (c =? 47)%N)); ch ",";
            Star space; plus (Cls (fun c => is_digit c || (c =? 58)%N));
            Star space; opt am_pm; ch "]"] |}.

(** [/^\[[\d\/]+,\s*\d{1,2}:\d{2}:\d{2}/] *)
Definition bracket_seconds_rx : regex :=
  {| anchored := true;
     pattern :=
       cat [ch "["; plus (Cls (fun c => is_digit c || (c =? 47)%N)); ch ",";
            Star space; between 1 1 digit; ch ":"; rep 2 digit; ch ":";
            rep 2 digit] |}.

(** [/^[\d\/\.]+,\s*[\d:]+\s*(?:AM|PM|am|pm)?\s*-\s*[^:]+:/] *)
Definition dash_header_rx : regex :=
  {| anchored := true;
     pattern :=
       cat [plus (Cls (fun c => is_digit c || (c =? 47)%N || (c =? 46)%N));
            ch ","; Star space;
            plus (Cls (fun c => is_digit c || (c =? 58)%N)); Star space;
            opt am_pm; Star space; ch "-"; Star space;
            plus (none_of 58); ch ":"] |}.

(** The body of the [for] loop of lines 56-76 on one cleaned, non-empty
    line: [Some] is a [return]. *)
Definition classify_line (line : str) : option export_format :=
  if test bracket_header_rx line then
    if test bracket_seconds_rx line then Some ios else Some android_bracket
  else if test dash_header_rx line then Some android_dash
  else None.

Fixpoint detect_loop (lines : list str) : export_format :=
  match lines with
  | [] => ios
  | rawLine :: rest =>
      let line := cleanText (Some rawLine) in
      if is_empty line then detect_loop rest
      else match classify_line line with
           | Some f => f
           | None => detect_loop rest
           end
  end.

(** [/\r\n/g] *)
Definition crlf_rx : regex := unanchored (Cat (chr 13) (chr 10)).

(** [content.replace(/\r\n/g, '\n').split('\n')] *)
Definition lf_lines (content : str) : list str :=
  split_on (N.eqb nl) (replace_all crlf_rx [nl] content).

Definition detectFormat (content : str) : export_format :=
  let lines := firstn 20 (lf_lines content) in
  detect_loop lines.

(** *** The header grammars of [parse] (lines 99-105, 213-216) *)

(** [\d{1,2}[\/.]\d{1,2}[\/.]\d{2,4}] *)
Definition date_token : re :=
  let sep := Cls (fun c => (c =? 47)%N || (c =? 46)%N) in
  cat [between 1 1 digit; sep; between 1 1 digit; sep; between 2 2 digit].

(** [\d{1,2}:\d{2}(?::\d{2})?\s*(?:AM|PM|am|pm)?] *)
Definition time_token : re :=
  cat [between 1 1 digit; ch ":"; rep 2 digit;
       opt (Cat (ch ":") (rep 2 digit)); Star space; opt am_pm].

Definition bracketPattern : regex :=
  {| anchored := true;
     pattern :=
       cat [ch "["; Cap 1 date_token; ch ","; Star space; Cap 2 time_token;
            ch "]"; Star space; Cap 3 (plus (none_of 58)); ch ":";
            Star space; Cap 4 (Star dot)] |}.

Definition dashPattern : regex :=
  {| anchored := true;
     pattern :=
       cat [Cap 1 date_token; ch ","; Star space; Cap 2 time_token;
            Star space; ch "-"; Star space; Cap 3 (plus (none_of 58));
            ch ":"; Star space; Cap 4 (Star dot)] |}.

Definition sysBracketPattern : regex :=
  {| anchored := true;
     pattern :=
       cat [ch "["; Cap 1 date_token; ch ","; Star space; Cap 2 time_token;
            ch "]"; Star space; Cap 3 (plus dot)] |}.

Definition sysDashPattern : regex :=
  {| anchored := true;
     pattern :=
       cat [Cap 1 date_token; ch ","; Star space; Cap 2 time_token;
            Star space; ch "-"; Star space; Cap 3 (plus dot)] |}.

Definition messagePattern (exportFormat : export_format) : regex :=
  match exportFormat with
  | android_dash => dashPattern
  | _ => bracketPattern
  end.

Definition sysPattern (exportFormat : export_format) : regex :=
  match exportFormat with
  | android_dash => sysDashPattern
  | _ => sysBracketPattern
  end.

(** *** [parseDateTime] (lines 556-614) *)

(** Lines 566-591: the year, month and day read off the three fields. *)
Definition date_fields (first second year : num) : num * num * num :=
  let year :=
    if num_lt year (Some 100%Z) then
      num_add year (if num_lt year (Some 50%Z) then Some 2000%Z
                    else Some 1900%Z)
    else year in
  let '(month, day) :=
    if num_gt first (Some 12%Z) then (second, first)
    else if num_gt second (Some 12%Z) then (first, second)
    else (first, second) in
  (year, month, day).

(** [/(\d{1,2}):(\d{2})(?::(\d{2}))?\s*(AM|PM|am|pm)?/] *)
Definition time_rx : regex :=
  {| anchored := false;
     pattern :=
       cat [Cap 1 (between 1 1 digit); ch ":"; Cap 2 (rep 2 digit);
            opt (Cat (ch ":") (Cap 3 (rep 2 digit))); Star space;
            opt (Cap 4 am_pm)] |}.

(** [parseInt(m[i], 10)]; a group that took no part converts to NaN. *)
Definition parseInt_group (g : option str) : num :=
  match g with
  | Some s => parseInt s
  | None => None
  end.

Definition num_is (a : num) (z : Z) : bool :=
  match a with
  | Some x => (x =? z)%Z
  | None => false
  end.

(** Lines 602-606 *)
Definition adjust_hours (period : option str) (hours : num) : num :=
  match period with
  | Some p =>
      if is_empty p then hours
      else if str_eqb (toUpperCase p) (lit "PM") && negb (num_is hours 12)
           then num_add hours (Some 12%Z)
      else if str_eqb (toUpperCase p) (lit "AM") && num_is hours 12
           then Some 0%Z
      else hours
  | None => hours
  end.

(** Line 563: [dateStr.split(/[\/.]/).map(p => parseInt(p, 10))] *)
Definition dateParts (dateStr : str) : list num :=
  map parseInt (split_on (fun c => (c =? 47)%N || (c =? 46)%N) dateStr).

(** Lines 594-606: the hours, minutes and seconds read off the time
    token, [None] when the token does not match. *)
Definition time_fields (timeStr : str) : option (num * num * num) :=
  match exec time_rx timeStr with
  | None => None
  | Some timeMatch =>
      let hours := parseInt_group (group 1 timeMatch) in
      let minutes := parseInt_group (group 2 timeMatch) in
      let seconds :=
        match group 3 timeMatch with
        | Some g => if is_empty g then Some 0%Z else parseInt g
        | None => Some 0%Z
        end in
      let period := group 4 timeMatch in
      Some (adjust_hours period hours, minutes, seconds)
  end.

(** [now] is the instant [new Date()] would give.  Nothing in the [try]
    block can throw on string arguments, so the [catch] clause has no
    counterpart.  The third parameter of the source is not read by its
    body. *)
Definition parseDateTime (now : Z) (dateStr timeStr : option str)
    (exportFormat : export_format) : date :=
  let dateStr := cleanText dateStr in
  let timeStr := cleanText timeStr in
  match dateParts dateStr with
  | [first; second; year] =>
      let '(year, month, day) := date_fields first second year in
      match time_fields timeStr with
      | None => new_Date3 year (num_sub month (Some 1%Z)) day
      | Some (hours, minutes, seconds) =>
          new_Date year (num_sub month (Some 1%Z)) day hours minutes seconds
      end
  | _ => Some now
  end.

(** *** Small helpers (lines 537-548, 619-628) *)

(** [/^~+/] *)
Definition tilde_rx : regex :=
  {| anchored := true; pattern := plus (ch "~") |}.

Definition or_default (s dflt : str) : str :=
  if is_empty s then dflt else s.

Definition cleanSenderName (sender : option str) : str :=
  match sender with
  | None => lit "Unknown"
  | Some s0 =>
      if is_empty s0 then lit "Unknown"
      else or_default (trim (replace_first tilde_rx [] (cleanText sender)))
                      (lit "Unknown")
  end.

Definition isSystemSender (sender : str) : bool :=
  let s := toLowerCase sender in
  str_eqb s (lit "system") || includes s (lit "whatsapp").

Inductive media_kind : Type :=
  image | video | audio | document | file | omitted.

(** The table [types], looked up among its own keys. *)
Definition media_types : list (str * media_kind) :=
  [(lit "jpg", image); (lit "jpeg", image); (lit "png", image);
   (lit "gif", image); (lit "webp", image); (lit "heic", image);
   (lit "mp4", video); (lit "mov", video); (lit "avi", video);
   (lit "3gp", video); (lit "mkv", video);
   (lit "mp3", audio); (lit "ogg", audio); (lit "opus", audio);
   (lit "m4a", audio); (lit "wav", audio); (lit "aac", audio);
   (lit "pdf", document); (lit "doc", document); (lit "docx", document);
   (lit "xls", document); (lit "xlsx", document)].

Definition getMediaType (extension : str) : media_kind :=
  let ext := toLowerCase extension in
  match JsMap.get media_types ext with
  | Some k => k
  | None => file
  end.


(** *** Messages *)

(** A payload of the media table: the data URL the caller stored. *)
Definition payload := str.

Inductive msg_type : Type :=
| T_text | T_system | T_media | T_media_omitted | T_document
| T_document_omitted | T_call | T_missed_call | T_deleted.

Definition msg_type_eqb (a b : msg_type) : bool :=
  match a, b with
  | T_text, T_text | T_system, T_system | T_media, T_media
  | T_media_omitted, T_media_omitted | T_document, T_document
  | T_document_omitted, T_document_omitted | T_call, T_call
  | T_missed_call, T_missed_call | T_deleted, T_deleted => true
  | _, _ => false
  end.

(** The object stored in [message.media]; [None] in a field is [null], or
    a property the object literal does not have. *)
Record media_info : Type := {
  filename : option str;
  displayName : option str;
  kind : media_kind;               (* the property [type] *)
  extension : option str;
  data : option payload;
  hasData : bool;
  pages : option str
}.

Record quoted : Type := {
  q_timestamp : date;
  q_sender : str;
  q_text : str
}.

(** A message object.  Properties that an object literal leaves out
    ([hasQuote] on a system line, [quotedMessage], [isEdited]) are
    [undefined] there, which every reader of them treats as false or
    absent. *)
Record message : Type := {
  id : nat;
  timestamp : date;
  sender : str;
  rawText : str;
  text : str;
  type : msg_type;
  media : option media_info;
  isSystem : bool;
  hasQuote : bool;
  quotedMessage : option quoted;
  isEdited : bool
}.

Definition set_rawText (v : str) (m : message) : message :=
  {| id := id m; timestamp := timestamp m; sender := sender m; rawText := v;
     text := text m; type := type m; media := media m;
     isSystem := isSystem m; hasQuote := hasQuote m;
     quotedMessage := quotedMessage m; isEdited := isEdited m |}.

Definition set_text (v : str) (m : message) : message :=
  {| id := id m; timestamp := timestamp m; sender := sender m;
     rawText := rawText m; text := v; type := type m; media := media m;
     isSystem := isSystem m; hasQuote := hasQuote m;
     quotedMessage := quotedMessage m; isEdited := isEdited m |}.

Definition set_type (v : msg_type) (m : message) : message :=
  {| id := id m; timestamp := timestamp m; sender := sender m;
     rawText := rawText m; text := text m; type := v; media := media m;
     isSystem := isSystem m; hasQuote := hasQuote m;
     quotedMessage := quotedMessage m; isEdited := isEdited m |}.

Definition set_media (v : media_info) (m : message) : message :=
  {| id := id m; timestamp := timestamp m; sender := sender m;
     rawText := rawText m; text := text m; type := type m; media := Some v;
     isSystem := isSystem m; hasQuote := hasQuote m;
     quotedMessage := quotedMessage m; isEdited := isEdited m |}.

Definition set_isSystem (v : bool) (m : message) : message :=
  {| id := id m; timestamp := timestamp m; sender := sender m;
     rawText := rawText m; text := text m; type := type m; media := media m;
     isSystem := v; hasQuote := hasQuote m;
     quotedMessage := quotedMessage m; isEdited := isEdited m |}.

Definition set_isEdited (v : bool) (m : message) : message :=
  {| id := id m; timestamp := timestamp m; sender := sender m;
     rawText := rawText m; text := text m; type := type m; media := media m;
     isSystem := isSystem m; hasQuote := hasQuote m;
     quotedMessage := quotedMessage m; isEdited := v |}.

(** Lines 136-142: the quote is stored, the text cleared, the flag set. *)
Definition set_quote (q : quoted) (m : message) : message :=
  {| id := id m; timestamp := timestamp m; sender := sender m; rawText := [];
     text := text m; type := type m; media := media m;
     isSystem := isSystem m; hasQuote := true;
     quotedMessage := Some q; isEdited := isEdited m |}.

(** *** [findMediaFile] (lines 462-513) *)

(** [/(\d{5,}[-_](?:PHOTO|VIDEO|AUDIO|DOCUMENT|FILE)[-_\d]+\.\w+)/i] *)
Definition core_rx : regex :=
  let dash_us := Cls (fun c => (c =? 45)%N || (c =? 95)%N) in
  {| anchored := false;
     pattern :=
       Cap 1
         (cat [at_least 5 digit; dash_us;
               alt [wordi "PHOTO"; wordi "VIDEO"; wordi "AUDIO";
                    wordi "DOCUMENT"; wordi "FILE"];
               plus (Cls (fun c => (c =? 45)%N || (c =? 95)%N || is_digit c));
               ch "."; plus wordc]) |}.

(** [/(\d{8,})/] *)
Definition numeric_rx : regex :=
  {| anchored := false; pattern := Cap 1 (at_least 8 digit) |}.

(** The four lookups, each the loop of the source with its test. *)
Definition exact_match (filename : str) (mediaFiles : JsMap.t payload)
    : option payload :=
  if JsMap.has mediaFiles filename then JsMap.get mediaFiles filename
  else None.

Definition same_ignoring_case (filename key : str) : bool :=
  str_eqb (toLowerCase key) (toLowerCase filename).

Definition case_insensitive_match (filename : str)
    (mediaFiles : JsMap.t payload) : option payload :=
  JsMap.first_value (same_ignoring_case filename) mediaFiles.

(** [coreMatch[1]] when the filename has the shape of line 487. *)
Definition core_token (filename : str) : option str :=
  match exec core_rx filename with
  | Some coreMatch => group 1 coreMatch
  | None => None
  end.

Definition core_hit (coreFilename key : str) : bool :=
  includes key coreFilename || includes coreFilename key.

Definition core_match (filename : str) (mediaFiles : JsMap.t payload)
    : option payload :=
  match core_token filename with
  | Some coreFilename => JsMap.first_value (core_hit coreFilename) mediaFiles
  | None => None
  end.

(** [numericPart[1]] when the filename has a run of eight digits. *)
Definition numeric_token (filename : str) : option str :=
  match exec numeric_rx filename with
  | Some numericPart => group 1 numericPart
  | None => None
  end.

Definition numeric_hit (numericPart key : str) : bool :=
  includes key numericPart.

Definition numeric_match (filename : str) (mediaFiles : JsMap.t payload)
    : option payload :=
  match numeric_token filename with
  | Some numericPart => JsMap.first_value (numeric_hit numericPart) mediaFiles
  | None => None
  end.

Definition findMediaFile (filename : str) (mediaFiles : JsMap.t payload)
    : option payload :=
  if is_empty filename || Nat.eqb (JsMap.size mediaFiles) 0 then None
  else
    match exact_match filename mediaFiles with
    | Some v => Some v
    | None =>
        match case_insensitive_match filename mediaFiles with
        | Some v => Some v
        | None =>
            match core_match filename mediaFiles with
            | Some v => Some v
            | None => numeric_match filename mediaFiles
            end
        end
    end.

(** Line 479 calls the host's [String.prototype.toLowerCase].  The
    resolver again, over whatever function [lower] the host has for it;
    [findMediaFile] above is this function at the lower-casing of the
    ASCII letters. *)
Section Resolver.

Variable lower : str -> str.

Definition case_insensitive_match_on (filename : str)
    (mediaFiles : JsMap.t payload) : option payload :=
  let filenameLower := lower filename in
  JsMap.first_value (fun key => str_eqb (lower key) filenameLower)
                    mediaFiles.

Definition findMediaFile_on (filename : str) (mediaFiles : JsMap.t payload)
    : option payload :=
  if is_empty filename || Nat.eqb (JsMap.size mediaFiles) 0 then None
  else
    match exact_match filename mediaFiles with
    | Some v => Some v
    | None =>
        match case_insensitive_match_on filename mediaFiles with
        | Some v => Some v
        | None =>
            match core_match filename mediaFiles with
            | Some v => Some v
            | None => numeric_match filename mediaFiles
            end
        end
    end.

End Resolver.


(** *** [cleanMessageText] and [finalizeMessage] (lines 301-457, 518-532) *)

(** [/<\s*attached\s*:\s*([^>]+)>/i] *)
Definition attach_rx : regex :=
  unanchored
    (cat [ch "<"; Star space; wordi "attached"; Star space; ch ":";
          Star space; Cap 1 (plus (none_of 62)); ch ">"]).

(** [/<\s*attached\s*:[^>]+>/gi] *)
Definition attach_tag_rx : regex :=
  unanchored
    (cat [ch "<"; Star space; wordi "attached"; Star space; ch ":";
          plus (none_of 62); ch ">"]).

(** [/(?:image|video|audio|sticker|document|GIF)\s*omitted/i] *)
Definition omitted_rx : regex :=
  unanchored
    (cat [alt [wordi "image"; wordi "video"; wordi "audio"; wordi "sticker";
               wordi "document"; wordi "GIF"];
          Star space; wordi "omitted"]).

(** [/([^B]+\.pdf)\s*B\s*(\d+)\s*pages?\s*<\s*attached\s*:\s*([^>]+)>/i],
    where B stands for the bullet u2022 *)
Definition pdf_attach_rx : regex :=
  unanchored
    (cat [Cap 1 (cat [plus (none_of bullet); ch "."; wordi "pdf"]);
          Star space; chr bullet; Star space; Cap 2 (plus digit); Star space;
          wordi "page"; opt (chi "s"); Star space;
          ch "<"; Star space; wordi "attached"; Star space; ch ":";
          Star space; Cap 3 (plus (none_of 62)); ch ">"]).

(** [/([^B]+\.(pdf|xlsx?|docx?|pptx?))\s*B\s*(\d+)\s*(pages?|sheets?)\s*]
    [(?:document\s*omitted)?/i], B being the bullet *)
Definition doc_rx : regex :=
  unanchored
    (cat [Cap 1
            (cat [plus (none_of bullet); ch ".";
                  Cap 2 (alt [wordi "pdf";
                              Cat (wordi "xls") (opt (chi "x"));
                              Cat (wordi "doc") (opt (chi "x"));
                              Cat (wordi "ppt") (opt (chi "x"))])]);
          Star space; chr bullet; Star space; Cap 3 (plus digit); Star space;
          Cap 4 (alt [Cat (wordi "page") (opt (chi "s"));
                      Cat (wordi "sheet") (opt (chi "s"))]);
          Star space;
          opt (cat [wordi "document"; Star space; wordi "omitted"])]).

(** [/B.*document\s*omitted/i], B being the bullet *)
Definition bullet_omitted_rx : regex :=
  unanchored
    (cat [chr bullet; Star dot; wordi "document"; Star space;
          wordi "omitted"]).

Definition voice_call : re := cat [wordi "Voice"; Star space; wordi "call"].
Definition video_call : re := cat [wordi "Video"; Star space; wordi "call"].
Definition group_call : re := cat [wordi "Group"; Star space; wordi "call"].

(** [/Voice\s*call|Video\s*call|Group\s*call/i] *)
Definition call_rx : regex :=
  unanchored (alt [voice_call; video_call; group_call]).

(** [/(Voice\s*call|Video\s*call|Group\s*call)(?:,?\s*(.+))?/i] *)
Definition call_detail_rx : regex :=
  unanchored
    (cat [Cap 1 (alt [voice_call; video_call; group_call]);
          opt (cat [opt (ch ","); Star space; Cap 2 (plus dot)])]).

Definition tap_back : re :=
  cat [wordi "Tap"; Star space; wordi "to"; Star space; wordi "call";
       Star space; wordi "back"].

(** [/Missed.*call|No\s*answer|Tap\s*to\s*call\s*back/i] *)
Definition missed_rx : regex :=
  unanchored
    (alt [cat [wordi "Missed"; Star dot; wordi "call"];
          cat [wordi "No"; Star space; wordi "answer"];
          tap_back]).

(** [/,?\s*Tap\s*to\s*call\s*back/i] *)
Definition tap_back_rx : regex :=
  unanchored (cat [opt (ch ","); Star space; tap_back]).

(** [/No\s*answer/i] *)
Definition no_answer_rx : regex :=
  unanchored (cat [wordi "No"; Star space; wordi "answer"]).

(** [/(Voice\s*call|Video\s*call)/i] *)
Definition call_type_rx : regex :=
  unanchored (Cap 1 (alt [voice_call; video_call])).

(** [/This message was deleted|You deleted this message/i] *)
Definition deleted_rx : regex :=
  unanchored
    (alt [wordi "This message was deleted"; wordi "You deleted this message"]).

(** [/Messages and calls are end-to-end encrypted/i] *)
Definition encrypted_rx : regex :=
  unanchored (wordi "Messages and calls are end-to-end encrypted").

(** [/created group|added|left|removed|changed the subject|]
    [changed this group/i] *)
Definition group_event_rx : regex :=
  unanchored
    (alt [wordi "created group"; wordi "added"; wordi "left";
          wordi "removed"; wordi "changed the subject";
          wordi "changed this group"]).

(** [/<This message was edited>/i] *)
Definition edited_rx : regex :=
  unanchored (wordi "<This message was edited>").

Definition cleanMessageText (text : str) : str :=
  if is_empty text then []
  else
    let text := replace_all attach_tag_rx [] text in
    let text := replace_all omitted_rx [] text in
    let text := replace_all bullet_omitted_rx [] text in
    cleanText (Some text).

(** [/[^\w\d.\-_]/g] *)
Definition filename_char (c : N) : bool :=
  is_word c || is_digit c || (c =? 46)%N || (c =? 45)%N || (c =? 95)%N.
Definition not_filename_rx : regex :=
  unanchored (Cls (fun c => negb (filename_char c))).

(** [filename.split('.').pop()] *)
Definition last_piece (s : str) : str :=
  last (split_on (N.eqb 46) s) [].

(** [!!mediaData] *)
Definition truthy_payload (d : option payload) : bool :=
  match d with
  | Some v => negb (is_empty v)
  | None => false
  end.

(** The text of a group that is known to have taken part in the match. *)
Definition grp (i : nat) (m : match_result) : str :=
  match group i m with Some s => s | None => [] end.

Definition sep_bullet : str := [32; bullet; 32]%N.

(** Lines 308-311: the file name read off the marker. *)
Definition attachment_filename (attachMatch : match_result) : str :=
  let filename := cleanText (group 1 attachMatch) in
  trim (replace_all not_filename_rx [] filename).

(** Lines 305-332 *)
Definition finalize_attachment (attachMatch : match_result) (txt : str)
    (msg : message) (mediaFiles : JsMap.t payload) : message :=
  let filename := attachment_filename attachMatch in
  let extension := toLowerCase (last_piece filename) in
  let mediaData := findMediaFile filename mediaFiles in
  set_text (trim (replace_all attach_tag_rx [] txt))
    (set_type T_media
       (set_media
          {| filename := Some filename; displayName := None;
             kind := getMediaType extension; extension := Some extension;
             data := mediaData; hasData := truthy_payload mediaData;
             pages := None |}
          msg)).

(** Lines 350-371 *)
Definition finalize_pdf_attachment (pdfWithAttachMatch : match_result)
    (msg : message) (mediaFiles : JsMap.t payload) : message :=
  let displayName := trim (grp 1 pdfWithAttachMatch) in
  let pages := grp 2 pdfWithAttachMatch in
  let actualFilename := cleanText (group 3 pdfWithAttachMatch) in
  let mediaData := findMediaFile actualFilename mediaFiles in
  set_text (displayName ++ sep_bullet ++ pages ++ lit " pages")
    (set_type T_document
       (set_media
          {| filename := Some actualFilename; displayName := Some displayName;
             kind := document; extension := Some (lit "pdf");
             data := mediaData; hasData := truthy_payload mediaData;
             pages := Some pages |}
          msg)).

(** Lines 375-393 *)
Definition finalize_document_omitted (docMatch : option match_result)
    (msg : message) : message :=
  match docMatch with
  | Some d =>
      let filename := trim (grp 1 d) in
      let extension := toLowerCase (grp 2 d) in
      let count := grp 3 d in
      let countType := grp 4 d in
      set_text (filename ++ sep_bullet ++ count ++ [32%N] ++ countType)
        (set_type T_document_omitted
           (set_media
              {| filename := Some filename; displayName := None;
                 kind := document; extension := Some extension;
                 data := None; hasData := false; pages := Some count |}
              msg))
  | None =>
      set_text []
        (set_type T_document_omitted
           (set_media
              {| filename := None; displayName := None; kind := document;
                 extension := None; data := None; hasData := false;
                 pages := None |}
              msg))
  end.

(** Lines 396-414 *)
Definition finalize_call (txt : str) (msg : message) : message :=
  let msg := set_type T_call msg in
  match exec call_detail_rx txt with
  | Some callMatch =>
      let callInfo := grp 1 callMatch in
      let callInfo :=
        match group 2 callMatch with
        | Some g =>
            if is_empty g then callInfo
            else
              let details := cleanText (Some g) in
              if is_empty details then callInfo
              else callInfo ++ lit ", " ++ details
        | None => callInfo
        end in
      set_text callInfo msg
  | None => set_text txt msg
  end.

(** Lines 417-431 *)
Definition finalize_missed_call (txt : str) (msg : message) : message :=
  let msg := set_type T_missed_call msg in
  let cleanedText := trim (replace_first tap_back_rx [] txt) in
  if test no_answer_rx cleanedText then
    match exec call_type_rx cleanedText with
    | Some callType => set_text (grp 1 callType ++ lit " - No answer") msg
    | None => set_text (lit "Call - No answer") msg
    end
  else set_text (or_default cleanedText (lit "Missed call")) msg.

(** [finalizeMessage(message, mediaFiles)]: the source updates the object
    in place, the model returns the updated object. *)
Definition finalizeMessage (msg : message) (mediaFiles : JsMap.t payload)
    : message :=
  let txt := rawText msg in
  match exec attach_rx txt with
  | Some attachMatch => finalize_attachment attachMatch txt msg mediaFiles
  | None =>
  if test omitted_rx txt then
    set_text []
      (set_type T_media_omitted
         (set_media
            {| filename := None; displayName := None; kind := omitted;
               extension := None; data := None; hasData := false;
               pages := None |}
            msg))
  else
  match exec pdf_attach_rx txt with
  | Some pdfWithAttachMatch =>
      finalize_pdf_attachment pdfWithAttachMatch msg mediaFiles
  | None =>
  let docMatch := exec doc_rx txt in
  if (match docMatch with Some _ => true | None => false end)
     || test bullet_omitted_rx txt
  then finalize_document_omitted docMatch msg
  else if test call_rx txt then finalize_call txt msg
  else if test missed_rx txt then finalize_missed_call txt msg
  else if test deleted_rx txt then
    set_text (lit "This message was deleted") (set_type T_deleted msg)
  else
    let msg :=
      if test encrypted_rx txt || test group_event_rx txt
      then set_type T_system (set_isSystem true msg)
      else msg in
    if test edited_rx txt then
      set_text (cleanMessageText (trim (replace_all edited_rx [] txt)))
        (set_isEdited true msg)
    else set_text (cleanMessageText txt) msg
  end
  end.

(** *** [cleanupMessages] (lines 273-296) *)

Definition keep_message (msg : message) : bool :=
  match media msg with
  | Some _ => true
  | None =>
      match quotedMessage msg with
      | Some _ => true
      | None =>
          if negb (is_empty (text msg)) && negb (is_empty (trim (text msg)))
          then true
          else if isSystem msg then true
          else if msg_type_eqb (type msg) T_call
                  || msg_type_eqb (type msg) T_missed_call then true
          else if msg_type_eqb (type msg) T_deleted then true
          else false
      end
  end.

Definition cleanupMessages (messages : list message) : list message :=
  filter keep_message messages.


(** *** [Array.prototype.sort] with a comparator

    The sort of the language is stable; so is this insertion sort, which
    puts an element before the first later element it does not exceed. *)

Fixpoint insert_by (A : Type) (cmp : A -> A -> Z) (x : A) (l : list A)
    : list A :=
  match l with
  | [] => [x]
  | y :: l' => if (cmp x y <=? 0)%Z then x :: l else y :: insert_by cmp x l'
  end.

Definition sort_by (A : Type) (cmp : A -> A -> Z) (l : list A) : list A :=
  fold_right (insert_by cmp) [] l.

(** *** The result object *)

Record stats_info : Type := {
  totalMessages : nat;
  mediaMessages : nat;
  participantCount : nat;          (* the property [participants] *)
  firstDate : option Z;            (* [None] is [undefined] *)
  lastDate : option Z;
  dateRange : str
}.

(** The value [parse] returns.  The two display strings [formattedTime]
    and [formattedDate] that line 251 adds to every message come from the
    host's locale service and today's date; they are not modelled. *)
Record ChatData : Type := {
  messages : list message;
  participants : list (str * nat);     (* [{name, count}] *)
  stats : stats_info;
  exportFormat : export_format
}.

(** The local variables of the loop of [parse]. *)
Record scanner : Type := {
  st_messages : list message;
  st_participants : JsMap.t nat;
  currentMessage : option message;
  lastTimestamp : option date
}.

Section Host.

(** [clock k] is what [new Date()] would read at the [k]-th place where
    [parse] may call [parseDateTime]: place [2 * i] for the header on line
    [i], place [2 * i + 1] for the lookahead from line [i]. *)
Variable clock : nat -> Z.

(** [d.toLocaleDateString('en-US', opts)] of line 694, on a time value. *)
Variable toLocaleDateString : Z -> str.

(** *** [formatDateRange] and [calculateStats] (lines 666-698) *)

Definition formatDateRange (start finish : option Z) : str :=
  match start, finish with
  | Some a, Some b =>
      let startStr := toLocaleDateString a in
      let endStr := toLocaleDateString b in
      if str_eqb startStr endStr then startStr
      else startStr ++ lit " - " ++ endStr
  | _, _ => lit "-"
  end.

Definition is_media_message (m : message) : bool :=
  msg_type_eqb (type m) T_media || msg_type_eqb (type m) T_media_omitted
  || msg_type_eqb (type m) T_document_omitted.

(** The valid dates among the timestamps, as time values. *)
Fixpoint valid_dates (l : list date) : list Z :=
  match l with
  | [] => []
  | Some t :: l' => t :: valid_dates l'
  | None :: l' => valid_dates l'
  end.

Definition calculateStats (msgs : list message) (parts : JsMap.t nat)
    : stats_info :=
  let mediaMsgs := filter is_media_message msgs in
  let dates := sort_by Z.sub (valid_dates (map timestamp msgs)) in
  let first := hd_error dates in
  let final := hd_error (rev dates) in
  {| totalMessages := length msgs;
     mediaMessages := length mediaMsgs;
     participantCount := JsMap.size parts;
     firstDate := first;
     lastDate := final;
     dateRange := formatDateRange first final |}.

(** *** The loop of [parse] (lines 107-245) *)

Section Scan.

Variable fmt : export_format.
Variable mediaFiles : JsMap.t payload.

(** [if (currentMessage) { finalizeMessage(...); messages.push(...) }] *)
Definition push_current (st : scanner) : list message :=
  match currentMessage st with
  | Some cm => st_messages st ++ [finalizeMessage cm mediaFiles]
  | None => st_messages st
  end.

(** The object literals of lines 160-170 and 189-199. *)
Definition new_message (n : nat) (ts : date) (who txt : str) : message :=
  {| id := n; timestamp := ts; sender := who; rawText := txt; text := [];
     type := T_text; media := None; isSystem := false; hasQuote := false;
     quotedMessage := None; isEdited := false |}.

(** The object literal of lines 226-235. *)
Definition system_message (n : nat) (ts : date) (txt : str) : message :=
  {| id := n; timestamp := ts; sender := lit "System"; rawText := txt;
     text := []; type := T_system; media := None; isSystem := true;
     hasQuote := false; quotedMessage := None; isEdited := false |}.

(** Lines 184-187 *)
Definition track_participant (who : str) (parts : JsMap.t nat)
    : JsMap.t nat :=
  if isSystemSender who then parts
  else
    let count := match JsMap.get parts who with Some c => c | None => 0 end in
    JsMap.set parts who (count + 1).

(** Lines 129-132 *)
Definition isQuotedMessage (ts : date) (st : scanner) : bool :=
  match lastTimestamp st with
  | Some lastTs =>
      num_lt ts lastTs &&
      match currentMessage st with
      | Some cm => is_empty (rawText cm) || is_empty (trim (rawText cm))
      | None => false
      end
  | None => false
  end.

(** Lines 150-154: the next raw line, when there is one, is a header with
    an earlier timestamp. *)
Definition next_is_earlier (i : nat) (next : option str) (ts : date) : bool :=
  let nextLine :=
    match next with
    | Some raw => cleanText (Some raw)
    | None => []
    end in
  match exec (messagePattern fmt) nextLine with
  | Some nextMatch =>
      let nextTimestamp :=
        parseDateTime (clock (2 * i + 1)) (group 1 nextMatch)
                      (group 2 nextMatch) fmt in
      num_lt nextTimestamp ts
  | None => false
  end.

(** Lines 121-201: the line is a header. *)
Definition header_step (i : nat) (m : match_result) (next : option str)
    (st : scanner) : scanner :=
  let ts := parseDateTime (clock (2 * i)) (group 1 m) (group 2 m) fmt in
  let cleanSender := cleanSenderName (group 3 m) in
  let txt := grp 4 m in
  if isQuotedMessage ts st then
    match currentMessage st with
    | Some cm =>
        {| st_messages := st_messages st;
           st_participants := st_participants st;
           currentMessage :=
             Some (set_quote {| q_timestamp := ts; q_sender := cleanSender;
                                q_text := txt |} cm);
           lastTimestamp := lastTimestamp st |}
    | None => st
    end
  else if is_empty (trim txt)
          && (match currentMessage st with Some _ => true | None => false end)
          && next_is_earlier i next ts then
    let pushed := push_current st in
    {| st_messages := pushed;
       st_participants := st_participants st;
       currentMessage := Some (new_message (length pushed) ts cleanSender []);
       lastTimestamp := Some ts |}
  else
    let pushed := push_current st in
    {| st_messages := pushed;
       st_participants := track_participant cleanSender (st_participants st);
       currentMessage := Some (new_message (length pushed) ts cleanSender txt);
       lastTimestamp := Some ts |}.

(** Lines 205-209: a line that continues the open message. *)
Definition continuation_step (line : str) (cm : message) (st : scanner)
    : scanner :=
  {| st_messages := st_messages st;
     st_participants := st_participants st;
     currentMessage :=
       Some (if hasQuote cm && is_empty (rawText cm) then set_rawText line cm
             else set_rawText (rawText cm ++ [nl] ++ line) cm);
     lastTimestamp := lastTimestamp st |}.

(** Lines 213-237: a line met while no message is open. *)
Definition orphan_step (i : nat) (line : str) (st : scanner) : scanner :=
  match exec (sysPattern fmt) line with
  | Some sysMatch =>
      let pushed := push_current st in
      let ts :=
        parseDateTime (clock (2 * i)) (group 1 sysMatch) (group 2 sysMatch)
                      fmt in
      {| st_messages := pushed;
         st_participants := st_participants st;
         currentMessage :=
           Some (system_message (length pushed) ts (grp 3 sysMatch));
         lastTimestamp := Some ts |}
  | None => st
  end.

(** One turn of the loop, on raw line [i]; [next] is raw line [i + 1]. *)
Definition step (i : nat) (raw : str) (next : option str) (st : scanner)
    : scanner :=
  let line := cleanText (Some raw) in
  if is_empty line then st
  else
    match exec (messagePattern fmt) line with
    | Some m => header_step i m next st
    | None =>
        match currentMessage st with
        | Some cm => continuation_step line cm st
        | None => orphan_step i line st
        end
    end.

Fixpoint scan (i : nat) (rawLines : list str) (st : scanner) : scanner :=
  match rawLines with
  | [] => st
  | raw :: rest => scan (S i) rest (step i raw (hd_error rest) st)
  end.

End Scan.

Definition initial : scanner :=
  {| st_messages := []; st_participants := []; currentMessage := None;
     lastTimestamp := None |}.

(** [content.replace(/\r\n/g, '\n').replace(/\r/g, '\n').split('\n')] *)
Definition raw_lines (content : str) : list str :=
  split_on (N.eqb nl)
    (replace_all cr_rx [nl] (replace_all crlf_rx [nl] content)).

(** The scanner's variables when line 245 is reached: the loop is over and
    the last open message has been pushed. *)
Definition scanned (content : str) (mediaFiles : JsMap.t payload) : scanner :=
  let fmt := detectFormat content in
  let st := scan fmt mediaFiles 0 (raw_lines content) initial in
  {| st_messages := push_current mediaFiles st;
     st_participants := st_participants st;
     currentMessage := currentMessage st;
     lastTimestamp := lastTimestamp st |}.

(** [parse(content, mediaFiles)] (lines 88-268) *)
Definition parse (content : str) (mediaFiles : JsMap.t payload) : ChatData :=
  let st := scanned content mediaFiles in
  let processedMessages := cleanupMessages (st_messages st) in
  {| messages := processedMessages;
     participants :=
       sort_by (fun a b => (Z.of_nat (snd b) - Z.of_nat (snd a))%Z)
               (st_participants st);
     stats := calculateStats processedMessages (st_participants st);
     exportFormat := detectFormat content |}.

End Host.

End WhatsAppParser.

(* ================================================================== *)
(** ** Vocabulary of the statements *)

Module Vocabulary.

Import Regex JsDate WhatsAppParser.

Definition is_cr (c : N) : bool := (c =? 13)%N.

(** What the global replacements of [cleanText] do, written on lists:
    the code units of a class are dropped, or replaced by a space; of a
    run of two or more spaces only one space stays. *)
Definition remove (cls : N -> bool) (s : str) : str :=
  filter (fun c => negb (cls c)) s.

Definition to_space (cls : N -> bool) (s : str) : str :=
  map (fun c => if cls c then 32%N else c) s.

Fixpoint collapse_spaces (s : str) : str :=
  match s with
  | [] => []
  | c :: t =>
      match t with
      | d :: _ => if (c =? 32)%N && (d =? 32)%N then collapse_spaces t
                  else c :: collapse_spaces t
      | [] => [c]
      end
  end.

Fixpoint drop_while (p : N -> bool) (s : str) : str :=
  match s with
  | [] => []
  | c :: t => if p c then drop_while p t else s
  end.

(** A code unit that none of the four class replacements touches. *)
Definition untouched (c : N) : bool :=
  negb (invisible c) && negb (special_space c) && negb (direction_mark c)
  && negb (is_cr c).

(** No two spaces in a row. *)
Fixpoint no_double (s : str) : bool :=
  match s with
  | [] => true
  | c :: t =>
      match t with
      | d :: _ => negb ((c =? 32)%N && (d =? 32)%N) && no_double t
      | [] => true
      end
  end.

(** Each code unit of the class is replaced by [rep]. *)
Fixpoint replace_class (p : N -> bool) (rep s : str) : str :=
  match s with
  | [] => []
  | c :: t => (if p c then rep else [c]) ++ replace_class p rep t
  end.

(** The text before the first code unit of the class, and the text after
    it. *)
Fixpoint find_class (p : N -> bool) (s : str) : option (str * str) :=
  match s with
  | [] => None
  | c :: t =>
      if p c then Some ([], t)
      else match find_class p t with
           | Some (a, rest) => Some (c :: a, rest)
           | None => None
           end
  end.

(** The text before the first two spaces in a row, and the text after the
    run of spaces they start. *)
Fixpoint find_spaces (s : str) : option (str * str) :=
  match s with
  | [] => None
  | c :: t =>
      let later :=
        match find_spaces t with
        | Some (a, rest) => Some (c :: a, rest)
        | None => None
        end in
      match t with
      | d :: t' =>
          if (32 =? c)%N && (32 =? d)%N then Some ([], drop_while (N.eqb 32) t')
          else later
      | [] => later
      end
  end.

(** What the matcher looks for, without the order of the search:
    [accepts r s s'] when [r] matches a prefix of [s] and leaves [s'].
    An iteration of a star consumes something; groups play no part. *)
Inductive accepts : re -> str -> str -> Prop :=
| acc_eps s : accepts Eps s s
| acc_cls (p : N -> bool) x s : p x = true -> accepts (Cls p) (x :: s) s
| acc_cat a b s s1 s2 :
    accepts a s s1 -> accepts b s1 s2 -> accepts (Cat a b) s s2
| acc_alt_l a b s s' : accepts a s s' -> accepts (Alt a b) s s'
| acc_alt_r a b s s' : accepts b s s' -> accepts (Alt a b) s s'
| acc_star_stop a s : accepts (Star a) s s
| acc_star_more a s s1 s2 :
    accepts a s s1 -> length s1 < length s -> accepts (Star a) s1 s2 ->
    accepts (Star a) s s2
| acc_cap i a s s' : accepts a s s' -> accepts (Cap i a) s s'.

(** The pattern without its groups. *)
Fixpoint erase (r : re) : re :=
  match r with
  | Eps => Eps
  | Cls p => Cls p
  | Cat a b => Cat (erase a) (erase b)
  | Alt a b => Alt (erase a) (erase b)
  | Star a => Star (erase a)
  | Cap _ a => erase a
  end.

(** [cat (l ++ [tail])], with the tail kept apart. *)
Fixpoint cat_onto (l : list re) (tail : re) : re :=
  match l with
  | [] => tail
  | r :: l' => Cat r (cat_onto l' tail)
  end.

(** The run of a pattern in front of [k] does not fail.  For a star the
    statement is about every sufficient number of iterations. *)
Definition succeeds (A : Type) (r : re) (k : str -> captures -> option A)
    (s : str) (c : captures) : Prop :=
  match r with
  | Star a =>
      forall fuel, length s <= fuel -> star_loop (run a) k fuel s c <> None
  | _ => run r s c k <> None
  end.

(** A continuation after a run of the class [p]: it fails on what
    starts with a code unit of the class, or it never fails. *)
Definition settles (A : Type) (p : N -> bool)
    (k : str -> captures -> option A) : Prop :=
  (forall x s c, p x = true -> k (x :: s) c = None)
  \/ (forall s c, k s c <> None).

(** The marker part of the two attachment patterns, with the number of the
    group that holds the file name, and what the document pattern of line
    350 has in front of it. *)
Definition attach_tail (i : nat) : re :=
  cat [ch "<"; Star space; wordi "attached"; Star space; ch ":"; Star space;
       Cap i (plus (none_of 62)); ch ">"].

Definition pdf_head : list re :=
  [Cap 1 (cat [plus (none_of bullet); ch "."; wordi "pdf"]);
   Star space; chr bullet; Star space; Cap 2 (plus digit); Star space;
   wordi "page"; opt (chi "s"); Star space].

(** The identifiers of [l] go up strictly and the first is at least [k]. *)
Fixpoint ids_from (k : nat) (l : list message) : Prop :=
  match l with
  | [] => True
  | m :: l' => k <= id m /\ ids_from (S (id m)) l'
  end.

(** What the loop of [parse] maintains: the pushed messages are numbered
    by position and the open message carries the next number. *)
Definition numbered (st : scanner) : Prop :=
  map id (st_messages st) = seq 0 (length (st_messages st))
  /\ forall cm, currentMessage st = Some cm -> id cm = length (st_messages st).

(** No message of the scanner is a document, pushed or open. *)
Definition no_document (st : scanner) : Prop :=
  Forall (fun m => type m <> T_document) (st_messages st)
  /\ forall cm, currentMessage st = Some cm -> type cm <> T_document.

(** The detector as the specification words it: the lines that are not
    empty once normalized, the first twenty of them, the first of these
    that matches a grammar. *)
Fixpoint first_classified (lines : list str) : export_format :=
  match lines with
  | [] => ios
  | line :: rest =>
      match classify_line line with
      | Some f => f
      | None => first_classified rest
      end
  end.

Definition normalized_nonempty (rawLines : list str) : list str :=
  filter (fun l => negb (is_empty l))
         (map (fun raw => cleanText (Some raw)) rawLines).

Definition detectFormat_spec (content : str) : export_format :=
  first_classified
    (firstn 20 (normalized_nonempty (lf_lines content))).

(** The tokens of the resolver, by their shape.  [take_while p s] is the
    longest prefix of [s] in the class [p], [drop_while p s] what follows
    it. *)
Fixpoint take_while (p : N -> bool) (s : str) : str :=
  match s with
  | [] => []
  | c :: t => if p c then c :: take_while p t else []
  end.

Definition is_dash (c : N) : bool := (c =? 45)%N || (c =? 95)%N.
Definition is_dash_or_digit (c : N) : bool :=
  (c =? 45)%N || (c =? 95)%N || is_digit c.

(** [s] starts with [tag], in whatever letter case. *)
Fixpoint starts_with_any_case (tag s : str) : bool :=
  match tag, s with
  | [], _ => true
  | x :: tag', y :: s' =>
      (upper_char y =? upper_char x)%N && starts_with_any_case tag' s'
  | _ :: _, [] => false
  end.

Definition tags : list str :=
  [lit "PHOTO"; lit "VIDEO"; lit "AUDIO"; lit "DOCUMENT"; lit "FILE"].

Definition leading_tag (s : str) : option str :=
  find (fun tag => starts_with_any_case tag s) tags.

(** The leftmost place of [s] where [here] finds something. *)
Fixpoint leftmost (here : str -> option str) (s : str) : option str :=
  match here s with
  | Some t => Some t
  | None =>
      match s with
      | [] => None
      | _ :: s' => leftmost here s'
      end
  end.

(** A core token at the start of [s]: all the digits there, five at
    least; a dash or an underscore; a tag; all the dashes, underscores and
    digits that follow, one at least; a dot; all the word characters
    that follow, one at least. *)
Definition core_here (s : str) : option str :=
  let id := take_while is_digit s in
  match drop_while is_digit s with
  | sep :: s1 =>
      match leading_tag s1 with
      | Some tag =>
          let s2 := skipn (length tag) s1 in
          let tail := take_while is_dash_or_digit s2 in
          match drop_while is_dash_or_digit s2 with
          | dot :: s3 =>
              let ext := take_while is_word s3 in
              if (5 <=? length id) && is_dash sep && negb (is_empty tail)
                 && (dot =? 46)%N && negb (is_empty ext)
              then Some (id ++ sep :: firstn (length tag) s1
                            ++ tail ++ dot :: ext)
              else None
          | [] => None
          end
      | None => None
      end
  | [] => None
  end.

Definition core_part (filename : str) : option str :=
  leftmost core_here filename.

(** A run of eight digits or more at the start of [s], whole. *)
Definition digits_here (s : str) : option str :=
  let run := take_while is_digit s in
  if 8 <=? length run then Some run else None.

Definition digit_run (filename : str) : option str :=
  leftmost digits_here filename.

(** The resolver as a cascade: each strategy is a test on keys, or is
    skipped when the file name has not the token that strategy needs; a
    strategy succeeds on the first key of the table that passes its test,
    and the first strategy that succeeds gives the payload.  [lower] is
    the lower-casing of the host. *)
Definition strategies (lower : str -> str) (filename : str)
    : list (option (str -> bool)) :=
  [ Some (fun key => str_eqb key filename);
    Some (fun key => str_eqb (lower key) (lower filename));
    option_map (fun core key => includes key core || includes core key)
               (core_part filename);
    option_map (fun digits key => includes key digits)
               (digit_run filename) ].

(** The cascade as the specification words it: a core token is five digits or
    more, a dash or an underscore and a tag, and the third strategy looks
    for a key that contains it. *)
Definition id_and_tag_here (s : str) : option str :=
  let id := take_while is_digit s in
  match drop_while is_digit s with
  | sep :: s1 =>
      match leading_tag s1 with
      | Some tag =>
          if (5 <=? length id) && is_dash sep
          then Some (id ++ sep :: firstn (length tag) s1)
          else None
      | None => None
      end
  | [] => None
  end.

Definition strategies_claimed (lower : str -> str) (filename : str)
    : list (option (str -> bool)) :=
  [ Some (fun key => str_eqb key filename);
    Some (fun key => str_eqb (lower key) (lower filename));
    option_map (fun core key => includes key core)
               (leftmost id_and_tag_here filename);
    option_map (fun digits key => includes key digits)
               (digit_run filename) ].

Fixpoint first_hit (tests : list (option (str -> bool)))
    (mediaFiles : JsMap.t payload) : option payload :=
  match tests with
  | [] => None
  | None :: rest => first_hit rest mediaFiles
  | Some p :: rest =>
      match JsMap.first_value p mediaFiles with
      | Some v => Some v
      | None => first_hit rest mediaFiles
      end
  end.

(** A raw line that the loop of [parse] does not recognise when no message
    is open: empty once cleaned, or matching neither the header grammar
    nor the headerless one. *)
Definition unrecognized (fmt : export_format) (raw : str) : bool :=
  let line := cleanText (Some raw) in
  is_empty line
  || (negb (test (messagePattern fmt) line)
      && negb (test (sysPattern fmt) line)).

(** The result without messages. *)
Definition empty_chat (fmt : export_format) : ChatData :=
  {| messages := []; participants := [];
     stats := {| totalMessages := 0; mediaMessages := 0;
                 participantCount := 0; firstDate := None; lastDate := None;
                 dateRange := lit "-" |};
     exportFormat := fmt |}.

(** *** Sample inputs *)

Definition line_break : str := [nl].

(** The quote-merge example of the specification. *)
Definition quote_merge_input : str :=
  lit "[1/2/24, 10:00:00 AM] Alice: " ++ line_break ++
  lit "[1/2/24, 09:59:00 AM] Bob: Hi".

(** The same in the dash dialect, without seconds, the quoted message
    being of the day before; and in the bracket dialect without seconds. *)
Definition quote_merge_dash_input : str :=
  lit "1/2/24, 10:00 - Alice: " ++ line_break ++
  lit "31/12/23, 23:59 - Bob: Hi".

Definition quote_merge_short_input : str :=
  lit "[1/2/24, 9:00 AM] Alice: " ++ line_break ++
  lit "[1/1/24, 11:30 PM] Bob: Hi".

(** An empty message followed by a later one. *)
Definition empty_then_text_input : str :=
  lit "[1/2/24, 10:00:00 AM] Alice: " ++ line_break ++
  lit "[1/2/24, 10:01:00 AM] Bob: Hi".

(** A reply with a quote, after an earlier message. *)
Definition quoted_reply_input : str :=
  lit "[1/2/24, 10:00:00 AM] Bob: hello" ++ line_break ++
  lit "[1/2/24, 10:05:00 AM] Alice: " ++ line_break ++
  lit "[1/2/24, 09:59:00 AM] Bob: Hi" ++ line_break ++
  lit "reply".

(** A document line that carries an attachment marker. *)
Definition pdf_attachment_text : str :=
  lit "report.pdf " ++ [bullet] ++
  lit " 3 pages <attached: 00000012-report.pdf>".

(** Twenty empty lines, then a dash header. *)
Definition late_header_input : str :=
  repeat nl 20 ++ lit "1/2/2024, 10:00 - Alice: hi".

(** An empty line and a line of noise, then a bracket header without
    seconds; and two lines of noise. *)
Definition third_line_header_input : str :=
  line_break ++ lit "noise" ++ line_break ++
  lit "[1/2/24, 10:00 AM] Alice: hi".

Definition noise_input : str :=
  lit "noise" ++ line_break ++ lit "more noise".

(** A host whose clock always reads 0 and whose locale service prints
    nothing. *)
Definition still_clock : nat -> Z := fun _ => 0%Z.
Definition mute_locale : Z -> str := fun _ => [].

End Vocabulary.

(* ================================================================== *)
(** ** The renderer ([src/renderer.js])

    The functions of [ChatRenderer] that decide what is shown: the class
    of a message, the sequence of elements appended to the container, and
    the result of a search.  The document itself is not modelled: a
    container is the list of the elements appended to it. *)

Module ChatRenderer.

Import WhatsAppParser.

(** [this.currentUser && message.sender === this.currentUser], the
    current user being [null] ([None]) or a name. *)
Definition is_current_user (currentUser : option str) (who : str) : bool :=
  match currentUser with
  | Some u => negb (is_empty u) && str_eqb who u
  | None => false
  end.

(** [getMessageClass(message)] (lines 144-162) *)
Definition getMessageClass (currentUser : option str) (msg : message) : str :=
  if isSystem msg || msg_type_eqb (type msg) T_system then lit "system"
  else if msg_type_eqb (type msg) T_call
          || msg_type_eqb (type msg) T_missed_call then
    let baseClass :=
      if is_current_user currentUser (sender msg) then lit "outgoing"
      else lit "incoming" in
    baseClass ++ lit " "
    ++ (if msg_type_eqb (type msg) T_missed_call then lit "missed_call"
        else lit "call")
  else if is_current_user currentUser (sender msg) then lit "outgoing"
  else lit "incoming".

(** Lines 98-103 of [createMessageElement]: whether the bubble gets the
    element that names the sender. *)
Definition sender_label_shown (currentUser : option str) (msg : message)
    (showSender : bool) : bool :=
  showSender && negb (isSystem msg)
  && str_eqb (getMessageClass currentUser msg) (lit "incoming").

(** What [renderMessages] appends to the container. *)
Inductive element : Type :=
| date_separator (dateText : str)
| message_element (msg : message) (showSender : bool).

Definition same_text (last : option str) (now : str) : bool :=
  match last with
  | Some l => str_eqb now l
  | None => false
  end.

Section Render.

(** The property [formattedDate] that [parse] adds to every message
    (parser.js, line 254). *)
Variable formattedDate : message -> str.

(** The callback of lines 50-63, with the two variables it updates. *)
Fixpoint render_loop (msgs : list message) (lastDate lastSender : option str)
    : list element :=
  match msgs with
  | [] => []
  | msg :: rest =>
      let newDate := negb (same_text lastDate (formattedDate msg)) in
      let lastSender := if newDate then None else lastSender in
      let showSender :=
        negb (same_text lastSender (sender msg)) && negb (isSystem msg) in
      (if newDate then [date_separator (formattedDate msg)] else [])
      ++ message_element msg showSender
         :: render_loop rest (Some (formattedDate msg)) (Some (sender msg))
  end.

(** [renderMessages(containerId, chatData)] (lines 42-70), for a container
    that exists: the children of the container afterwards. *)
Definition renderMessages (msgs : list message) : list element :=
  render_loop msgs None None.

End Render.

(** [searchMessages(query)] (lines 382-410): the value returned. *)
Definition searchMessages (allMessages : list message) (query : str)
    : list message :=
  if is_empty (trim query) then []
  else
    let lowerQuery := toLowerCase query in
    filter (fun msg =>
              includes (toLowerCase (text msg)) lowerQuery
              || includes (toLowerCase (sender msg)) lowerQuery)
           allMessages.

End ChatRenderer.

(* ================================================================== *)
(** ** The application ([App], file handling) *)

Module App.

Import WhatsAppParser.

(** [isMediaFile(filename)] *)
Definition mediaExtensions : list str :=
  [lit "jpg"; lit "jpeg"; lit "png"; lit "gif"; lit "webp"; lit "heic";
   lit "heif";
   lit "mp4"; lit "mov"; lit "avi"; lit "3gp"; lit "mkv";
   lit "mp3"; lit "ogg"; lit "opus"; lit "m4a"; lit "wav"; lit "aac";
   lit "pdf"; lit "doc"; lit "docx"; lit "xls"; lit "xlsx"; lit "ppt";
   lit "pptx"].

Definition isMediaFile (filename : str) : bool :=
  let ext := toLowerCase (last_piece filename) in
  existsb (str_eqb ext) mediaExtensions.

(** [getMimeType(filename)]; the table is looked up among its own keys. *)
Definition mimeTypes : list (str * str) :=
  [(lit "jpg", lit "image/jpeg"); (lit "jpeg", lit "image/jpeg");
   (lit "png", lit "image/png"); (lit "gif", lit "image/gif");
   (lit "webp", lit "image/webp"); (lit "heic", lit "image/heic");
   (lit "heif", lit "image/heif");
   (lit "mp4", lit "video/mp4"); (lit "mov", lit "video/quicktime");
   (lit "avi", lit "video/x-msvideo"); (lit "3gp", lit "video/3gpp");
   (lit "mkv", lit "video/x-matroska");
   (lit "mp3", lit "audio/mpeg"); (lit "ogg", lit "audio/ogg");
   (lit "opus", lit "audio/opus"); (lit "m4a", lit "audio/mp4");
   (lit "wav", lit "audio/wav"); (lit "aac", lit "audio/aac");
   (lit "pdf", lit "application/pdf"); (lit "doc", lit "application/msword");
   (lit "docx",
    lit "application/vnd.openxmlformats-officedocument.wordprocessingml.document");
   (lit "xls", lit "application/vnd.ms-excel");
   (lit "xlsx",
    lit "application/vnd.openxmlformats-officedocument.spreadsheetml.sheet");
   (lit "ppt", lit "application/vnd.ms-powerpoint");
   (lit "pptx",
    lit "application/vnd.openxmlformats-officedocument.presentationml.presentation")].

Definition getMimeType (filename : str) : str :=
  let ext := toLowerCase (last_piece filename) in
  match JsMap.get mimeTypes ext with
  | Some t => t
  | None => lit "application/octet-stream"
  end.

(** Lines 398-400 and 456-458: a media file is stored in the table under
    its name. *)
Definition store_media (mediaFiles : JsMap.t payload) (filename : str)
    (dataUrl : payload) : JsMap.t payload :=
  if isMediaFile filename then JsMap.set mediaFiles filename dataUrl
  else mediaFiles.

End App.

(* ================================================================== *)
(** ** More vocabulary *)

Module Conditions.

Import Regex JsDate WhatsAppParser ChatRenderer Vocabulary.

(** Nothing but white space: [!query.trim()]. *)
Definition blank (s : str) : bool := is_empty (trim s).

(** Every code unit is an ASCII one: [toLowerCase] then acts code unit by
    code unit. *)
Definition ascii_only (s : str) : bool := forallb (fun c => (c <? 128)%N) s.

(** The kinds of message that come with a media descriptor. *)
Definition carries_media (t : msg_type) : bool :=
  match t with
  | T_media | T_media_omitted | T_document | T_document_omitted => true
  | _ => false
  end.

(** The message elements of a container, in order. *)
Fixpoint messages_of (l : list element) : list message :=
  match l with
  | [] => []
  | date_separator _ :: l' => messages_of l'
  | message_element m _ :: l' => m :: messages_of l'
  end.

(** The count a table of participants holds for a name, 0 when it has
    none. *)
Definition count_of (parts : JsMap.t nat) (who : str) : nat :=
  match JsMap.get parts who with
  | Some c => c
  | None => 0
  end.

(** How many messages of a list have the given sender. *)
Definition sent_by (who : str) (l : list message) : nat :=
  length (filter (fun m => str_eqb (sender m) who) l).

Definition open_by (who : str) (cm : option message) : nat :=
  match cm with
  | Some m => if str_eqb (sender m) who then 1 else 0
  | None => 0
  end.

Definition open_count (cm : option message) : nat :=
  match cm with
  | Some _ => 1
  | None => 0
  end.

(** Every line feed becomes a carriage return and a line feed. *)
Fixpoint to_crlf (s : str) : str :=
  match s with
  | [] => []
  | c :: t => (if (c =? 10)%N then [13; 10]%N else [c]) ++ to_crlf t
  end.

(** A carriage return followed by a line feed becomes a line feed. *)
Fixpoint crlf_to_lf (s : str) : str :=
  match s with
  | [] => []
  | c :: t =>
      match t with
      | d :: t' => if (13 =? c)%N && (10 =? d)%N then 10%N :: crlf_to_lf t'
                   else c :: crlf_to_lf t
      | [] => [c]
      end
  end.

(** The text before the first carriage return and line feed, and the text
    after them. *)
Fixpoint find_crlf (s : str) : option (str * str) :=
  match s with
  | [] => None
  | c :: t =>
      let later :=
        match find_crlf t with
        | Some (a, rest) => Some (c :: a, rest)
        | None => None
        end in
      match t with
      | d :: t' => if (13 =? c)%N && (10 =? d)%N then Some ([], t') else later
      | [] => later
      end
  end.

(** A scanner all of whose pushed messages satisfy [Q] and whose open
    message, if any, satisfies [P]. *)
Definition holds_in (P Q : message -> Prop) (st : scanner) : Prop :=
  Forall Q (st_messages st)
  /\ forall cm, currentMessage st = Some cm -> P cm.

(** A sender name as [cleanSenderName] makes them: not empty and without
    white space around it. *)
Definition tidy_name (s : str) : Prop := s <> [] /\ trim s = s.

(** What the loop of [parse] keeps true of the table of participants:
    names are tidy, distinct and not system senders, counts are positive,
    and no count exceeds the number of messages of that sender, pushed or
    open. *)
Definition fair_counts (st : scanner) : Prop :=
  NoDup (map fst (st_participants st))
  /\ Forall (fun kc => tidy_name (fst kc) /\ isSystemSender (fst kc) = false
                       /\ 1 <= snd kc)
            (st_participants st)
  /\ forall who,
       count_of (st_participants st) who
       <= sent_by who (st_messages st) + open_by who (currentMessage st).

(** The raw lines that are not empty once cleaned. *)
Definition nonempty_lines (rawLines : list str) : list str :=
  filter (fun raw => negb (is_empty (cleanText (Some raw)))) rawLines.

(** Sample inputs of the witnesses. *)
Definition crlf_free_input : str :=
  lit "[1/2/24, 10:00:00 AM] Alice: hi" ++ [10%N] ++ lit "there".

Definition greeting : message :=
  {| id := 0; timestamp := Some 0%Z; sender := lit "Alice";
     rawText := lit "Hello World"; text := lit "Hello World";
     type := T_text; media := None; isSystem := false; hasQuote := false;
     quotedMessage := None; isEdited := false |}.

End Conditions.

(* ================================================================== *)
(** ** Global replacements, through the matcher and on lists *)

Module RegexProofs.

Import Regex JsDate WhatsAppParser Vocabulary.

Lemma drop_while_length p s : length (drop_while p s) <= length s.
Proof.
  induction s as [|c t IH]; simpl; auto.
  destruct (p c); simpl; lia.
Qed.

(** A starred class in front of a continuation that cannot fail takes
    every code unit of the class it can. *)
Lemma star_loop_class (A : Type) (p : N -> bool)
    (k : str -> captures -> option A) :
  (forall s c, k s c <> None) ->
  forall fuel s c, length s <= fuel ->
    star_loop (run (Cls p)) k fuel s c = k (drop_while p s) c.
Proof.
  intros Hk. induction fuel as [|fuel IH]; intros s c Hlen.
  - destruct s; [reflexivity|simpl in Hlen; lia].
  - destruct s as [|x s']; [reflexivity|].
    cbn [star_loop run drop_while]. destruct (p x); [|reflexivity].
    assert (Hlt : (length s' <? length (x :: s')) = true)
      by (apply Nat.ltb_lt; simpl; lia).
    rewrite Hlt, IH by (simpl in Hlen; lia).
    destruct (k (drop_while p s') c) eqn:E; [reflexivity|].
    now elim (Hk _ _ E).
Qed.

(** How [replace_all] goes when the matches of the pattern are described
    by [find] and the expected result [g] unfolds along [find]. *)
Lemma replace_loop_by_find r rep (find : str -> option (str * str))
    (g : str -> str) :
  (forall pre s,
     match find s with
     | None => search r pre s = None
     | Some (a, rest) =>
         length rest < length s
         /\ exists txt caps,
              txt <> []
              /\ search r pre s
                 = Some {| m_pre := pre ++ a; m_text := txt; m_post := rest;
                           m_caps := caps |}
     end) ->
  (forall s, g s = match find s with
                   | None => s
                   | Some (a, rest) => a ++ rep ++ g rest
                   end) ->
  forall fuel s, length s < fuel -> replace_loop fuel r rep s = g s.
Proof.
  intros Hs Hg. induction fuel as [|fuel IH]; intros s Hlen; [lia|].
  cbn [replace_loop]. specialize (Hs [] s). rewrite (Hg s).
  destruct (find s) as [[a rest]|].
  - destruct Hs as (Hl & txt & caps & Hne & ->). cbn [m_text m_post m_pre].
    destruct txt; [congruence|]. rewrite IH by lia. reflexivity.
  - rewrite Hs. reflexivity.
Qed.

Lemma firstn_nonempty (x : N) t n : 0 < n -> firstn n (x :: t) <> [].
Proof. destruct n; [lia|]. discriminate. Qed.

(** *** A class *)

Lemma search_class p : forall s pre,
  match find_class p s with
  | None => search (Cls p) pre s = None
  | Some (a, rest) =>
      length rest < length s
      /\ exists txt caps,
           txt <> []
           /\ search (Cls p) pre s
              = Some {| m_pre := pre ++ a; m_text := txt; m_post := rest;
                        m_caps := caps |}
  end.
Proof.
  induction s as [|x t IH]; intros pre; [reflexivity|].
  cbn [find_class search]. unfold match_at. cbn [run].
  destruct (p x).
  - split; [simpl; lia|]. eexists _, _. rewrite app_nil_r.
    split; [|reflexivity]. apply firstn_nonempty. cbn [length]. lia.
  - specialize (IH (pre ++ [x])).
    destruct (find_class p t) as [[a rest]|]; [|exact IH].
    destruct IH as (Hl & txt & caps & Hne & E).
    split; [simpl; lia|]. exists txt, caps. split; [exact Hne|].
    rewrite E, <- app_assoc. reflexivity.
Qed.

Lemma replace_class_unfold p rep s :
  replace_class p rep s
  = match find_class p s with
    | None => s
    | Some (a, rest) => a ++ rep ++ replace_class p rep rest
    end.
Proof.
  induction s as [|x t IH]; [reflexivity|].
  cbn [replace_class find_class]. destruct (p x); [reflexivity|].
  rewrite IH. destruct (find_class p t) as [[a rest]|]; reflexivity.
Qed.

Lemma replace_all_class p rep s :
  replace_all (unanchored (Cls p)) rep s = replace_class p rep s.
Proof.
  unfold replace_all. cbn [pattern unanchored].
  apply replace_loop_by_find with (find := find_class p); auto.
  - intros pre s0. apply search_class.
  - intros s0. apply replace_class_unfold.
Qed.

Lemma replace_class_remove p s : replace_class p [] s = remove p s.
Proof.
  unfold remove. induction s as [|x t IH]; [reflexivity|].
  cbn [replace_class filter]. destruct (p x); simpl; now rewrite IH.
Qed.

Lemma replace_class_to_space p s : replace_class p (lit " ") s = to_space p s.
Proof.
  unfold to_space. induction s as [|x t IH]; [reflexivity|].
  cbn [replace_class map]. destruct (p x); simpl; now rewrite IH.
Qed.

Lemma remove_ext p q s : (forall c, p c = q c) -> remove p s = remove q s.
Proof.
  intros H. unfold remove. apply filter_ext. intros c. now rewrite H.
Qed.

(** *** Two spaces or more *)

Lemma run_class_class_star (A : Type) p q (k : str -> captures -> option A)
    x y t c :
  run (Cat (Cls p) (Cat (Cls q) (Star (Cls q)))) (x :: y :: t) c k
  = if p x then
      if q y then star_loop (run (Cls q)) k (length t) t c else None
    else None.
Proof. reflexivity. Qed.

Lemma match_spaces pre s :
  match_at (pattern spaces_rx) pre s
  = match s with
    | c :: d :: t' =>
        if (32 =? c)%N && (32 =? d)%N
        then Some {| m_pre := pre;
                     m_text :=
                       firstn (length s
                               - length (drop_while (N.eqb 32) t')) s;
                     m_post := drop_while (N.eqb 32) t'; m_caps := [] |}
        else None
    | _ => None
    end.
Proof.
  unfold match_at.
  change (pattern spaces_rx)
    with (Cat (Cls (N.eqb 32)) (Cat (Cls (N.eqb 32)) (Star (Cls (N.eqb 32))))).
  destruct s as [|c [|d t']].
  - reflexivity.
  - cbn [run]. destruct (32 =? c)%N; reflexivity.
  - rewrite run_class_class_star.
    destruct (32 =? c)%N; [|reflexivity].
    destruct (32 =? d)%N; [|reflexivity].
    cbn [andb]. rewrite star_loop_class; [reflexivity| |lia].
    intros; discriminate.
Qed.

Lemma search_spaces : forall s pre,
  match find_spaces s with
  | None => search (pattern spaces_rx) pre s = None
  | Some (a, rest) =>
      length rest < length s
      /\ exists txt caps,
           txt <> []
           /\ search (pattern spaces_rx) pre s
              = Some {| m_pre := pre ++ a; m_text := txt; m_post := rest;
                        m_caps := caps |}
  end.
Proof.
  induction s as [|c t IH]; intros pre.
  - cbn [find_spaces search]. now rewrite match_spaces.
  - cbn [find_spaces search]. rewrite match_spaces.
    specialize (IH (pre ++ [c])).
    assert (Later :
      match match find_spaces t with
            | Some (a, rest) => Some (c :: a, rest)
            | None => None
            end with
      | None => search (pattern spaces_rx) (pre ++ [c]) t = None
      | Some (a, rest) =>
          length rest < length (c :: t)
          /\ exists txt caps,
               txt <> []
               /\ search (pattern spaces_rx) (pre ++ [c]) t
                  = Some {| m_pre := pre ++ a; m_text := txt; m_post := rest;
                            m_caps := caps |}
      end).
    { destruct (find_spaces t) as [[a rest]|]; [|exact IH].
      destruct IH as (Hl & txt & caps & Hne & E).
      split; [simpl; lia|]. exists txt, caps. split; [exact Hne|].
      rewrite E, <- app_assoc. reflexivity. }
    destruct t as [|d t']; [exact Later|].
    destruct ((32 =? c)%N && (32 =? d)%N); [|exact Later].
    pose proof (drop_while_length (N.eqb 32) t') as Hd.
    split; [simpl; lia|]. eexists _, _. rewrite app_nil_r.
    split; [|reflexivity]. apply firstn_nonempty. cbn [length]. lia.
Qed.

Lemma collapse_run t :
  collapse_spaces (32%N :: t)
  = 32%N :: collapse_spaces (drop_while (N.eqb 32) t).
Proof.
  induction t as [|d t IH]; [reflexivity|].
  cbn [drop_while]. destruct (N.eqb_spec 32 d) as [<-|Hd].
  - rewrite <- IH. reflexivity.
  - cbn [collapse_spaces]. destruct (N.eqb_spec d 32) as [->|_]; [congruence|].
    reflexivity.
Qed.

Lemma collapse_unfold s :
  collapse_spaces s
  = match find_spaces s with
    | None => s
    | Some (a, rest) => a ++ lit " " ++ collapse_spaces rest
    end.
Proof.
  induction s as [|c t IH]; [reflexivity|].
  assert (Later :
    c :: collapse_spaces t
    = match match find_spaces t with
            | Some (a, rest) => Some (c :: a, rest)
            | None => None
            end with
      | None => c :: t
      | Some (a, rest) => a ++ lit " " ++ collapse_spaces rest
      end).
  { rewrite IH. destruct (find_spaces t) as [[a rest]|]; reflexivity. }
  cbn [find_spaces]. destruct t as [|d t']; [exact Later|].
  rewrite (N.eqb_sym 32 c), (N.eqb_sym 32 d).
  change (collapse_spaces (c :: d :: t')) with
    (if (c =? 32)%N && (d =? 32)%N then collapse_spaces (d :: t')
     else c :: collapse_spaces (d :: t')).
  destruct (N.eqb_spec c 32) as [->|_]; [|exact Later].
  destruct (N.eqb_spec d 32) as [->|_]; [|exact Later].
  cbn [andb]. apply collapse_run.
Qed.

Lemma replace_all_spaces s :
  replace_all spaces_rx (lit " ") s = collapse_spaces s.
Proof.
  unfold replace_all.
  apply replace_loop_by_find with (find := find_spaces); auto.
  - intros pre s0. apply search_spaces.
  - intros s0. apply collapse_unfold.
Qed.

(** The chain of [cleanText], on lists. *)
Lemma clean_on_lists t :
  clean t
  = trim
      (collapse_spaces
         (remove is_cr
            (remove direction_mark
               (to_space special_space (remove invisible t))))).
Proof.
  unfold clean, invisible_rx, special_space_rx, direction_mark_rx, cr_rx, chr.
  rewrite replace_all_spaces, !replace_all_class, !replace_class_remove,
    replace_class_to_space.
  f_equal. f_equal. apply remove_ext. intros c. apply N.eqb_sym.
Qed.

End RegexProofs.

(** Case analysis on whatever the goal matches on. *)
Ltac break_match :=
  repeat match goal with
         | |- context [match ?x with _ => _ end] => destruct x
         end.

(* ================================================================== *)
(** ** The matcher and the patterns it accepts *)

Module MatcherProofs.

Import Regex JsDate WhatsAppParser Vocabulary.

Lemma accepts_suffix r s s' : accepts r s s' -> exists p, s = p ++ s'.
Proof.
  induction 1 as [s|p x s _|a b s s1 s2 _ [p1 ->] _ [p2 ->]
                  |a b s s' _ IH|a b s s' _ IH|a s
                  |a s s1 s2 _ [p1 ->] _ _ [p2 ->]|i a s s' _ IH]; auto.
  - now exists [].
  - now exists [x].
  - exists (p1 ++ p2). now rewrite app_assoc.
  - now exists [].
  - exists (p1 ++ p2). now rewrite app_assoc.
Qed.

Lemma star_loop_sound (A : Type) a (k : str -> captures -> option A) x :
  (forall s c (k' : str -> captures -> option A),
     run a s c k' = Some x ->
     exists s' c', accepts a s s' /\ k' s' c' = Some x) ->
  forall fuel s c,
    star_loop (run a) k fuel s c = Some x ->
    exists s' c', accepts (Star a) s s' /\ k s' c' = Some x.
Proof.
  intros Ha. induction fuel as [|fuel IH]; intros s c H.
  - exists s, c. split; [constructor|exact H].
  - cbn [star_loop] in H.
    destruct (run a s c _) as [y|] eqn:E.
    + injection H as ->.
      destruct (Ha _ _ _ E) as (s1 & c1 & Hacc & Hk).
      destruct (length s1 <? length s) eqn:L; [|discriminate].
      apply Nat.ltb_lt in L.
      destruct (IH _ _ Hk) as (s' & c' & Hstar & Hk').
      exists s', c'. split; [|exact Hk'].
      eapply acc_star_more; eauto.
    + exists s, c. split; [constructor|exact H].
Qed.

(** What the matcher finds is accepted: the continuation was called on
    what a match left. *)
Lemma run_sound (A : Type) r : forall s c (k : str -> captures -> option A) x,
  run r s c k = Some x ->
  exists s' c', accepts r s s' /\ k s' c' = Some x.
Proof.
  induction r as [|p|a IHa b IHb|a IHa b IHb|a IHa|i a IHa];
    intros s c k x H; cbn [run] in H.
  - exists s, c. split; [constructor|exact H].
  - destruct s as [|y s]; [discriminate|].
    destruct (p y) eqn:E; [|discriminate].
    exists s, c. split; [now constructor|exact H].
  - destruct (IHa _ _ _ _ H) as (s1 & c1 & Ha & H1).
    destruct (IHb _ _ _ _ H1) as (s2 & c2 & Hb & H2).
    exists s2, c2. split; [econstructor; eauto|exact H2].
  - destruct (run a s c k) as [y|] eqn:E.
    + injection H as ->. destruct (IHa _ _ _ _ E) as (s' & c' & Ha & Hk).
      exists s', c'. split; [now apply acc_alt_l|exact Hk].
    + destruct (IHb _ _ _ _ H) as (s' & c' & Hb & Hk).
      exists s', c'. split; [now apply acc_alt_r|exact Hk].
  - eapply star_loop_sound; eauto.
  - destruct (IHa _ _ _ _ H) as (s' & c' & Ha & Hk).
    eexists _, _. split; [apply acc_cap; exact Ha|exact Hk].
Qed.

Lemma succeeds_run (A : Type) r (k : str -> captures -> option A) s c :
  succeeds r k s c -> run r s c k <> None.
Proof.
  destruct r; auto. intros H. cbn [run]. now apply H.
Qed.

(** What is accepted is found, by this path or by an earlier one, when
    the continuation does not fail on what the match leaves. *)
Lemma accepts_succeeds (A : Type) r s s' :
  accepts r s s' ->
  forall c (k : str -> captures -> option A),
    (forall c', k s' c' <> None) -> succeeds r k s c.
Proof.
  induction 1 as [s|p x s Hp|a b s s1 s2 _ IH1 _ IH2
                  |a b s s' _ IH|a b s s' _ IH|a s
                  |a s s1 s2 _ IH1 Hlen _ IH2|i a s s' _ IH];
    intros c k Hk; cbn [succeeds].
  - apply Hk.
  - cbn [run]. rewrite Hp. apply Hk.
  - cbn [run]. apply succeeds_run, IH1.
    intros c'. apply succeeds_run, IH2, Hk.
  - cbn [run].
    assert (H : run a s c k <> None) by (apply succeeds_run, IH, Hk).
    destruct (run a s c k); [discriminate|congruence].
  - cbn [run].
    assert (H : run b s c k <> None) by (apply succeeds_run, IH, Hk).
    destruct (run a s c k); [discriminate|exact H].
  - intros fuel _. destruct fuel; cbn [star_loop]; [apply Hk|].
    destruct (run a s c _); [discriminate|apply Hk].
  - intros fuel Hf. destruct fuel as [|fuel]; [lia|]. cbn [star_loop].
    assert (H : run a s c
                  (fun s0 c0 =>
                     if length s0 <? length s
                     then star_loop (run a) k fuel s0 c0 else None)
                <> None).
    { apply succeeds_run, IH1. intros c'.
      apply Nat.ltb_lt in Hlen. rewrite Hlen.
      apply (IH2 c' k Hk). apply Nat.ltb_lt in Hlen. lia. }
    destruct (run a s c _); [discriminate|congruence].
  - cbn [run]. apply succeeds_run, IH. intros c'. apply Hk.
Qed.

Lemma accepts_erase r s s' : accepts r s s' <-> accepts (erase r) s s'.
Proof.
  split.
  - induction 1; cbn [erase]; try (econstructor; eauto; fail); auto.
  - revert s s'.
    induction r as [|p|a IHa b IHb|a IHa b IHb|a IHa|i a IHa];
      cbn [erase]; intros s s' H; auto.
    + inversion H; subst. econstructor; eauto.
    + inversion H; subst; [apply acc_alt_l|apply acc_alt_r]; auto.
    + remember (Star (erase a)) as r eqn:Er.
      induction H; try discriminate; injection Er as ->.
      * constructor.
      * eapply acc_star_more; eauto.
    + constructor. auto.
Qed.

Lemma accepts_cat_onto l tail : forall s s',
  accepts (cat_onto l tail) s s' ->
  exists p s1, s = p ++ s1 /\ accepts tail s1 s'.
Proof.
  induction l as [|r l IH]; intros s s' H; cbn [cat_onto] in H.
  - now exists [], s.
  - inversion H as [| |a b s0 s1 s2 Ha Hb| | | | |]; subst.
    destruct (accepts_suffix Ha) as [p1 ->].
    destruct (IH _ _ Hb) as (p2 & s3 & -> & Ht).
    exists (p1 ++ p2), s3. split; [now rewrite app_assoc|exact Ht].
Qed.

Lemma match_at_accepts r pre s m :
  match_at r pre s = Some m -> exists s', accepts r s s'.
Proof.
  unfold match_at. intros H.
  destruct (run_sound _ _ _ _ H) as (s' & c' & Ha & _). now exists s'.
Qed.

Lemma accepts_match_at r pre s s' :
  accepts r s s' -> match_at r pre s <> None.
Proof.
  intros H. unfold match_at. apply succeeds_run.
  eapply accepts_succeeds; eauto. intros; discriminate.
Qed.

(** The search finds a match exactly when some suffix of the text starts
    with one. *)
Lemma search_found r : forall s pre m,
  search r pre s = Some m -> exists p u u', s = p ++ u /\ accepts r u u'.
Proof.
  induction s as [|x s IH]; intros pre m H; cbn [search] in H.
  - destruct (match_at r pre []) eqn:E; [|discriminate].
    destruct (match_at_accepts _ _ _ E) as [u' Hu]. now exists [], [], u'.
  - destruct (match_at r pre (x :: s)) eqn:E.
    + destruct (match_at_accepts _ _ _ E) as [u' Hu].
      now exists [], (x :: s), u'.
    + destruct (IH _ _ H) as (p & u & u' & -> & Hu).
      now exists (x :: p), u, u'.
Qed.

Lemma search_finds r : forall p pre u u',
  accepts r u u' -> search r pre (p ++ u) <> None.
Proof.
  induction p as [|x p IH]; intros pre u u' H.
  - cbn [app]. pose proof (accepts_match_at pre H) as Hm.
    destruct u; cbn [search]; destruct (match_at r pre _); congruence.
  - cbn [app search].
    destruct (match_at r pre (x :: p ++ u)); [discriminate|].
    eapply IH; eauto.
Qed.

End MatcherProofs.

(* ================================================================== *)
(** ** Properties of the text normalizer *)

Module NormalizerProofs.

Import Regex JsDate WhatsAppParser Vocabulary.

Lemma remove_keeps (P : N -> Prop) cls s :
  Forall P s -> Forall P (remove cls s).
Proof.
  unfold remove. induction 1 as [|c s Hc Hs IH]; simpl; auto.
  destruct (cls c); simpl; auto.
Qed.

Lemma remove_clears cls s : Forall (fun c => cls c = false) (remove cls s).
Proof.
  unfold remove. induction s as [|c s IH]; simpl; auto.
  destruct (cls c) eqn:E; simpl; auto.
Qed.

Lemma remove_fixed cls s :
  Forall (fun c => cls c = false) s -> remove cls s = s.
Proof.
  unfold remove. induction 1 as [|c s Hc Hs IH]; simpl; auto.
  rewrite Hc. simpl. now rewrite IH.
Qed.

Lemma to_space_fixed cls s :
  Forall (fun c => cls c = false) s -> to_space cls s = s.
Proof.
  unfold to_space. induction 1 as [|c s Hc Hs IH]; simpl; auto.
  rewrite Hc. now rewrite IH.
Qed.

Lemma to_space_clears s :
  Forall (fun c => invisible c = false) s ->
  Forall (fun c => invisible c = false /\ special_space c = false)
         (to_space special_space s).
Proof.
  unfold to_space. induction 1 as [|c s Hc Hs IH]; simpl; constructor; auto.
  destruct (special_space c) eqn:E; auto.
Qed.

Lemma pipeline_untouched t :
  Forall (fun c => untouched c = true)
    (remove is_cr
       (remove direction_mark (to_space special_space (remove invisible t)))).
Proof.
  pose proof (to_space_clears (remove_clears invisible t)) as H1.
  pose proof (remove_keeps direction_mark H1) as H2.
  pose proof (remove_clears direction_mark
                (to_space special_space (remove invisible t))) as H3.
  pose proof (remove_keeps is_cr H2) as H4.
  pose proof (remove_keeps is_cr H3) as H5.
  pose proof (remove_clears is_cr
                (remove direction_mark
                   (to_space special_space (remove invisible t)))) as H6.
  rewrite Forall_forall in *. intros c Hc. unfold untouched.
  destruct (H4 c Hc) as [-> ->]. rewrite (H5 c Hc), (H6 c Hc). reflexivity.
Qed.

Lemma untouched_fixed s :
  Forall (fun c => untouched c = true) s ->
  remove is_cr
    (remove direction_mark (to_space special_space (remove invisible s))) = s.
Proof.
  intros H.
  assert (Hall : Forall (fun c => invisible c = false) s
                 /\ Forall (fun c => special_space c = false) s
                 /\ Forall (fun c => direction_mark c = false) s
                 /\ Forall (fun c => is_cr c = false) s).
  { rewrite !Forall_forall in *. unfold untouched in H.
    repeat split; intros c Hc; specialize (H c Hc);
      rewrite !andb_true_iff, !negb_true_iff in H; tauto. }
  destruct Hall as (Hi & Hs & Hd & Hr).
  rewrite (remove_fixed _ Hi), (to_space_fixed _ Hs), (remove_fixed _ Hd).
  apply (remove_fixed _ Hr).
Qed.

Lemma collapse_head d t : exists r, collapse_spaces (d :: t) = d :: r.
Proof.
  revert d. induction t as [|e t IH]; intros d; simpl.
  - now exists [].
  - destruct ((d =? 32)%N && (e =? 32)%N) eqn:E.
    + apply andb_true_iff in E as [Hd He].
      apply N.eqb_eq in Hd, He. subst. apply (IH 32%N).
    + eexists. reflexivity.
Qed.

Lemma collapse_keeps (P : N -> Prop) s :
  Forall P s -> Forall P (collapse_spaces s).
Proof.
  induction 1 as [|c s Hc Hs IH]; simpl; auto.
  destruct s as [|d s']; auto.
  destruct ((c =? 32)%N && (d =? 32)%N); auto.
Qed.

Lemma collapse_no_double s : no_double (collapse_spaces s) = true.
Proof.
  induction s as [|c t IH]; auto.
  destruct t as [|d t']; auto.
  change (collapse_spaces (c :: d :: t')) with
    (if (c =? 32)%N && (d =? 32)%N then collapse_spaces (d :: t')
     else c :: collapse_spaces (d :: t')).
  destruct ((c =? 32)%N && (d =? 32)%N) eqn:E; auto.
  destruct (collapse_head d t') as [r Hr]. rewrite Hr in *.
  simpl. simpl in IH. rewrite E. simpl. exact IH.
Qed.

Lemma collapse_fixed s : no_double s = true -> collapse_spaces s = s.
Proof.
  induction s as [|c t IH]; auto.
  destruct t as [|d t']; auto.
  intros H.
  change (no_double (c :: d :: t')) with
    (negb ((c =? 32)%N && (d =? 32)%N) && no_double (d :: t')) in H.
  apply andb_true_iff in H as [H1 H2]. apply negb_true_iff in H1.
  change (collapse_spaces (c :: d :: t')) with
    (if (c =? 32)%N && (d =? 32)%N then collapse_spaces (d :: t')
     else c :: collapse_spaces (d :: t')).
  rewrite H1. now rewrite (IH H2).
Qed.

Lemma no_double_tail c t : no_double (c :: t) = true -> no_double t = true.
Proof.
  destruct t as [|d t']; auto. simpl.
  intros H. apply andb_true_iff in H. tauto.
Qed.

Lemma trim_start_keeps (P : N -> Prop) s :
  Forall P s -> Forall P (trim_start s).
Proof.
  induction 1 as [|c s Hc Hs IH]; simpl; auto.
  destruct (is_ws c); auto.
Qed.

Lemma trim_start_no_double s :
  no_double s = true -> no_double (trim_start s) = true.
Proof.
  induction s as [|c t IH]; auto.
  intros H. simpl. destruct (is_ws c); auto.
  apply IH. exact (no_double_tail _ _ H).
Qed.

Lemma trim_start_head s c r : trim_start s = c :: r -> is_ws c = false.
Proof.
  induction s as [|x t IH]; simpl; try discriminate.
  destruct (is_ws x) eqn:E; auto.
  intros H. injection H as -> _. exact E.
Qed.

Lemma trim_end_head s c r : trim_end s = c :: r -> exists t, s = c :: t.
Proof.
  destruct s as [|x t]; simpl; try discriminate.
  destruct (trim_end t).
  - destruct (is_ws x); try discriminate.
    intros H. injection H as -> _. now exists t.
  - intros H. injection H as -> _. now exists t.
Qed.

Lemma trim_end_keeps (P : N -> Prop) s :
  Forall P s -> Forall P (trim_end s).
Proof.
  induction 1 as [|c s Hc Hs IH]; simpl; auto.
  destruct (trim_end s); auto.
  destruct (is_ws c); auto.
Qed.

Lemma trim_end_no_double s :
  no_double s = true -> no_double (trim_end s) = true.
Proof.
  induction s as [|c t IH]; auto.
  intros H. simpl.
  destruct (trim_end t) as [|d r] eqn:E.
  - destruct (is_ws c); auto.
  - destruct (trim_end_head _ E) as [t' ->].
    change (no_double (c :: d :: t')) with
      (negb ((c =? 32)%N && (d =? 32)%N) && no_double (d :: t')) in H.
    apply andb_true_iff in H as [H1 H2].
    change (no_double (c :: d :: r)) with
      (negb ((c =? 32)%N && (d =? 32)%N) && no_double (d :: r)).
    rewrite H1. simpl. exact (IH H2).
Qed.

Lemma trim_end_fixed s : trim_end (trim_end s) = trim_end s.
Proof.
  induction s as [|c t IH]; auto.
  simpl. destruct (trim_end t) as [|d r] eqn:E.
  - destruct (is_ws c) eqn:W; auto. simpl. now rewrite W.
  - change (trim_end (c :: d :: r)) with
      (match trim_end (d :: r) with
       | [] => if is_ws c then [] else [c]
       | t' => c :: t'
       end).
    now rewrite IH.
Qed.

Lemma trim_fixed s : trim (trim s) = trim s.
Proof.
  unfold trim.
  assert (H : trim_start (trim_end (trim_start s)) = trim_end (trim_start s)).
  { destruct (trim_end (trim_start s)) as [|c r] eqn:E; auto.
    destruct (trim_end_head _ E) as [t Ht].
    apply trim_start_head in Ht. simpl. now rewrite Ht. }
  rewrite H. apply trim_end_fixed.
Qed.

Lemma clean_fixed t : clean (clean t) = clean t.
Proof.
  rewrite (RegexProofs.clean_on_lists (clean t)).
  assert (Hu : Forall (fun c => untouched c = true) (clean t)).
  { rewrite RegexProofs.clean_on_lists. unfold trim.
    apply trim_end_keeps, trim_start_keeps, collapse_keeps.
    apply pipeline_untouched. }
  assert (Hd : no_double (clean t) = true).
  { rewrite RegexProofs.clean_on_lists. unfold trim.
    apply trim_end_no_double, trim_start_no_double, collapse_no_double. }
  rewrite (untouched_fixed Hu), (collapse_fixed _ Hd).
  rewrite RegexProofs.clean_on_lists. apply trim_fixed.
Qed.

(** C9.  The normalizer is idempotent: cleaning a cleaned line changes
    nothing, whatever the line (a string or [undefined]).  It is a total
    function, and both the empty string and [undefined] give the empty
    string. *)
Theorem cleanText_idempotent (line : option str) :
  cleanText (Some (cleanText line)) = cleanText line
  /\ cleanText None = [] /\ cleanText (Some []) = [].
Proof.
  split; [|split; reflexivity].
  assert (H : forall y, clean y = y -> cleanText (Some y) = y).
  { intros y Hy. simpl. destruct y; auto. }
  destruct line as [t|]; simpl; auto.
  destruct (is_empty t); auto.
  apply H, clean_fixed.
Qed.

End NormalizerProofs.

(* ================================================================== *)
(** ** Properties of the boundary scanner *)

Module ScannerProofs.

Import Regex JsDate WhatsAppParser Vocabulary.

Lemma finalizeMessage_id m mediaFiles :
  id (finalizeMessage m mediaFiles) = id m.
Proof.
  unfold finalizeMessage, finalize_attachment, finalize_pdf_attachment,
    finalize_document_omitted, finalize_call, finalize_missed_call.
  break_match; reflexivity.
Qed.

Lemma numbered_push mediaFiles st :
  numbered st ->
  map id (push_current mediaFiles st)
  = seq 0 (length (push_current mediaFiles st)).
Proof.
  intros [Hm Hc]. unfold push_current.
  destruct (currentMessage st) as [cm|]; auto.
  rewrite map_app, length_app, Nat.add_1_r, seq_S, Hm. simpl.
  now rewrite finalizeMessage_id, (Hc cm eq_refl).
Qed.

Section Steps.

Variable clock : nat -> Z.
Variable fmt : export_format.
Variable mediaFiles : JsMap.t payload.

Lemma header_step_numbered i m next st :
  numbered st -> numbered (header_step clock fmt mediaFiles i m next st).
Proof.
  intros H. unfold header_step.
  destruct (isQuotedMessage _ st).
  - destruct (currentMessage st) as [cm|] eqn:E; auto.
    destruct H as [Hm Hc]. split; simpl; auto.
    intros cm' Hcm'. injection Hcm' as <-. simpl. now apply Hc.
  - destruct (_ && _ && _); (split; simpl;
      [now apply numbered_push | intros cm' Hcm'; now injection Hcm' as <-]).
Qed.

Lemma continuation_step_numbered line cm st :
  numbered st -> currentMessage st = Some cm ->
  numbered (continuation_step line cm st).
Proof.
  intros [Hm Hc] E. split; simpl; auto.
  intros cm' Hcm'. injection Hcm' as <-.
  destruct (_ && _); simpl; now apply Hc.
Qed.

Lemma orphan_step_numbered i line st :
  numbered st -> numbered (orphan_step clock fmt mediaFiles i line st).
Proof.
  intros H. unfold orphan_step.
  destruct (exec (sysPattern fmt) line); auto.
  split; simpl; [now apply numbered_push|].
  intros cm' Hcm'. now injection Hcm' as <-.
Qed.

Lemma step_numbered i raw next st :
  numbered st -> numbered (step clock fmt mediaFiles i raw next st).
Proof.
  intros H. unfold step.
  destruct (is_empty _); auto.
  destruct (exec (messagePattern fmt) _).
  - now apply header_step_numbered.
  - destruct (currentMessage st) eqn:E.
    + now apply continuation_step_numbered.
    + now apply orphan_step_numbered.
Qed.

Lemma scan_numbered rawLines : forall i st,
  numbered st -> numbered (scan clock fmt mediaFiles i rawLines st).
Proof.
  induction rawLines as [|raw rest IH]; intros i st H; simpl; auto.
  apply IH, step_numbered, H.
Qed.

End Steps.

Lemma initial_numbered : numbered initial.
Proof. split; simpl; auto. discriminate. Qed.

Lemma scanned_dense clock content mediaFiles :
  map id (st_messages (scanned clock content mediaFiles))
  = seq 0 (length (st_messages (scanned clock content mediaFiles))).
Proof.
  unfold scanned. simpl.
  apply numbered_push, scan_numbered, initial_numbered.
Qed.

Lemma dense_nth (l : list message) k :
  map id l = seq k (length l) ->
  forall i m, nth_error l i = Some m -> id m = k + i.
Proof.
  revert k. induction l as [|x l IH]; intros k H i m Hi.
  - destruct i; discriminate.
  - simpl in H. injection H as Hx Hl.
    destruct i as [|i]; simpl in Hi.
    + injection Hi as <-. lia.
    + rewrite (IH _ Hl _ _ Hi). lia.
Qed.

Lemma ids_from_weaken l : forall k k',
  k <= k' -> ids_from k' l -> ids_from k l.
Proof.
  destruct l as [|m l]; simpl; auto.
  intros k k' Hk [H1 H2]. split; auto. lia.
Qed.

Lemma filter_ids_from (f : message -> bool) l : forall k,
  map id l = seq k (length l) -> ids_from k (filter f l).
Proof.
  induction l as [|m l IH]; intros k H; simpl; auto.
  simpl in H. injection H as Hm Hl.
  destruct (f m); simpl.
  - split; [lia|]. rewrite Hm. now apply IH.
  - apply ids_from_weaken with (S k); auto.
Qed.

Lemma ids_from_bound l : forall k i m,
  ids_from k l -> nth_error l i = Some m -> k + i <= id m.
Proof.
  induction l as [|x l IH]; intros k i m H Hi.
  - destruct i; discriminate.
  - destruct H as [H1 H2]. destruct i as [|i]; simpl in Hi.
    + injection Hi as <-. lia.
    + assert (S (id x) + i <= id m) by (eapply IH; eauto). lia.
Qed.

Lemma ids_from_step l : forall k i a b,
  ids_from k l -> nth_error l i = Some a -> nth_error l (S i) = Some b ->
  id a < id b.
Proof.
  induction l as [|x l IH]; intros k i a b H Ha Hb.
  - destruct i; discriminate.
  - destruct H as [H1 H2]. destruct i as [|i]; simpl in Ha, Hb.
    + injection Ha as <-.
      assert (S (id x) + 0 <= id b) by (eapply ids_from_bound; eauto). lia.
    + eapply IH; eauto.
Qed.

(** C1, as the code has it.  When the loop of [parse] is over, message
    [i] of the scanner's sequence has identifier [i].  The cleanup filter
    then drops messages without renumbering the others: in the returned
    sequence the identifiers still go up strictly, and the identifier of
    message [i] is at least [i]. *)
Theorem parse_ids_ascending clock locale content mediaFiles :
  let scannedMessages := st_messages (scanned clock content mediaFiles) in
  let returned := messages (parse clock locale content mediaFiles) in
  (forall i m, nth_error scannedMessages i = Some m -> id m = i)
  /\ returned = cleanupMessages scannedMessages
  /\ (forall i m, nth_error returned i = Some m -> i <= id m)
  /\ (forall i a b,
        nth_error returned i = Some a -> nth_error returned (S i) = Some b ->
        id a < id b).
Proof.
  intros scannedMessages returned.
  pose proof (scanned_dense clock content mediaFiles) as Hd.
  fold scannedMessages in Hd.
  assert (Hf : ids_from 0 returned).
  { unfold returned, parse. simpl. unfold cleanupMessages.
    now apply filter_ids_from. }
  split; [|split; [reflexivity|split]].
  - intros i m Hi. assert (id m = 0 + i) by (eapply dense_nth; eauto). lia.
  - intros i m Hi. assert (0 + i <= id m) by (eapply ids_from_bound; eauto).
    lia.
  - intros i a b Ha Hb. eapply ids_from_step; eauto.
Qed.

(** The theorem at work on an empty message followed by a later one: the
    scanner numbers the two messages 0 and 1, and the one message returned
    has an identifier not below its position. *)
Lemma parse_ids_ascending_witness :
  exists a b c,
    nth_error (st_messages (scanned still_clock empty_then_text_input [])) 0
    = Some a
    /\ nth_error (st_messages (scanned still_clock empty_then_text_input [])) 1
       = Some b
    /\ nth_error (messages (parse still_clock mute_locale
                              empty_then_text_input [])) 0 = Some c
    /\ id a = 0 /\ id b = 1 /\ 0 <= id c.
Proof.
  pose proof (parse_ids_ascending still_clock mute_locale
                empty_then_text_input []) as (H1 & _ & H3 & _).
  eexists _, _, _.
  split; [vm_compute; reflexivity|].
  split; [vm_compute; reflexivity|].
  split; [vm_compute; reflexivity|].
  split; [apply H1; vm_compute; reflexivity|].
  split; [apply H1; vm_compute; reflexivity|].
  apply H3; vm_compute; reflexivity.
Defined.

(** C1 fails as stated: Alice's empty message takes identifier 0 and is
    discarded by the cleanup, so the only message returned, Bob's, is at
    position 0 with identifier 1. *)
Lemma parse_ids_not_dense :
  let returned :=
    messages (parse still_clock mute_locale empty_then_text_input []) in
  map id returned = [1]
  /\ ~ (forall i m, nth_error returned i = Some m -> id m = i).
Proof.
  assert (E : map id (messages (parse still_clock mute_locale
                                  empty_then_text_input [])) = [1])
    by (vm_compute; reflexivity).
  split; [exact E|].
  intros H.
  destruct (messages (parse still_clock mute_locale empty_then_text_input []))
    as [|m l]; [discriminate|].
  injection E as E _. specialize (H 0 m eq_refl). congruence.
Qed.

End ScannerProofs.

(* ================================================================== *)
(** ** Properties of the message classifier *)

Module ClassifierProofs.

Import Regex JsDate WhatsAppParser Vocabulary.

(** A text with a document line and its marker has, in particular, a
    marker. *)
Lemma pdf_marker_is_marker txt :
  test pdf_attach_rx txt = true -> test attach_rx txt = true.
Proof.
  unfold test, exec. cbn [anchored pdf_attach_rx attach_rx unanchored].
  destruct (search (pattern _) [] txt) as [m|] eqn:E; [intros _|discriminate].
  destruct (MatcherProofs.search_found _ _ _ E) as (p & u & u' & -> & Hu).
  change (accepts (cat_onto pdf_head (attach_tail 3)) u u') in Hu.
  destruct (MatcherProofs.accepts_cat_onto _ _ Hu) as (p2 & s1 & -> & Ht).
  apply MatcherProofs.accepts_erase in Ht.
  change (erase (attach_tail 3)) with (erase (attach_tail 1)) in Ht.
  apply MatcherProofs.accepts_erase in Ht.
  pose proof (MatcherProofs.search_finds (p ++ p2) [] Ht) as Hs.
  rewrite <- app_assoc in Hs.
  change (pattern attach_rx) with (attach_tail 1).
  destruct (search (attach_tail 1) [] (p ++ p2 ++ s1)); congruence.
Qed.

Lemma finalizeMessage_marker msg mediaFiles :
  test attach_rx (rawText msg) = true ->
  type (finalizeMessage msg mediaFiles) = T_media.
Proof.
  unfold test, finalizeMessage.
  destruct (exec attach_rx (rawText msg)); [reflexivity|discriminate].
Qed.

(** The classifier never makes a document of a message. *)
Lemma finalizeMessage_not_document msg mediaFiles :
  type msg <> T_document ->
  type (finalizeMessage msg mediaFiles) <> T_document.
Proof.
  intros H. pose proof (pdf_marker_is_marker (rawText msg)) as Hp.
  unfold test in Hp. unfold finalizeMessage.
  destruct (exec attach_rx (rawText msg)); [discriminate|].
  destruct (Regex.test omitted_rx (rawText msg)); [discriminate|].
  destruct (exec pdf_attach_rx (rawText msg));
    [specialize (Hp eq_refl); discriminate|].
  unfold finalize_document_omitted, finalize_call, finalize_missed_call.
  break_match; cbn [type set_text set_type set_isEdited set_isSystem];
    try discriminate; exact H.
Qed.

Section Steps.

Variable clock : nat -> Z.
Variable fmt : export_format.
Variable mediaFiles : JsMap.t payload.

Lemma no_document_push st :
  no_document st ->
  Forall (fun m => type m <> T_document) (push_current mediaFiles st).
Proof.
  intros [Hm Hc]. unfold push_current.
  destruct (currentMessage st) as [cm|]; auto.
  apply Forall_app. split; auto. constructor; auto.
  apply finalizeMessage_not_document, Hc. reflexivity.
Qed.

Lemma step_no_document i raw next st :
  no_document st -> no_document (step clock fmt mediaFiles i raw next st).
Proof.
  intros H. pose proof (no_document_push H) as Hp. destruct H as [Hm Hc].
  assert (Hst : no_document st) by (split; assumption).
  unfold step, header_step, continuation_step, orphan_step.
  destruct (is_empty _); [exact Hst|].
  destruct (exec (messagePattern fmt) _).
  - destruct (isQuotedMessage _ st).
    + destruct (currentMessage st) as [cm|] eqn:E; [|exact Hst].
      split; cbn [st_messages currentMessage]; [exact Hm|].
      intros cm' Hcm'. injection Hcm' as <-.
      change (type cm <> T_document). now apply Hc.
    + destruct (_ && _ && _);
        (split; cbn [st_messages currentMessage]; [exact Hp|];
         intros cm' Hcm'; injection Hcm' as <-; discriminate).
  - destruct (currentMessage st) as [cm|] eqn:E.
    + split; cbn [st_messages currentMessage]; [exact Hm|].
      intros cm' Hcm'. injection Hcm' as <-.
      destruct (_ && _); change (type cm <> T_document); now apply Hc.
    + destruct (exec (sysPattern fmt) _); [|exact Hst].
      split; cbn [st_messages currentMessage]; [exact Hp|].
      intros cm' Hcm'. injection Hcm' as <-. discriminate.
Qed.

Lemma scan_no_document rawLines : forall i st,
  no_document st -> no_document (scan clock fmt mediaFiles i rawLines st).
Proof.
  induction rawLines as [|raw rest IH]; intros i st H; cbn [scan]; auto.
  apply IH, step_no_document, H.
Qed.

End Steps.

Lemma parse_never_document clock locale content mediaFiles :
  Forall (fun m => type m <> T_document)
         (messages (parse clock locale content mediaFiles)).
Proof.
  unfold parse, scanned, cleanupMessages. cbn [messages st_messages].
  rewrite Forall_forall. intros m Hm. apply filter_In in Hm as [Hm _].
  revert m Hm. rewrite <- Forall_forall.
  apply no_document_push, scan_no_document.
  split; [constructor|discriminate].
Qed.

(** C2.  A raw text in which the marker pattern of line 305 matches is
    always classified as media, also when the document pattern of line
    350 matches, which needs a marker: the document branch is not
    reached, and no message that [parse] returns is a document.  So at
    [report.pdf (bullet) 3 pages <attached: 00000012-report.pdf>] the
    message is media, without display name and without page count. *)
Theorem finalizeMessage_pdf_with_marker mediaFiles :
  (forall msg, test attach_rx (rawText msg) = true ->
               type (finalizeMessage msg mediaFiles) = T_media)
  /\ (forall msg, test pdf_attach_rx (rawText msg) = true ->
                  type (finalizeMessage msg mediaFiles) = T_media)
  /\ (forall clock locale content,
        Forall (fun m => type m <> T_document)
               (messages (parse clock locale content mediaFiles)))
  /\ let msg := new_message 0 None (lit "Alice") pdf_attachment_text in
     let done := finalizeMessage msg mediaFiles in
     test pdf_attach_rx (rawText msg) = true
     /\ type done = T_media
     /\ exists info,
          media done = Some info
          /\ filename info = Some (lit "00000012-report.pdf")
          /\ displayName info = None /\ pages info = None.
Proof.
  split; [|split; [|split]].
  - intros msg. apply finalizeMessage_marker.
  - intros msg H. apply finalizeMessage_marker, pdf_marker_is_marker, H.
  - intros. apply parse_never_document.
  - intros msg done. split; [vm_compute; reflexivity|].
    split; [vm_compute; reflexivity|].
    eexists. split; [unfold done, finalizeMessage; reflexivity|].
    repeat split.
Qed.

End ClassifierProofs.

(* ================================================================== *)
(** ** Properties of the format detector *)

Module DetectorProofs.

Import Regex JsDate WhatsAppParser Vocabulary.

Lemma detect_loop_first_classified rawLines :
  detect_loop rawLines = first_classified (normalized_nonempty rawLines).
Proof.
  unfold normalized_nonempty.
  induction rawLines as [|raw rest IH]; auto.
  cbn [detect_loop map filter].
  destruct (is_empty (cleanText (Some raw))); cbn [negb first_classified]; auto.
  now rewrite IH.
Qed.

Lemma first_classified_default lines :
  Forall (fun line => classify_line line = None) lines ->
  first_classified lines = ios.
Proof.
  induction 1 as [|line rest H _ IH]; simpl; auto.
  now rewrite H.
Qed.

(** C6, as the code has it.  The window is the first 20 raw lines; among
    them the lines that are empty once normalized are skipped, and the
    first remaining line that matches a grammar decides.  On a line the
    bracket pattern is tried before the dash pattern, a bracket match is
    split by the seconds pattern, and a window without any match gives the
    default, bracketed with seconds. *)
Theorem detectFormat_window content :
  let window := firstn 20 (lf_lines content) in
  detectFormat content = first_classified (normalized_nonempty window)
  /\ (forall line,
        classify_line line =
        if test bracket_header_rx line
        then Some (if test bracket_seconds_rx line then ios
                   else android_bracket)
        else if test dash_header_rx line then Some android_dash else None)
  /\ (Forall (fun line => classify_line line = None)
             (normalized_nonempty window) ->
      detectFormat content = ios).
Proof.
  intros window.
  assert (E : detectFormat content
              = first_classified (normalized_nonempty window))
    by apply detect_loop_first_classified.
  split; [exact E|split].
  - intros line. unfold classify_line.
    destruct (test bracket_header_rx line); auto.
    destruct (test bracket_seconds_rx line); auto.
  - intros H. rewrite E. now apply first_classified_default.
Qed.

(** The theorem at work: a bracket header without seconds on the third
    line, after an empty line and a line of noise, decides the dialect; a
    window of noise gives the default. *)
Lemma detectFormat_window_witness :
  detectFormat third_line_header_input = android_bracket
  /\ detectFormat noise_input = ios.
Proof.
  split.
  - rewrite (proj1 (detectFormat_window third_line_header_input)).
    vm_compute. reflexivity.
  - apply (proj2 (proj2 (detectFormat_window noise_input))).
    assert (E : normalized_nonempty
                  (firstn 20 (lf_lines noise_input))
                = [lit "noise"; lit "more noise"])
      by (vm_compute; reflexivity).
    rewrite E.
    constructor; [vm_compute; reflexivity|].
    constructor; [vm_compute; reflexivity|]. constructor.
Defined.

(** C6 fails as stated: after twenty empty lines a dash header is the
    first non-empty line, yet it lies outside the window of the code,
    which answers with the default. *)
Lemma detectFormat_skips_late_header :
  detectFormat late_header_input = ios
  /\ detectFormat_spec late_header_input = android_dash.
Proof. split; vm_compute; reflexivity. Qed.

End DetectorProofs.

(* ================================================================== *)
(** ** The tokens of the media resolver

    The two patterns of [findMediaFile] find what the shapes of the
    vocabulary describe: the matcher is followed through each pattern,
    the greedy quantifiers taking whole runs because what follows a run
    cannot start with a code unit of its class. *)

Module TokenProofs.

Import Regex JsDate WhatsAppParser Vocabulary.

(** *** Lists *)

Lemma take_drop p s : take_while p s ++ drop_while p s = s.
Proof.
  induction s as [|x s IH]; [reflexivity|].
  cbn [take_while drop_while]. destruct (p x); [|reflexivity].
  cbn [app]. now rewrite IH.
Qed.

Lemma firstn_prefix (a r : str) :
  firstn (length (a ++ r) - length r) (a ++ r) = a.
Proof.
  rewrite length_app, Nat.add_sub, firstn_app, Nat.sub_diag, firstn_all.
  cbn [firstn]. apply app_nil_r.
Qed.

Lemma firstn_split (a r s : str) :
  s = a ++ r -> firstn (length s - length r) s = a.
Proof. intros ->. apply firstn_prefix. Qed.

Lemma drop_while_skipn p : forall n s,
  n <= length (take_while p s) ->
  drop_while p (skipn n s) = drop_while p s.
Proof.
  induction n as [|n IH]; intros s H; [reflexivity|].
  destruct s as [|x s]; [reflexivity|].
  cbn [take_while] in H. cbn [skipn drop_while].
  destruct (p x); cbn [length] in H; [|lia].
  apply IH. lia.
Qed.

Lemma take_while_empty p s :
  is_empty (take_while p s) = true -> drop_while p s = s.
Proof.
  destruct s as [|x s]; [reflexivity|].
  cbn [take_while drop_while]. destruct (p x); [discriminate|reflexivity].
Qed.

(** *** Quantifiers on a class *)

(** A starred class in front of a continuation that fails on the code
    units of the class takes every code unit of the class it can: the
    shorter iterations are tried afterwards, and fail. *)
Lemma star_loop_class_stop (A : Type) (p : N -> bool)
    (k : str -> captures -> option A) :
  (forall x s c, p x = true -> k (x :: s) c = None) ->
  forall fuel s c, length s <= fuel ->
    star_loop (run (Cls p)) k fuel s c = k (drop_while p s) c.
Proof.
  intros Hk. induction fuel as [|fuel IH]; intros s c Hlen.
  - destruct s; [reflexivity|simpl in Hlen; lia].
  - destruct s as [|x s']; [reflexivity|].
    cbn [star_loop run drop_while]. destruct (p x) eqn:E; [|reflexivity].
    assert (Hlt : (length s' <? length (x :: s')) = true)
      by (apply Nat.ltb_lt; simpl; lia).
    rewrite Hlt, IH by (simpl in Hlen; lia).
    destruct (k (drop_while p s') c); [reflexivity|].
    now apply Hk.
Qed.

Lemma run_rep_class (A : Type) p : forall n s c
    (k : str -> captures -> option A),
  run (rep n (Cls p)) s c k
  = if n <=? length (take_while p s) then k (skipn n s) c else None.
Proof.
  induction n as [|n IH]; intros s c k; [reflexivity|].
  cbn [rep run]. destruct s as [|x s]; [reflexivity|].
  cbn [take_while]. destruct (p x); [|reflexivity].
  rewrite IH. reflexivity.
Qed.

(** What a greedy quantifier on a class does when the continuation
    fails on the class, or never fails. *)
Lemma star_class_settles (A : Type) p (k : str -> captures -> option A) :
  settles p k ->
  forall s c, run (Star (Cls p)) s c k = k (drop_while p s) c.
Proof.
  intros [H|H] s c; cbn [run].
  - now apply star_loop_class_stop.
  - now apply RegexProofs.star_loop_class.
Qed.

Lemma run_at_least (A : Type) p n (k : str -> captures -> option A) s c :
  settles p k ->
  run (at_least n (Cls p)) s c k
  = if n <=? length (take_while p s) then k (drop_while p s) c else None.
Proof.
  intros H. unfold at_least.
  change (run (Cat (rep n (Cls p)) (Star (Cls p))) s c k)
    with (run (rep n (Cls p)) s c
            (fun s' c' => run (Star (Cls p)) s' c' k)).
  rewrite run_rep_class.
  destruct (n <=? length (take_while p s)) eqn:E; [|reflexivity].
  rewrite star_class_settles by exact H.
  apply Nat.leb_le in E. now rewrite drop_while_skipn.
Qed.

Lemma run_plus (A : Type) p (k : str -> captures -> option A) s c :
  settles p k ->
  run (plus (Cls p)) s c k
  = if is_empty (take_while p s) then None else k (drop_while p s) c.
Proof.
  intros H. unfold plus.
  change (run (Cat (Cls p) (Star (Cls p))) s c k)
    with (run (Cls p) s c (fun s' c' => run (Star (Cls p)) s' c' k)).
  destruct s as [|x s]; [reflexivity|].
  cbn [run take_while drop_while]. destruct (p x); [|reflexivity].
  cbn [is_empty]. now apply star_class_settles.
Qed.

(** *** Tags *)

Lemma run_letters (A : Type) : forall l, l <> [] ->
  forall s c (k : str -> captures -> option A),
    run (cat (map chi l)) s c k
    = if starts_with_any_case (map N_of_ascii l) s
      then k (skipn (length l) s) c else None.
Proof.
  induction l as [|a l IH]; intros Hne s c k; [congruence|].
  destruct l as [|b l].
  - cbn [map cat]. unfold chi. cbn [run starts_with_any_case length].
    destruct s as [|y s]; [reflexivity|].
    rewrite andb_true_r. reflexivity.
  - change (cat (map chi (a :: b :: l)))
      with (Cat (chi a) (cat (map chi (b :: l)))).
    unfold chi at 1. cbn [run]. destruct s as [|y s]; [reflexivity|].
    cbn [map starts_with_any_case length skipn].
    destruct (upper_char y =? upper_char (N_of_ascii a))%N; [|reflexivity].
    rewrite IH by discriminate. reflexivity.
Qed.

Lemma run_wordi (A : Type) (w : string) s c
    (k : str -> captures -> option A) :
  w <> EmptyString ->
  run (wordi w) s c k
  = if starts_with_any_case (lit w) s
    then k (skipn (length (lit w)) s) c else None.
Proof.
  intros Hw. unfold wordi, lit. rewrite run_letters.
  - now rewrite length_map.
  - destruct w; [congruence|discriminate].
Qed.

Lemma other_head x1 t1 x2 t2 s :
  upper_char x1 <> upper_char x2 ->
  starts_with_any_case (x1 :: t1) s = true ->
  starts_with_any_case (x2 :: t2) s = false.
Proof.
  intros Hx. destruct s as [|y s]; [discriminate|].
  cbn [starts_with_any_case]. intros H.
  apply andb_true_iff in H as [H _]. apply N.eqb_eq in H.
  assert (E : (upper_char y =? upper_char x2)%N = false)
    by (apply N.eqb_neq; congruence).
  now rewrite E.
Qed.

Ltac other_tag H :=
  match goal with
  | |- starts_with_any_case ?t ?s = false =>
      refine (@other_head _ _ _ _ s _ H);
      intros Hx; vm_compute in Hx; discriminate Hx
  end.

(** The alternatives of the pattern are tried in order; two tags do not
    start alike, so at most one of them leads on. *)
Lemma run_tags (A : Type) s c (k : str -> captures -> option A) :
  run (alt [wordi "PHOTO"; wordi "VIDEO"; wordi "AUDIO"; wordi "DOCUMENT";
            wordi "FILE"]) s c k
  = match leading_tag s with
    | Some tag => k (skipn (length tag) s) c
    | None => None
    end.
Proof.
  change (alt [wordi "PHOTO"; wordi "VIDEO"; wordi "AUDIO";
               wordi "DOCUMENT"; wordi "FILE"])
    with (Alt (wordi "PHOTO")
            (Alt (wordi "VIDEO")
               (Alt (wordi "AUDIO") (Alt (wordi "DOCUMENT") (wordi "FILE"))))).
  cbn [run]. rewrite !run_wordi by discriminate.
  unfold leading_tag, tags. cbn [find].
  destruct (starts_with_any_case (lit "PHOTO") s) eqn:E1.
  { assert (E2 : starts_with_any_case (lit "VIDEO") s = false)
      by other_tag E1.
    assert (E3 : starts_with_any_case (lit "AUDIO") s = false)
      by other_tag E1.
    assert (E4 : starts_with_any_case (lit "DOCUMENT") s = false)
      by other_tag E1.
    assert (E5 : starts_with_any_case (lit "FILE") s = false)
      by other_tag E1.
    rewrite E2, E3, E4, E5. now destruct (k _ c). }
  destruct (starts_with_any_case (lit "VIDEO") s) eqn:E2.
  { assert (E3 : starts_with_any_case (lit "AUDIO") s = false)
      by other_tag E2.
    assert (E4 : starts_with_any_case (lit "DOCUMENT") s = false)
      by other_tag E2.
    assert (E5 : starts_with_any_case (lit "FILE") s = false)
      by other_tag E2.
    rewrite E3, E4, E5. now destruct (k _ c). }
  destruct (starts_with_any_case (lit "AUDIO") s) eqn:E3.
  { assert (E4 : starts_with_any_case (lit "DOCUMENT") s = false)
      by other_tag E3.
    assert (E5 : starts_with_any_case (lit "FILE") s = false)
      by other_tag E3.
    rewrite E4, E5. now destruct (k _ c). }
  destruct (starts_with_any_case (lit "DOCUMENT") s) eqn:E4.
  { assert (E5 : starts_with_any_case (lit "FILE") s = false)
      by other_tag E4.
    rewrite E5. now destruct (k _ c). }
  now destruct (starts_with_any_case (lit "FILE") s).
Qed.

(** *** The leftmost match *)

Lemma search_leftmost r (here : str -> option str) :
  (forall pre s,
     match match_at r pre s, here s with
     | Some m, Some t => group 1 m = Some t
     | None, None => True
     | _, _ => False
     end) ->
  forall s pre,
    match search r pre s with
    | Some m => group 1 m
    | None => None
    end = leftmost here s.
Proof.
  intros H. induction s as [|x s IH]; intros pre.
  - cbn [search leftmost]. specialize (H pre []).
    destruct (match_at r pre []), (here []); try contradiction; auto.
  - cbn [search leftmost]. specialize (H pre (x :: s)).
    destruct (match_at r pre (x :: s)), (here (x :: s));
      try contradiction; auto.
Qed.

(** *** The run of eight digits *)

Lemma match_at_digits pre s :
  match match_at (pattern numeric_rx) pre s, digits_here s with
  | Some m, Some t => group 1 m = Some t
  | None, None => True
  | _, _ => False
  end.
Proof.
  unfold match_at, digits_here. cbn [pattern numeric_rx run].
  unfold digit. rewrite run_at_least by (right; intros; discriminate).
  destruct (8 <=? length (take_while is_digit s)); [|exact I].
  unfold group. cbn [m_caps lookup_group Nat.eqb]. f_equal.
  apply firstn_split. symmetry. apply take_drop.
Qed.

Lemma numeric_token_digit_run filename :
  numeric_token filename = digit_run filename.
Proof.
  unfold numeric_token, digit_run, exec. cbn [anchored numeric_rx].
  apply search_leftmost. apply match_at_digits.
Qed.

(** *** The core token *)

Lemma digit_not_dash x : is_digit x = true -> is_dash x = false.
Proof.
  unfold is_digit, in_range, is_dash. intros H.
  apply andb_true_iff in H as [H1 H2]. apply N.leb_le in H1, H2.
  apply orb_false_iff. split; apply N.eqb_neq; lia.
Qed.

Lemma dash_or_digit_not_dot x :
  is_dash_or_digit x = true -> (46 =? x)%N = false.
Proof.
  unfold is_dash_or_digit, is_digit, in_range. intros H.
  apply N.eqb_neq. intros <-. discriminate H.
Qed.

Lemma match_at_core pre s :
  match match_at (pattern core_rx) pre s, core_here s with
  | Some m, Some t => group 1 m = Some t
  | None, None => True
  | _, _ => False
  end.
Proof.
  unfold match_at.
  change (pattern core_rx)
    with (Cap 1
            (Cat (at_least 5 (Cls is_digit))
               (Cat (Cls is_dash)
                  (Cat (alt [wordi "PHOTO"; wordi "VIDEO"; wordi "AUDIO";
                             wordi "DOCUMENT"; wordi "FILE"])
                     (Cat (plus (Cls is_dash_or_digit))
                        (Cat (chr 46) (plus (Cls is_word)))))))).
  cbn [run]. unfold core_here.
  rewrite run_at_least.
  2:{ left. intros x s0 c0 Hx. cbn [run].
      now rewrite (digit_not_dash _ Hx). }
  pose proof (take_drop is_digit s) as Hs.
  destruct (drop_while is_digit s) as [|sep s1].
  { now destruct (5 <=? _). }
  cbn [run]. rewrite run_tags.
  destruct (leading_tag s1) as [tag|].
  2:{ destruct (5 <=? _); [|exact I]. now destruct (is_dash sep). }
  rewrite run_plus.
  2:{ left. intros x s0 c0 Hx. unfold chr. cbn [run].
      now rewrite (dash_or_digit_not_dot _ Hx). }
  pose proof (take_drop is_dash_or_digit (skipn (length tag) s1)) as Hs2.
  destruct (drop_while is_dash_or_digit (skipn (length tag) s1))
    as [|dot s3].
  { destruct (5 <=? _); [|exact I]. destruct (is_dash sep); [|exact I].
    destruct (is_empty _); [exact I|]. exact I. }
  unfold chr. cbn [run].
  rewrite run_plus by (right; intros; discriminate).
  pose proof (take_drop is_word s3) as Hs3.
  rewrite (N.eqb_sym 46 dot).
  destruct (5 <=? length (take_while is_digit s)); [|exact I].
  destruct (is_dash sep); [|exact I].
  destruct (is_empty (take_while is_dash_or_digit
                        (skipn (length tag) s1))); [exact I|].
  destruct (dot =? 46)%N; [|exact I].
  destruct (is_empty (take_while is_word s3)); [exact I|].
  cbn [andb negb]. unfold group. cbn [m_caps lookup_group Nat.eqb]. f_equal.
  set (id := take_while is_digit s) in *.
  set (tail := take_while is_dash_or_digit (skipn (length tag) s1)) in *.
  set (ext := take_while is_word s3) in *.
  set (rest := drop_while is_word s3) in *.
  assert (E : s = (id ++ sep :: firstn (length tag) s1
                      ++ tail ++ dot :: ext) ++ rest).
  { rewrite <- Hs at 1. rewrite <- (firstn_skipn (length tag) s1) at 1.
    rewrite <- Hs2, <- Hs3.
    rewrite <- !app_assoc. cbn [app]. rewrite <- !app_assoc. cbn [app].
    reflexivity. }
  apply firstn_split. exact E.
Qed.

Lemma core_token_core_part filename :
  core_token filename = core_part filename.
Proof.
  unfold core_token, core_part, exec. cbn [anchored core_rx].
  apply search_leftmost. apply match_at_core.
Qed.

End TokenProofs.

(* ================================================================== *)
(** ** Properties of the media resolver *)

Module ResolverProofs.

Import Regex JsDate WhatsAppParser Vocabulary.

Lemma get_first_value (m : JsMap.t payload) k :
  JsMap.get m k = JsMap.first_value (fun key => str_eqb key k) m.
Proof.
  induction m as [|[k' v] m IH]; simpl; auto.
  destruct (str_eqb k' k); auto.
Qed.

Lemma exact_match_get filename (m : JsMap.t payload) :
  exact_match filename m = JsMap.get m filename.
Proof.
  unfold exact_match, JsMap.has. destruct (JsMap.get m filename); auto.
Qed.

Lemma first_hit_no_entries tests : first_hit tests [] = None.
Proof.
  induction tests as [|[p|] tests IH]; simpl; auto.
Qed.

Lemma cascade_unguarded lower filename (m : JsMap.t payload) :
  match exact_match filename m with
  | Some v => Some v
  | None =>
      match case_insensitive_match_on lower filename m with
      | Some v => Some v
      | None =>
          match core_match filename m with
          | Some v => Some v
          | None => numeric_match filename m
          end
      end
  end = first_hit (strategies lower filename) m.
Proof.
  unfold strategies, first_hit.
  rewrite exact_match_get, get_first_value.
  destruct (JsMap.first_value _ m); auto.
  unfold case_insensitive_match_on.
  destruct (JsMap.first_value _ m); auto.
  unfold core_match, core_hit, numeric_match, numeric_hit.
  rewrite TokenProofs.core_token_core_part,
    TokenProofs.numeric_token_digit_run.
  destruct (core_part filename); simpl.
  - destruct (JsMap.first_value _ m); auto.
    destruct (digit_run filename); simpl; auto.
    destruct (JsMap.first_value _ m); auto.
  - destruct (digit_run filename); simpl; auto.
    destruct (JsMap.first_value _ m); auto.
Qed.

(** The resolver of the parser is the resolver at the lower-casing of
    the ASCII letters. *)
Lemma findMediaFile_ascii filename mediaFiles :
  findMediaFile filename mediaFiles
  = findMediaFile_on toLowerCase filename mediaFiles.
Proof. reflexivity. Qed.

(** C5, as the code has it.  For a file name that is not empty the
    resolver is the cascade of four strategies, in order, the first
    success giving the payload: the key equal to the file name; the
    first key equal to it once both are lower-cased, by whatever
    lower-casing the host has; when the file name has a core token (five
    digits or more, a dash or an underscore, one of the five tags in any
    letter case, one or more dashes, underscores or digits, a dot, one
    or more word characters: the leftmost one, every run whole), the
    first key that contains the token or is contained in it; when the
    file name has a run of eight digits or more, the first key that
    contains the first such run.  An empty file name is answered with
    "not found".  A message with an attachment marker is classified as
    media with whatever the resolver found, it passes the cleanup, and
    when nothing was found its descriptor has no payload and [hasData]
    false. *)
Theorem findMediaFile_cascade lower filename mediaFiles :
  (filename <> [] ->
   findMediaFile_on lower filename mediaFiles
   = first_hit (strategies lower filename) mediaFiles)
  /\ findMediaFile_on lower [] mediaFiles = None
  /\ (forall msg attachMatch,
        exec attach_rx (rawText msg) = Some attachMatch ->
        let found :=
          findMediaFile (attachment_filename attachMatch) mediaFiles in
        let done := finalizeMessage msg mediaFiles in
        type done = T_media /\ keep_message done = true
        /\ exists info, media done = Some info /\ data info = found
                        /\ (found = None -> hasData info = false)).
Proof.
  split; [|split].
  - intros Hne. unfold findMediaFile_on.
    destruct filename as [|c filename]; [congruence|].
    unfold JsMap.size. cbn [is_empty orb].
    destruct mediaFiles as [|e m]; cbn [length Nat.eqb].
    + symmetry. apply first_hit_no_entries.
    + apply cascade_unguarded.
  - reflexivity.
  - intros msg attachMatch H found done. unfold done, finalizeMessage.
    rewrite H. unfold finalize_attachment. simpl.
    repeat split. eexists. repeat split. fold found.
    intros ->. reflexivity.
Qed.

(** The theorem at work, one file name for each strategy: a key equal
    to the name although an earlier key differs by its case only; a key
    that differs by its case; a key that contains the core token; a key
    that contains the run of digits; no key at all.  And a marker whose
    file is not in the table gives a media message without payload. *)
Lemma findMediaFile_cascade_witness :
  findMediaFile_on toLowerCase (lit "IMG-001.jpg")
    [(lit "img-001.JPG", lit "data:a"); (lit "IMG-001.jpg", lit "data:b")]
  = Some (lit "data:b")
  /\ findMediaFile_on toLowerCase (lit "IMG-001.jpg")
       [(lit "img-001.JPG", lit "data:a")]
     = Some (lit "data:a")
  /\ findMediaFile_on toLowerCase (lit "00000012-PHOTO-2024-01-02.jpg")
       [(lit "notes.pdf", lit "data:a");
        (lit "WA-00000012-PHOTO-2024-01-02.jpg.jpg", lit "data:b")]
     = Some (lit "data:b")
  /\ findMediaFile_on toLowerCase (lit "IMG-20240102-WA0001.jpg")
       [(lit "notes.pdf", lit "data:a");
        (lit "VID-20240102.mp4", lit "data:b")]
     = Some (lit "data:b")
  /\ findMediaFile_on toLowerCase (lit "IMG-001.jpg")
       [(lit "notes.pdf", lit "data:a")]
     = None
  /\ let done :=
       finalizeMessage
         (new_message 0 None (lit "Alice") (lit "<attached: IMG-001.jpg>"))
         [] in
     type done = T_media /\ keep_message done = true
     /\ exists info, media done = Some info /\ data info = None
                     /\ hasData info = false.
Proof.
  repeat match goal with
         | |- findMediaFile_on _ ?f ?m = _ /\ _ =>
             split;
             [rewrite (proj1 (findMediaFile_cascade toLowerCase f m))
                by discriminate;
              vm_compute; reflexivity|]
         end.
  destruct (exec attach_rx (lit "<attached: IMG-001.jpg>"))
    as [attachMatch|] eqn:E; [|discriminate].
  destruct (proj2 (proj2 (findMediaFile_cascade toLowerCase [] []))
              (new_message 0 None (lit "Alice")
                 (lit "<attached: IMG-001.jpg>"))
              attachMatch E)
    as (Ht & Hk & info & Hm & Hd & Hh).
  split; [exact Ht|]. split; [exact Hk|].
  exists info. split; [exact Hm|].
  assert (Hnone : findMediaFile (attachment_filename attachMatch) [] = None)
    by (unfold findMediaFile, JsMap.size; cbn [length Nat.eqb];
        now rewrite orb_true_r).
  split; [now rewrite Hd|exact (Hh Hnone)].
Defined.

(** C5 fails as stated, on tables the application can build.  The file
    name [00000012-PHOTO-2024.jpg] has a core token and a run of eight
    digits, the only key [4.jpg] contains neither and differs from the
    name in every letter case, so none of the four strategies of the
    claim finds it; the resolver returns its payload, because the core
    token contains the key.  The file name [12345-PHOTO.jpg] has five
    digits followed by a tag and the key [WA-12345-PHOTO.jpg] contains
    them, so the third strategy of the claim finds it; the resolver
    finds nothing, because nothing but the dot follows the tag. *)
Lemma findMediaFile_core_token_differs :
  (App.isMediaFile (lit "4.jpg") = true
   /\ first_hit (strategies_claimed toLowerCase
                   (lit "00000012-PHOTO-2024.jpg"))
                [(lit "4.jpg", lit "data:x")] = None
   /\ findMediaFile (lit "00000012-PHOTO-2024.jpg")
        [(lit "4.jpg", lit "data:x")] = Some (lit "data:x"))
  /\ (App.isMediaFile (lit "WA-12345-PHOTO.jpg") = true
      /\ first_hit (strategies_claimed toLowerCase (lit "12345-PHOTO.jpg"))
                   [(lit "WA-12345-PHOTO.jpg", lit "data:x")]
         = Some (lit "data:x")
      /\ findMediaFile (lit "12345-PHOTO.jpg")
           [(lit "WA-12345-PHOTO.jpg", lit "data:x")] = None).
Proof. repeat split; vm_compute; reflexivity. Qed.

End ResolverProofs.

(* ================================================================== *)
(** ** Properties of the date and time resolver *)

Module DateProofs.

Import Regex JsDate WhatsAppParser Vocabulary.

Local Open Scope Z_scope.

Lemma parseDateTime_three_fields now dateStr timeStr fmt a b c :
  dateParts (cleanText dateStr) = [a; b; c] ->
  parseDateTime now dateStr timeStr fmt =
  let '(year, month, day) := date_fields a b c in
  match time_fields (cleanText timeStr) with
  | None => new_Date3 year (num_sub month (Some 1)) day
  | Some (hours, minutes, seconds) =>
      new_Date year (num_sub month (Some 1)) day hours minutes seconds
  end.
Proof.
  intros H. unfold parseDateTime. rewrite H. reflexivity.
Qed.

Lemma date_fields_integers f s y :
  date_fields (Some f) (Some s) (Some y) =
  (Some (if y <? 100 then if y <? 50 then y + 2000 else y + 1900 else y),
   Some (if 12 <? f then s else f),
   Some (if 12 <? f then f else s)).
Proof.
  unfold date_fields, num_gt, num_lt, num_add.
  destruct (y <? 100), (y <? 50), (12 <? f), (12 <? s); reflexivity.
Qed.

Lemma time_fields_none t : test time_rx t = false -> time_fields t = None.
Proof.
  unfold test, time_fields. destruct (exec time_rx t); auto. discriminate.
Qed.

(** C7.  When the date token splits into three integers [f], [s], [y],
    the instant is built from a year, a month and a day such that: a year
    from 50 to 99 becomes 19xx, a year below 50 becomes 20xx, a longer
    year is kept; a first field above 12 is the day (the second the
    month); otherwise a second field above 12 is the day; otherwise the
    first field is the month and the second the day. *)
Theorem parseDateTime_field_order now dateStr timeStr fmt f s y :
  dateParts (cleanText dateStr) = [Some f; Some s; Some y] ->
  exists Y M D : Z,
    date_fields (Some f) (Some s) (Some y) = (Some Y, Some M, Some D)
    /\ parseDateTime now dateStr timeStr fmt =
       match time_fields (cleanText timeStr) with
       | None => new_Date3 (Some Y) (Some (M - 1)) (Some D)
       | Some (hours, minutes, seconds) =>
           new_Date (Some Y) (Some (M - 1)) (Some D) hours minutes seconds
       end
    /\ (50 <= y < 100 -> Y = 1900 + y)
    /\ (0 <= y < 50 -> Y = 2000 + y)
    /\ (100 <= y -> Y = y)
    /\ (12 < f -> D = f /\ M = s)
    /\ (f <= 12 -> 12 < s -> D = s /\ M = f)
    /\ (f <= 12 -> s <= 12 -> M = f /\ D = s).
Proof.
  intros H.
  pose proof (parseDateTime_three_fields now dateStr timeStr fmt H) as E.
  rewrite date_fields_integers in E.
  eexists _, _, _. split; [apply date_fields_integers|].
  split; [exact E|].
  destruct (Z.ltb_spec y 100), (Z.ltb_spec y 50), (Z.ltb_spec 12 f);
    repeat split; lia.
Qed.

(** The theorem at work on [31/12/99, 11:30 PM]: day first, year 1999. *)
Lemma parseDateTime_field_order_witness :
  dateParts (cleanText (Some (lit "31/12/99")))
  = [Some 31; Some 12; Some 99]
  /\ parseDateTime 0 (Some (lit "31/12/99")) (Some (lit "11:30 PM")) ios
     = new_Date (Some 1999) (Some 11) (Some 31) (Some 23) (Some 30) (Some 0).
Proof.
  split; [reflexivity|].
  destruct (@parseDateTime_field_order 0 (Some (lit "31/12/99"))
              (Some (lit "11:30 PM")) ios 31 12 99 eq_refl)
    as (Y & M & D & _ & E & Hy & _ & _ & Hd & _ & _).
  rewrite E.
  assert (HY : Y = 1999) by lia.
  assert (HD : D = 31 /\ M = 12) by (apply Hd; lia).
  destruct HD as [-> ->]. rewrite HY. reflexivity.
Defined.

(** C3, as the code has it.  A date token that does not split into
    exactly three fields makes the resolver return the current instant.
    A time token that does not match, next to a date of three integers,
    does not: the resolver returns the start of the resolved day. *)
Theorem parseDateTime_fallbacks now dateStr timeStr fmt :
  (length (dateParts (cleanText dateStr)) <> 3%nat ->
   parseDateTime now dateStr timeStr fmt = Some now)
  /\ (forall f s y,
        dateParts (cleanText dateStr) = [Some f; Some s; Some y] ->
        test time_rx (cleanText timeStr) = false ->
        exists Y M D : Z,
          date_fields (Some f) (Some s) (Some y) = (Some Y, Some M, Some D)
          /\ parseDateTime now dateStr timeStr fmt
             = new_Date (Some Y) (Some (M - 1)) (Some D)
                        (Some 0) (Some 0) (Some 0)).
Proof.
  split.
  - intros H. unfold parseDateTime.
    destruct (dateParts (cleanText dateStr)) as [|a [|b [|c [|d l]]]];
      auto. now elim H.
  - intros f s y H Ht.
    pose proof (parseDateTime_three_fields now dateStr timeStr fmt H) as E.
    rewrite date_fields_integers, (time_fields_none _ Ht) in E.
    eexists _, _, _. split; [apply date_fields_integers|exact E].
Qed.

(** The theorem at work: a date of two fields gives the clock's reading
    (here 7); the date [1/2/24] next to the time token [xx] gives midnight
    of 2 January 2024. *)
Lemma parseDateTime_fallbacks_witness :
  parseDateTime 7 (Some (lit "1/2")) (Some (lit "10:00")) ios = Some 7
  /\ parseDateTime 7 (Some (lit "1/2/24")) (Some (lit "xx")) ios
     = Some 1704153600000.
Proof.
  split.
  - apply (proj1 (parseDateTime_fallbacks 7 (Some (lit "1/2"))
                    (Some (lit "10:00")) ios)).
    vm_compute. discriminate.
  - destruct (proj2 (parseDateTime_fallbacks 7 (Some (lit "1/2/24"))
                       (Some (lit "xx")) ios) 1 2 24 eq_refl eq_refl)
      as (Y & M & D & Hf & E).
    rewrite E. vm_compute in Hf. injection Hf as <- <- <-. reflexivity.
Defined.

(** C3 fails as stated: with a time token that does not match, the
    resolver does not return the current instant (here 0) but midnight of
    2 January 2024. *)
Lemma parseDateTime_bad_time_not_now :
  test time_rx (cleanText (Some (lit "xx"))) = false
  /\ parseDateTime 0 (Some (lit "1/2/24")) (Some (lit "xx")) ios
     = Some 1704153600000
  /\ parseDateTime 0 (Some (lit "1/2/24")) (Some (lit "xx")) ios <> Some 0.
Proof.
  split; [reflexivity|]. split; [reflexivity|]. discriminate.
Qed.

(** Three fields that are not numbers pass the length test, and the
    result is the invalid date. *)
Example parseDateTime_fields_not_numbers :
  parseDateTime 0 (Some (lit "a/b/c")) (Some (lit "10:00")) ios = None.
Proof. reflexivity. Qed.

End DateProofs.

(* ================================================================== *)
(** ** Properties of [parse] as a whole *)

Module ParseProofs.

Import Regex JsDate WhatsAppParser Vocabulary.

Section Unrecognized.

Variable clock : nat -> Z.
Variable fmt : export_format.
Variable mediaFiles : JsMap.t payload.

Lemma step_unrecognized i raw next :
  unrecognized fmt raw = true ->
  step clock fmt mediaFiles i raw next initial = initial.
Proof.
  unfold unrecognized, step, test, orphan_step.
  destruct (is_empty (cleanText (Some raw))); auto.
  destruct (exec (messagePattern fmt) _); [discriminate|].
  destruct (exec (sysPattern fmt) _); [discriminate|]. reflexivity.
Qed.

Lemma scan_unrecognized rawLines : forall i,
  Forall (fun raw => unrecognized fmt raw = true) rawLines ->
  scan clock fmt mediaFiles i rawLines initial = initial.
Proof.
  induction rawLines as [|raw rest IH]; intros i H; auto.
  inversion H as [|? ? Hraw Hrest]; subst. simpl.
  rewrite step_unrecognized by exact Hraw. now apply IH.
Qed.

End Unrecognized.

(** C8, as the code has it.  [parse] has no failure to report: on the
    empty input, and on any input none of whose lines is recognised, it
    returns the result without messages and without participants, whose
    date range is the placeholder. *)
Theorem parse_nothing_recognized clock locale content mediaFiles :
  parse clock locale [] mediaFiles = empty_chat ios
  /\ (Forall (fun raw => unrecognized (detectFormat content) raw = true)
             (raw_lines content) ->
      parse clock locale content mediaFiles
      = empty_chat (detectFormat content)).
Proof.
  split; [reflexivity|].
  intros H. unfold parse, scanned.
  rewrite scan_unrecognized by exact H. reflexivity.
Qed.

(** The theorem at work on the input [hello]. *)
Lemma parse_nothing_recognized_witness :
  parse still_clock mute_locale (lit "hello") [] = empty_chat ios.
Proof.
  apply (proj2 (parse_nothing_recognized still_clock mute_locale
                  (lit "hello") [])).
  assert (E : raw_lines (lit "hello") = [lit "hello"])
    by (vm_compute; reflexivity).
  rewrite E. constructor; [vm_compute; reflexivity|]. constructor.
Defined.

(** C8 fails as stated: the input [hello] is not empty and none of its
    lines is recognised, and [parse] returns the empty result for it. *)
Lemma parse_unsupported_input_returns :
  lit "hello" <> []
  /\ forallb (unrecognized (detectFormat (lit "hello")))
             (raw_lines (lit "hello")) = true
  /\ parse still_clock mute_locale (lit "hello") [] = empty_chat ios.
Proof.
  split; [discriminate|]. split; vm_compute; reflexivity.
Qed.

Lemma header_not_empty fmt : exec (messagePattern fmt) [] = None.
Proof. destruct fmt; vm_compute; reflexivity. Qed.

(** A message without raw text gets the empty text and keeps its type. *)
Lemma finalizeMessage_no_text msg mediaFiles :
  rawText msg = [] -> finalizeMessage msg mediaFiles = set_text [] msg.
Proof.
  intros H. unfold finalizeMessage. rewrite H.
  assert (E1 : exec attach_rx [] = None) by (vm_compute; reflexivity).
  assert (E2 : test omitted_rx [] = false) by (vm_compute; reflexivity).
  assert (E3 : exec pdf_attach_rx [] = None) by (vm_compute; reflexivity).
  assert (E4 : exec doc_rx [] = None) by (vm_compute; reflexivity).
  assert (E5 : test bullet_omitted_rx [] = false)
    by (vm_compute; reflexivity).
  assert (E6 : test call_rx [] = false) by (vm_compute; reflexivity).
  assert (E7 : test missed_rx [] = false) by (vm_compute; reflexivity).
  assert (E8 : test deleted_rx [] = false) by (vm_compute; reflexivity).
  assert (E9 : test encrypted_rx [] = false) by (vm_compute; reflexivity).
  assert (E10 : test group_event_rx [] = false)
    by (vm_compute; reflexivity).
  assert (E11 : test edited_rx [] = false) by (vm_compute; reflexivity).
  rewrite E1, E2, E3, E4, E5, E6, E7, E8, E9, E10, E11.
  reflexivity.
Qed.

(** C4.  Two raw lines, both headers of the detected dialect, the first
    with no text after the colon, the second with a timestamp strictly
    earlier than the first: [parse] returns exactly one message, that of
    the first header, with [hasQuote] set and with the second header as
    its [quotedMessage] (timestamp, sender and text); this for every
    sender, text, date and dialect, every host and every media table. *)
Theorem parse_quote_merge clock locale mediaFiles content
    raw1 raw2 header1 header2 t1 t2 :
  raw_lines content = [raw1; raw2] ->
  exec (messagePattern (detectFormat content)) (cleanText (Some raw1))
  = Some header1 ->
  exec (messagePattern (detectFormat content)) (cleanText (Some raw2))
  = Some header2 ->
  trim (grp 4 header1) = [] ->
  parseDateTime (clock 0) (group 1 header1) (group 2 header1)
                (detectFormat content) = Some t1 ->
  parseDateTime (clock 2) (group 1 header2) (group 2 header2)
                (detectFormat content) = Some t2 ->
  (t2 < t1)%Z ->
  messages (parse clock locale content mediaFiles)
  = [ {| id := 0; timestamp := Some t1;
         sender := cleanSenderName (group 3 header1);
         rawText := []; text := []; type := T_text; media := None;
         isSystem := false; hasQuote := true;
         quotedMessage :=
           Some {| q_timestamp := Some t2;
                   q_sender := cleanSenderName (group 3 header2);
                   q_text := grp 4 header2 |};
         isEdited := false |} ].
Proof.
  intros Hlines H1 H2 Hblank Ht1 Ht2 Hlt.
  unfold parse, scanned. cbn [messages st_messages].
  set (fmt := detectFormat content) in *.
  rewrite Hlines. cbn [scan hd_error].
  (* the first header opens a message *)
  assert (S1 : step clock fmt mediaFiles 0 raw1 (Some raw2) initial
               = {| st_messages := [];
                    st_participants :=
                      track_participant (cleanSenderName (group 3 header1))
                                        [];
                    currentMessage :=
                      Some (new_message 0 (Some t1)
                              (cleanSenderName (group 3 header1))
                              (grp 4 header1));
                    lastTimestamp := Some (Some t1) |}).
  { unfold step. destruct (cleanText (Some raw1)) as [|c line] eqn:E.
    - rewrite header_not_empty in H1. discriminate H1.
    - cbn [is_empty]. rewrite H1. unfold header_step.
      change (2 * 0) with 0. rewrite Ht1.
      cbn [isQuotedMessage lastTimestamp initial currentMessage].
      rewrite andb_false_r. cbn [andb push_current currentMessage initial
                                 st_messages st_participants length].
      reflexivity. }
  rewrite S1.
  (* the second header is merged into it *)
  assert (S2 : forall next st,
             st = {| st_messages := [];
                     st_participants :=
                       track_participant (cleanSenderName (group 3 header1))
                                         [];
                     currentMessage :=
                       Some (new_message 0 (Some t1)
                               (cleanSenderName (group 3 header1))
                               (grp 4 header1));
                     lastTimestamp := Some (Some t1) |} ->
             currentMessage (step clock fmt mediaFiles 1 raw2 next st)
             = Some (set_quote
                       {| q_timestamp := Some t2;
                          q_sender := cleanSenderName (group 3 header2);
                          q_text := grp 4 header2 |}
                       (new_message 0 (Some t1)
                          (cleanSenderName (group 3 header1))
                          (grp 4 header1)))
             /\ st_messages (step clock fmt mediaFiles 1 raw2 next st) = []).
  { intros next st ->. unfold step.
    destruct (cleanText (Some raw2)) as [|c line] eqn:E.
    - rewrite header_not_empty in H2. discriminate H2.
    - cbn [is_empty]. rewrite H2. unfold header_step.
      change (2 * 1) with 2. rewrite Ht2.
      unfold isQuotedMessage.
      cbn [lastTimestamp currentMessage rawText new_message num_lt].
      rewrite Hblank. cbn [is_empty]. rewrite orb_true_r, andb_true_r.
      apply Z.ltb_lt in Hlt. rewrite Hlt.
      cbn [currentMessage st_messages]. split; reflexivity. }
  destruct (S2 None _ eq_refl) as [Hc Hm].
  unfold push_current. rewrite Hc, Hm.
  rewrite finalizeMessage_no_text by reflexivity.
  reflexivity.
Qed.

(** The lines, the headers and the two time values of an input are
    computed, and the rule applied to them. *)
Ltac quote_merge_at rule input :=
  let lines := eval vm_compute in (raw_lines input) in
  let fmt := eval vm_compute in (detectFormat input) in
  match lines with
  | [?r1; ?r2] =>
      let e1 :=
        eval vm_compute in (exec (messagePattern fmt) (cleanText (Some r1)))
      in
      let e2 :=
        eval vm_compute in (exec (messagePattern fmt) (cleanText (Some r2)))
      in
      match e1 with
      | Some ?h1 =>
          match e2 with
          | Some ?h2 =>
              let d1 :=
                eval vm_compute in
                  (parseDateTime 0 (group 1 h1) (group 2 h1) fmt) in
              let d2 :=
                eval vm_compute in
                  (parseDateTime 0 (group 1 h2) (group 2 h2) fmt) in
              match d1 with
              | Some ?t1 =>
                  match d2 with
                  | Some ?t2 =>
                      rewrite (rule r1 r2 h1 h2 t1 t2);
                      vm_compute; reflexivity
                  end
              end
          end
      end
  end.

(** The theorem at work: on the example of the specification, in the
    dash dialect with a quoted message of the day before, and in the
    bracket dialect without seconds, the one message is from Alice and
    quotes Bob's [Hi]. *)
Lemma parse_quote_merge_witness :
  map (fun m => (sender m, hasQuote m,
                 option_map (fun q => (q_sender q, q_text q))
                            (quotedMessage m)))
      (messages (parse still_clock mute_locale quote_merge_input []))
  = [ (lit "Alice", true, Some (lit "Bob", lit "Hi")) ]
  /\ map (fun m => (sender m, hasQuote m,
                    option_map (fun q => (q_sender q, q_text q))
                               (quotedMessage m)))
         (messages (parse still_clock mute_locale quote_merge_dash_input []))
     = [ (lit "Alice", true, Some (lit "Bob", lit "Hi")) ]
  /\ map (fun m => (sender m, hasQuote m,
                    option_map (fun q => (q_sender q, q_text q))
                               (quotedMessage m)))
         (messages (parse still_clock mute_locale quote_merge_short_input []))
     = [ (lit "Alice", true, Some (lit "Bob", lit "Hi")) ].
Proof.
  split; [|split].
  - quote_merge_at
      (@parse_quote_merge still_clock mute_locale [] quote_merge_input)
      quote_merge_input.
  - quote_merge_at
      (@parse_quote_merge still_clock mute_locale [] quote_merge_dash_input)
      quote_merge_dash_input.
  - quote_merge_at
      (@parse_quote_merge still_clock mute_locale [] quote_merge_short_input)
      quote_merge_short_input.
Defined.

(** C10.  At the quoted-reply input Alice's header opens a message
    through the lookahead branch (lines 148-173), which does not count
    her: her message is returned and she is not among the participants.
    The regular path does count at opening time: an empty message that
    the cleanup discards has counted its sender, and a header merged as a
    quote has not. *)
Theorem parse_quoted_reply_participants clock locale mediaFiles :
  (let result := parse clock locale quoted_reply_input mediaFiles in
   map sender (messages result) = [lit "Bob"; lit "Alice"]
   /\ map text (messages result) = [lit "hello"; lit "reply"]
   /\ participants result = [(lit "Bob", 1)])
  /\ (let result := parse clock locale empty_then_text_input mediaFiles in
      map sender (messages result) = [lit "Bob"]
      /\ participants result = [(lit "Alice", 1); (lit "Bob", 1)])
  /\ (let result := parse clock locale quote_merge_input mediaFiles in
      map sender (messages result) = [lit "Alice"]
      /\ participants result = [(lit "Alice", 1)]).
Proof.
  repeat split; vm_compute; reflexivity.
Qed.

End ParseProofs.

(* ================================================================== *)
(** ** The model on the examples of the specification *)

Module Examples.

Import Regex JsDate WhatsAppParser Vocabulary.

(** A bracket header without seconds, and a dash header. *)
Example detect_bracket_no_seconds :
  detectFormat (lit "[1/2/24, 10:00 AM] Alice: hi") = android_bracket.
Proof. vm_compute. reflexivity. Qed.

Example detect_dash :
  detectFormat (lit "1/2/2024, 10:00 - Alice: hi") = android_dash.
Proof. vm_compute. reflexivity. Qed.

(** A header matched by the bracket grammar: date, time, sender, text. *)
Example bracket_header_groups :
  option_map (fun m => (group 1 m, group 2 m, group 3 m, group 4 m))
    (exec bracketPattern (lit "[1/2/24, 10:00:00 AM] Alice: see: this"))
  = Some (Some (lit "1/2/24"), Some (lit "10:00:00 AM"), Some (lit "Alice"),
          Some (lit "see: this")).
Proof. vm_compute. reflexivity. Qed.

(** "image omitted": one message, media omitted, empty text. *)
Example media_omitted_line :
  map (fun m => (type m, text m))
    (messages (parse still_clock mute_locale
                 (lit "[1/2/24, 10:00:00 AM] Alice: image omitted") []))
  = [(T_media_omitted, [])].
Proof. vm_compute. reflexivity. Qed.

(** An attachment whose file is in the table. *)
Example attachment_resolved :
  map (fun m => option_map (fun i => (kind i, data i, hasData i)) (media m))
    (messages (parse still_clock mute_locale
                 (lit "[1/2/24, 10:00:00 AM] Alice: <attached: IMG-001.jpg>")
                 [(lit "IMG-001.jpg", lit "data:image/jpeg;base64,AAAA")]))
  = [Some (image, Some (lit "data:image/jpeg;base64,AAAA"), true)].
Proof. vm_compute. reflexivity. Qed.

(** One message from Bob, then three from Alice: Alice is ranked first. *)
Example participants_ranked :
  participants
    (parse still_clock mute_locale
       (lit "[1/2/24, 10:00:00 AM] Bob: one" ++ line_break ++
        lit "[1/2/24, 10:01:00 AM] Alice: two" ++ line_break ++
        lit "[1/2/24, 10:02:00 AM] Alice: three" ++ line_break ++
        lit "[1/2/24, 10:03:00 AM] Alice: four") [])
  = [(lit "Alice", 3); (lit "Bob", 1)].
Proof. vm_compute. reflexivity. Qed.

(** Twelve-hour arithmetic: 12 AM is hour 0, 12 PM stays 12, PM adds 12. *)
Example twelve_hour_clock :
  time_fields (lit "12:05 AM") = Some (Some 0, Some 5, Some 0)%Z
  /\ time_fields (lit "12:05 PM") = Some (Some 12, Some 5, Some 0)%Z
  /\ time_fields (lit "9:05:07 pm") = Some (Some 21, Some 5, Some 7)%Z
  /\ time_fields (lit "21:05") = Some (Some 21, Some 5, Some 0)%Z.
Proof. repeat split; vm_compute; reflexivity. Qed.

(** The time value of 2 January 2024, 10:00:00. *)
Example january_second :
  parseDateTime 0 (Some (lit "1/2/24")) (Some (lit "10:00:00 AM")) ios
  = Some 1704189600000%Z.
Proof. vm_compute. reflexivity. Qed.

(** Multi-line text, a call, a deleted message and an edited one. *)
Example classified_kinds :
  map (fun m => (type m, text m, isEdited m))
    (messages
       (parse still_clock mute_locale
          (lit "[1/2/24, 10:00:00 AM] Alice: Voice call, 3 min" ++ line_break ++
           lit "[1/2/24, 10:01:00 AM] Bob: You deleted this message"
           ++ line_break ++
           lit "[1/2/24, 10:02:00 AM] Bob: hi <This message was edited>"
           ++ line_break ++ lit "second  line") []))
  = [(T_call, lit "Voice call, 3 min", false);
     (T_deleted, lit "This message was deleted", false);
     (T_text, lit "hi " ++ line_break ++ lit "second line", true)].
Proof. vm_compute. reflexivity. Qed.

End Examples.

(* ================================================================== *)
(** ** Facts about strings, maps and sorting *)

Module BasicFacts.

Import Regex JsDate WhatsAppParser Vocabulary Conditions.

Lemma str_eqb_eq a : forall b, str_eqb a b = true <-> a = b.
Proof.
  induction a as [|x a IH]; intros [|y b]; simpl; split; try easy.
  - intros H. apply andb_true_iff in H as [Hx Hab].
    apply N.eqb_eq in Hx. apply IH in Hab. congruence.
  - intros H. injection H as -> ->. rewrite N.eqb_refl. now apply IH.
Qed.

Lemma str_eqb_refl a : str_eqb a a = true.
Proof. now apply str_eqb_eq. Qed.

Lemma str_eqb_neq a b : str_eqb a b = false <-> a <> b.
Proof.
  split.
  - intros H E. apply str_eqb_eq in E. congruence.
  - intros H. destruct (str_eqb a b) eqn:E; auto.
    apply str_eqb_eq in E. contradiction.
Qed.

Lemma starts_with_map (f : N -> N) p : forall s,
  starts_with p s = true -> starts_with (map f p) (map f s) = true.
Proof.
  induction p as [|x p IH]; intros [|y s]; simpl; auto; try discriminate.
  intros H. apply andb_true_iff in H as [Hx Hp].
  apply N.eqb_eq in Hx. subst. rewrite N.eqb_refl. now apply IH.
Qed.

Lemma includes_map (f : N -> N) p s :
  includes s p = true -> includes (map f s) (map f p) = true.
Proof.
  induction s as [|y s IH]; simpl; intros H.
  - apply orb_true_iff in H as [H|H]; [|discriminate].
    pose proof (starts_with_map f p [] H) as H'. simpl in H'.
    now rewrite H'.
  - apply orb_true_iff in H as [H|H].
    + pose proof (starts_with_map f p (y :: s) H) as H'. simpl in H'.
      now rewrite H'.
    + rewrite (IH H). apply orb_true_r.
Qed.

Lemma lower_char_fixed c : lower_char (lower_char c) = lower_char c.
Proof.
  unfold lower_char, is_upper, in_range.
  destruct ((65 <=? c)%N && (c <=? 90)%N) eqn:E; rewrite ?E; auto.
  apply andb_true_iff in E as [H1 H2].
  apply N.leb_le in H1, H2.
  assert (H : (c + 32 <=? 90)%N = false) by (apply N.leb_gt; lia).
  now rewrite H, andb_false_r.
Qed.

Lemma toLowerCase_fixed s : toLowerCase (toLowerCase s) = toLowerCase s.
Proof.
  unfold toLowerCase. rewrite map_map. apply map_ext, lower_char_fixed.
Qed.

(** *** Maps *)

Lemma get_In (V : Type) (m : JsMap.t V) k v :
  JsMap.get m k = Some v -> In (k, v) m.
Proof.
  induction m as [|[k' v'] m IH]; simpl; try discriminate.
  destruct (str_eqb k' k) eqn:E; auto.
  intros H. injection H as ->. apply str_eqb_eq in E. subst. now left.
Qed.

Lemma get_None (V : Type) (m : JsMap.t V) k :
  JsMap.get m k = None -> ~ In k (map fst m).
Proof.
  induction m as [|[k' v'] m IH]; simpl; auto.
  destruct (str_eqb k' k) eqn:E; try discriminate.
  intros H [Hk|Hk]; [|now apply IH].
  subst. now rewrite str_eqb_refl in E.
Qed.

Lemma In_get (V : Type) (m : JsMap.t V) k v :
  NoDup (map fst m) -> In (k, v) m -> JsMap.get m k = Some v.
Proof.
  induction m as [|[k' v'] m IH]; simpl; [easy|].
  intros Hnd [H|H].
  - injection H as -> ->. now rewrite str_eqb_refl.
  - inversion Hnd as [|? ? Hk Hm]; subst.
    destruct (str_eqb k' k) eqn:E; [|now apply IH].
    apply str_eqb_eq in E. subst. elim Hk.
    change k with (fst (k, v)). now apply in_map.
Qed.

Lemma get_set (V : Type) (m : JsMap.t V) k v k' :
  JsMap.get (JsMap.set m k v) k'
  = if str_eqb k k' then Some v else JsMap.get m k'.
Proof.
  induction m as [|[k0 v0] m IH]; simpl.
  - destruct (str_eqb k k'); reflexivity.
  - destruct (str_eqb k0 k) eqn:E; simpl.
    + apply str_eqb_eq in E. subst. destruct (str_eqb k k'); reflexivity.
    + rewrite IH. destruct (str_eqb k0 k') eqn:E'; auto.
      destruct (str_eqb k k') eqn:E''; auto.
      apply str_eqb_eq in E', E''. subst. now rewrite str_eqb_refl in E.
Qed.

Lemma set_keys (V : Type) (m : JsMap.t V) k v :
  map fst (JsMap.set m k v)
  = match JsMap.get m k with
    | Some _ => map fst m
    | None => map fst m ++ [k]
    end.
Proof.
  induction m as [|[k0 v0] m IH]; simpl; auto.
  destruct (str_eqb k0 k) eqn:E; simpl; auto.
  rewrite IH. destruct (JsMap.get m k); reflexivity.
Qed.

Lemma set_In (V : Type) (m : JsMap.t V) k v k' v' :
  In (k', v') (JsMap.set m k v) -> (k' = k /\ v' = v) \/ In (k', v') m.
Proof.
  induction m as [|[k0 v0] m IH]; simpl.
  - intros [H|[]]. injection H as -> ->. now left.
  - destruct (str_eqb k0 k) eqn:E; simpl.
    + apply str_eqb_eq in E. subst. intros [H|H]; auto.
      injection H as -> ->. now left.
    + intros [H|H]; auto. destruct (IH H); auto.
Qed.

Lemma set_NoDup (V : Type) (m : JsMap.t V) k v :
  NoDup (map fst m) -> NoDup (map fst (JsMap.set m k v)).
Proof.
  intros H. rewrite set_keys. destruct (JsMap.get m k) eqn:E; auto.
  apply get_None in E.
  apply NoDup_rev in H. rewrite <- (rev_involutive (map fst m ++ [k])).
  apply NoDup_rev. rewrite rev_app_distr. simpl. constructor; auto.
  now rewrite <- in_rev.
Qed.

Lemma first_value_In (V : Type) p (m : JsMap.t V) v :
  JsMap.first_value p m = Some v -> exists k, In (k, v) m /\ p k = true.
Proof.
  induction m as [|[k' v'] m IH]; simpl; try discriminate.
  destruct (p k') eqn:E.
  - intros H. injection H as ->. exists k'. auto.
  - intros H. destruct (IH H) as (k & Hk & Hp). exists k. auto.
Qed.

(** *** The insertion sort *)

Section Sorting.

Variable A : Type.
Variable cmp : A -> A -> Z.

Let before (x y : A) : Prop := (cmp x y <= 0)%Z.

Hypothesis before_total : forall x y, before x y \/ before y x.
Hypothesis before_trans : forall x y z, before x y -> before y z -> before x z.

Lemma insert_by_perm x l : Permutation (insert_by cmp x l) (x :: l).
Proof.
  induction l as [|y l IH]; simpl; auto.
  destruct (cmp x y <=? 0)%Z; auto.
  rewrite IH. apply perm_swap.
Qed.

Lemma sort_by_perm l : Permutation (sort_by cmp l) l.
Proof.
  unfold sort_by. induction l as [|x l IH]; simpl; auto.
  rewrite insert_by_perm. now constructor.
Qed.

Lemma insert_by_sorted x l :
  StronglySorted before l -> StronglySorted before (insert_by cmp x l).
Proof.
  induction 1 as [|y l Hs IH Hy]; simpl.
  - repeat constructor.
  - destruct (Z.leb_spec (cmp x y) 0) as [Hxy|Hxy].
    + constructor; [now constructor|]. constructor; auto.
      rewrite Forall_forall in *. intros z Hz.
      eapply before_trans; eauto.
    + constructor; auto.
      assert (Hyx : before y x).
      { destruct (before_total x y) as [H|H]; auto. unfold before in H. lia. }
      rewrite Forall_forall in *. intros z Hz.
      apply (Permutation_in _ (insert_by_perm x l)) in Hz.
      destruct Hz as [<-|Hz]; auto.
Qed.

Lemma sort_by_sorted l : StronglySorted before (sort_by cmp l).
Proof.
  unfold sort_by. induction l as [|x l IH]; simpl.
  - constructor.
  - now apply insert_by_sorted.
Qed.

End Sorting.

End BasicFacts.

(* ================================================================== *)
(** ** More on the text normalizer and on line endings *)

Module NormalFormProofs.

Import Regex JsDate WhatsAppParser Vocabulary Conditions.

Lemma no_double_app a b : no_double (a ++ 32%N :: 32%N :: b) = false.
Proof.
  induction a as [|x a IH]; [reflexivity|].
  change ((x :: a) ++ 32%N :: 32%N :: b) with (x :: (a ++ 32%N :: 32%N :: b)).
  destruct (a ++ 32%N :: 32%N :: b) as [|d r] eqn:E.
  - destruct a; discriminate.
  - cbn [no_double]. cbn [no_double] in IH. rewrite IH. apply andb_false_r.
Qed.

Lemma trim_end_last s : forall init c,
  trim_end s = init ++ [c] -> is_ws c = false.
Proof.
  induction s as [|x t IH]; intros init c H; cbn [trim_end] in H.
  - destruct init; discriminate.
  - destruct (trim_end t) as [|d r] eqn:E.
    + destruct (is_ws x) eqn:W; [destruct init; discriminate|].
      destruct init as [|y init]; [now injection H as <-|].
      injection H as _ H. destruct init; discriminate.
    + destruct init as [|y init]; [discriminate|].
      injection H as _ H. eapply IH; eauto.
Qed.

(** X1.  Whatever the line, the result of [cleanText] holds no code unit
    of the three classes the function removes or replaces and no carriage
    return, never two spaces in a row, and no white space at its start or
    at its end. *)
Theorem cleanText_normal_form (line : option str) :
  let r := cleanText line in
  (forall c, In c r ->
     invisible c = false /\ special_space c = false
     /\ direction_mark c = false /\ c <> 13%N)
  /\ (forall a b, r <> a ++ 32%N :: 32%N :: b)
  /\ (forall c rest, r = c :: rest -> is_ws c = false)
  /\ (forall init c, r = init ++ [c] -> is_ws c = false).
Proof.
  intros r.
  assert (Hr : r = [] \/ exists t, r = clean t).
  { unfold r, cleanText. destruct line as [t|]; auto.
    destruct (is_empty t); eauto. }
  destruct Hr as [->|[t ->]].
  - split; [|split; [|split]].
    + intros c [].
    + intros a b E. destruct a; discriminate.
    + intros c rest E. discriminate.
    + intros init c E. destruct init; discriminate.
  - rewrite RegexProofs.clean_on_lists. unfold trim.
    split; [|split; [|split]].
    + assert (H : Forall (fun c => untouched c = true)
                    (trim_end (trim_start (collapse_spaces
                       (remove is_cr (remove direction_mark
                          (to_space special_space (remove invisible t)))))))).
      { apply NormalizerProofs.trim_end_keeps,
          NormalizerProofs.trim_start_keeps, NormalizerProofs.collapse_keeps,
          NormalizerProofs.pipeline_untouched. }
      rewrite Forall_forall in H. intros c Hc. specialize (H c Hc).
      unfold untouched, is_cr in H.
      rewrite !andb_true_iff, !negb_true_iff in H.
      destruct H as [[[H1 H2] H3] H4]. apply N.eqb_neq in H4. auto.
    + intros a b E.
      pose proof (NormalizerProofs.trim_end_no_double _
                    (NormalizerProofs.trim_start_no_double _
                       (NormalizerProofs.collapse_no_double
                          (remove is_cr (remove direction_mark
                             (to_space special_space (remove invisible t)))))))
        as H.
      rewrite E, no_double_app in H. discriminate.
    + intros c rest E.
      destruct (NormalizerProofs.trim_end_head _ E) as [u Hu].
      eapply NormalizerProofs.trim_start_head; eauto.
    + intros init c E. eapply trim_end_last; eauto.
Qed.

(** *** Line endings *)

Lemma match_crlf pre s :
  match_at (pattern crlf_rx) pre s
  = match s with
    | c :: d :: t' =>
        if (13 =? c)%N && (10 =? d)%N
        then Some {| m_pre := pre;
                     m_text := firstn (length s - length t') s;
                     m_post := t'; m_caps := [] |}
        else None
    | _ => None
    end.
Proof.
  unfold match_at. cbn [pattern crlf_rx unanchored chr run].
  destruct s as [|c [|d t']]; auto.
  - destruct (13 =? c)%N; reflexivity.
  - destruct (13 =? c)%N; [|reflexivity].
    destruct (10 =? d)%N; reflexivity.
Qed.

Lemma search_crlf : forall s pre,
  match find_crlf s with
  | None => search (pattern crlf_rx) pre s = None
  | Some (a, rest) =>
      length rest < length s
      /\ exists txt caps,
           txt <> []
           /\ search (pattern crlf_rx) pre s
              = Some {| m_pre := pre ++ a; m_text := txt; m_post := rest;
                        m_caps := caps |}
  end.
Proof.
  induction s as [|c t IH]; intros pre.
  - cbn [find_crlf search]. now rewrite match_crlf.
  - cbn [find_crlf search]. rewrite match_crlf.
    specialize (IH (pre ++ [c])).
    assert (Later :
      match match find_crlf t with
            | Some (a, rest) => Some (c :: a, rest)
            | None => None
            end with
      | None => search (pattern crlf_rx) (pre ++ [c]) t = None
      | Some (a, rest) =>
          length rest < length (c :: t)
          /\ exists txt caps,
               txt <> []
               /\ search (pattern crlf_rx) (pre ++ [c]) t
                  = Some {| m_pre := pre ++ a; m_text := txt; m_post := rest;
                            m_caps := caps |}
      end).
    { destruct (find_crlf t) as [[a rest]|]; [|exact IH].
      destruct IH as (Hl & txt & caps & Hne & E).
      split; [simpl; lia|]. exists txt, caps. split; [exact Hne|].
      rewrite E, <- app_assoc. reflexivity. }
    destruct t as [|d t']; [exact Later|].
    destruct ((13 =? c)%N && (10 =? d)%N); [|exact Later].
    split; [simpl; lia|]. eexists _, _. rewrite app_nil_r.
    split; [|reflexivity]. apply RegexProofs.firstn_nonempty.
    cbn [length]. lia.
Qed.

Lemma crlf_to_lf_unfold s :
  crlf_to_lf s
  = match find_crlf s with
    | None => s
    | Some (a, rest) => a ++ [nl] ++ crlf_to_lf rest
    end.
Proof.
  induction s as [|c t IH]; [reflexivity|].
  assert (Later :
    c :: crlf_to_lf t
    = match match find_crlf t with
            | Some (a, rest) => Some (c :: a, rest)
            | None => None
            end with
      | None => c :: t
      | Some (a, rest) => a ++ [nl] ++ crlf_to_lf rest
      end).
  { rewrite IH. destruct (find_crlf t) as [[a rest]|]; reflexivity. }
  cbn [find_crlf crlf_to_lf]. destruct t as [|d t']; [exact Later|].
  destruct ((13 =? c)%N && (10 =? d)%N); [reflexivity|exact Later].
Qed.

Lemma replace_all_crlf s : replace_all crlf_rx [nl] s = crlf_to_lf s.
Proof.
  unfold replace_all.
  apply RegexProofs.replace_loop_by_find with (find := find_crlf); auto.
  - intros pre s0. apply search_crlf.
  - intros s0. apply crlf_to_lf_unfold.
Qed.

Lemma crlf_to_lf_other c s :
  c <> 13%N -> crlf_to_lf (c :: s) = c :: crlf_to_lf s.
Proof.
  intros H. cbn [crlf_to_lf]. destruct s as [|d s']; [reflexivity|].
  destruct (N.eqb_spec 13 c) as [E|_]; [congruence|]. reflexivity.
Qed.

Lemma crlf_to_lf_without_cr s :
  Forall (fun c => c <> 13%N) s -> crlf_to_lf s = s.
Proof.
  induction 1 as [|c s Hc _ IH]; [reflexivity|].
  now rewrite crlf_to_lf_other, IH.
Qed.

Lemma crlf_to_lf_to_crlf s :
  Forall (fun c => c <> 13%N) s -> crlf_to_lf (to_crlf s) = s.
Proof.
  induction 1 as [|c s Hc _ IH]; [reflexivity|].
  cbn [to_crlf]. destruct (N.eqb_spec c 10) as [->|Hn].
  - cbn [app crlf_to_lf N.eqb Pos.eqb andb]. now rewrite IH.
  - cbn [app]. now rewrite crlf_to_lf_other, IH.
Qed.

(** X2.  For a text without carriage returns, writing every line break
    as a carriage return and a line feed changes nothing: [parse] returns
    the same result, detected format included. *)
Theorem parse_crlf_same clock locale content mediaFiles :
  Forall (fun c => c <> 13%N) content ->
  parse clock locale (to_crlf content) mediaFiles
  = parse clock locale content mediaFiles.
Proof.
  intros H.
  assert (E1 : lf_lines (to_crlf content) = lf_lines content).
  { unfold lf_lines.
    now rewrite !replace_all_crlf, crlf_to_lf_to_crlf, crlf_to_lf_without_cr. }
  assert (E2 : raw_lines (to_crlf content) = raw_lines content).
  { unfold raw_lines.
    now rewrite !replace_all_crlf, crlf_to_lf_to_crlf, crlf_to_lf_without_cr. }
  assert (E3 : detectFormat (to_crlf content) = detectFormat content)
    by (unfold detectFormat; now rewrite E1).
  unfold parse, scanned. now rewrite E2, E3.
Qed.

(** The theorem at work on a message of two lines. *)
Lemma parse_crlf_same_witness :
  parse still_clock mute_locale (to_crlf crlf_free_input) []
  = parse still_clock mute_locale crlf_free_input [].
Proof.
  apply parse_crlf_same.
  assert (E : forallb (fun c => negb (c =? 13)%N) crlf_free_input = true)
    by (vm_compute; reflexivity).
  rewrite forallb_forall in E. apply Forall_forall. intros c Hc.
  specialize (E c Hc). apply negb_true_iff in E. now apply N.eqb_neq.
Defined.

End NormalFormProofs.

(* ================================================================== *)
(** ** What the scanner keeps true of every message *)

Module InvariantProofs.

Import Regex JsDate WhatsAppParser Vocabulary Conditions.

(** X3.  The classifier changes the text, the type, the media
    descriptor and the two flags [isSystem] and [isEdited] of a message,
    and nothing else: identifier, timestamp, sender, raw text and quote
    are those of the message it was given. *)
Theorem finalizeMessage_keeps msg mediaFiles :
  let done := finalizeMessage msg mediaFiles in
  id done = id msg /\ timestamp done = timestamp msg
  /\ sender done = sender msg /\ rawText done = rawText msg
  /\ hasQuote done = hasQuote msg /\ quotedMessage done = quotedMessage msg.
Proof.
  unfold finalizeMessage, finalize_attachment, finalize_pdf_attachment,
    finalize_document_omitted, finalize_call, finalize_missed_call.
  break_match; repeat split.
Qed.

Lemma finalizeMessage_sender msg mediaFiles :
  sender (finalizeMessage msg mediaFiles) = sender msg.
Proof.
  unfold finalizeMessage, finalize_attachment, finalize_pdf_attachment,
    finalize_document_omitted, finalize_call, finalize_missed_call.
  break_match; reflexivity.
Qed.

Lemma finalizeMessage_quote msg mediaFiles :
  hasQuote (finalizeMessage msg mediaFiles) = hasQuote msg
  /\ quotedMessage (finalizeMessage msg mediaFiles) = quotedMessage msg.
Proof.
  unfold finalizeMessage, finalize_attachment, finalize_pdf_attachment,
    finalize_document_omitted, finalize_call, finalize_missed_call.
  break_match; split; reflexivity.
Qed.

Section Generic.

Variable clock : nat -> Z.
Variable mediaFiles : JsMap.t payload.
Variables P Q : message -> Prop.

Hypothesis P_new :
  forall n ts g txt, P (new_message n ts (cleanSenderName g) txt).
Hypothesis P_system : forall n ts txt, P (system_message n ts txt).
Hypothesis P_quote :
  forall ts g txt m,
    P m ->
    P (set_quote {| q_timestamp := ts; q_sender := cleanSenderName g;
                    q_text := txt |} m).
Hypothesis P_text : forall t m, P m -> P (set_rawText t m).
Hypothesis P_done : forall m, P m -> Q (finalizeMessage m mediaFiles).

Lemma holds_in_push st :
  holds_in P Q st -> Forall Q (push_current mediaFiles st).
Proof.
  intros [Hm Hc]. unfold push_current.
  destruct (currentMessage st) as [cm|]; auto.
  apply Forall_app. split; auto.
Qed.

Lemma step_holds_in fmt i raw next st :
  holds_in P Q st -> holds_in P Q (step clock fmt mediaFiles i raw next st).
Proof.
  intros H. pose proof (holds_in_push H) as Hp. destruct H as [Hm Hc].
  assert (Hst : holds_in P Q st) by (split; assumption).
  unfold step, header_step, continuation_step, orphan_step.
  destruct (is_empty _); [exact Hst|].
  destruct (exec (messagePattern fmt) _).
  - destruct (isQuotedMessage _ st).
    + destruct (currentMessage st) as [cm|] eqn:E; [|exact Hst].
      split; cbn [st_messages currentMessage]; [exact Hm|].
      intros cm' Hcm'. injection Hcm' as <-. now apply P_quote, Hc.
    + destruct (_ && _ && _);
        (split; cbn [st_messages currentMessage]; [exact Hp|];
         intros cm' Hcm'; injection Hcm' as <-; apply P_new).
  - destruct (currentMessage st) as [cm|] eqn:E.
    + split; cbn [st_messages currentMessage]; [exact Hm|].
      intros cm' Hcm'. injection Hcm' as <-.
      destruct (_ && _); now apply P_text, Hc.
    + destruct (exec (sysPattern fmt) _); [|exact Hst].
      split; cbn [st_messages currentMessage]; [exact Hp|].
      intros cm' Hcm'. injection Hcm' as <-. apply P_system.
Qed.

Lemma scan_holds_in fmt rawLines : forall i st,
  holds_in P Q st -> holds_in P Q (scan clock fmt mediaFiles i rawLines st).
Proof.
  induction rawLines as [|raw rest IH]; intros i st H; cbn [scan]; auto.
  apply IH, step_holds_in, H.
Qed.

Lemma scanned_all content :
  Forall Q (st_messages (scanned clock content mediaFiles)).
Proof.
  unfold scanned. cbn [st_messages].
  apply holds_in_push, scan_holds_in.
  split; [constructor|discriminate].
Qed.

Lemma parse_all locale content :
  Forall Q (messages (parse clock locale content mediaFiles)).
Proof.
  unfold parse, cleanupMessages. cbn [messages].
  pose proof (scanned_all content) as H.
  rewrite Forall_forall in *. intros m Hm.
  apply filter_In in Hm as [Hm _]. auto.
Qed.

End Generic.

End InvariantProofs.

(* ================================================================== *)
(** ** Properties of the messages that [parse] returns *)

Module MessageProofs.

Import Regex JsDate WhatsAppParser Vocabulary Conditions.

Lemma cleanSenderName_tidy g : tidy_name (cleanSenderName g).
Proof.
  assert (U : tidy_name (lit "Unknown")) by (split; [discriminate|reflexivity]).
  unfold cleanSenderName. destruct g as [s0|]; auto.
  destruct (is_empty s0); auto.
  unfold or_default.
  destruct (trim (replace_first tilde_rx [] (cleanText (Some s0)))) eqn:E;
    auto.
  cbn [is_empty]. split; [discriminate|].
  rewrite <- E. apply NormalizerProofs.trim_fixed.
Qed.

(** X4.  Every message that [parse] returns has a sender that is not
    empty and has no white space around it; so has the sender of its
    quoted message, when it has one. *)
Theorem parse_senders_tidy clock locale content mediaFiles :
  Forall (fun m =>
            (sender m <> [] /\ trim (sender m) = sender m)
            /\ forall q, quotedMessage m = Some q ->
                         q_sender q <> [] /\ trim (q_sender q) = q_sender q)
         (messages (parse clock locale content mediaFiles)).
Proof.
  apply InvariantProofs.parse_all with
    (P := fun m => tidy_name (sender m)
                   /\ forall q, quotedMessage m = Some q ->
                                tidy_name (q_sender q)).
  - intros n ts g txt. split; [apply cleanSenderName_tidy|discriminate].
  - intros n ts txt. split; [|discriminate].
    split; [discriminate|reflexivity].
  - intros ts g txt m [Hs _]. split; [exact Hs|].
    intros q Hq. injection Hq as <-. apply cleanSenderName_tidy.
  - intros t m H. exact H.
  - intros m [Hs Hq].
    destruct (InvariantProofs.finalizeMessage_quote m mediaFiles) as [_ E].
    rewrite InvariantProofs.finalizeMessage_sender, E. split; auto.
Qed.

(** X5.  In every message that [parse] returns, the flag [hasQuote] is
    set exactly when a quoted message is attached. *)
Theorem parse_quote_flag clock locale content mediaFiles :
  Forall (fun m => hasQuote m = true <-> quotedMessage m <> None)
         (messages (parse clock locale content mediaFiles)).
Proof.
  apply InvariantProofs.parse_all with
    (P := fun m => hasQuote m = true <-> quotedMessage m <> None).
  - intros; cbn; split; [discriminate|congruence].
  - intros; cbn; split; [discriminate|congruence].
  - intros; cbn; split; [discriminate|reflexivity].
  - intros t m H. exact H.
  - intros m H.
    destruct (InvariantProofs.finalizeMessage_quote m mediaFiles) as [-> ->].
    exact H.
Qed.

Lemma finalizeMessage_media_kind m mediaFiles :
  media m = None ->
  (type m = T_text \/ type m = T_system) ->
  (type m = T_system -> isSystem m = true) ->
  let done := finalizeMessage m mediaFiles in
  (media done <> None <-> carries_media (type done) = true)
  /\ (type done = T_system -> isSystem done = true).
Proof.
  intros Hm Ht Hs.
  unfold finalizeMessage, finalize_attachment, finalize_pdf_attachment,
    finalize_document_omitted, finalize_call, finalize_missed_call.
  break_match;
    cbn [media type isSystem set_text set_type set_media set_isSystem
         set_isEdited carries_media];
    rewrite ?Hm;
    (split;
     [ split; intros H0; try discriminate; try congruence; try reflexivity;
       destruct Ht as [E|E]; rewrite E in H0; discriminate
     | intros H0; try discriminate; try reflexivity; auto ]).
Qed.

(** X6.  A message that [parse] returns has a media descriptor exactly
    when its type is media, media omitted, document or document omitted;
    in particular a text message has none.  A message of type system has
    the flag [isSystem]. *)
Theorem parse_media_kind clock locale content mediaFiles :
  Forall (fun m =>
            (media m <> None <-> carries_media (type m) = true)
            /\ (type m = T_system -> isSystem m = true))
         (messages (parse clock locale content mediaFiles)).
Proof.
  apply InvariantProofs.parse_all with
    (P := fun m => media m = None
                   /\ (type m = T_text \/ type m = T_system)
                   /\ (type m = T_system -> isSystem m = true)).
  - intros; cbn; repeat split; auto. discriminate.
  - intros; cbn; repeat split; auto.
  - intros ts g txt m H. exact H.
  - intros t m H. exact H.
  - intros m (Hm & Ht & Hs). now apply finalizeMessage_media_kind.
Qed.

Lemma findMediaFile_from_table filename (mediaFiles : JsMap.t payload) v :
  findMediaFile filename mediaFiles = Some v ->
  exists key, In (key, v) mediaFiles.
Proof.
  assert (F : forall p v0, JsMap.first_value p mediaFiles = Some v0 ->
                           exists key, In (key, v0) mediaFiles).
  { intros p v0 H.
    destruct (BasicFacts.first_value_In _ _ H) as (k & Hk & _). eauto. }
  unfold findMediaFile.
  destruct (_ || _); [discriminate|].
  destruct (exact_match filename mediaFiles) as [v0|] eqn:E0.
  { intros H. injection H as <-. unfold exact_match, JsMap.has in E0.
    destruct (JsMap.get mediaFiles filename) eqn:E; [|discriminate].
    injection E0 as ->. exists filename. now apply BasicFacts.get_In. }
  destruct (case_insensitive_match filename mediaFiles) as [v1|] eqn:E1.
  { intros H. injection H as <-. eapply F, E1. }
  destruct (core_match filename mediaFiles) as [v2|] eqn:E2.
  { intros H. injection H as <-. unfold core_match in E2.
    destruct (core_token filename); [eapply F, E2|discriminate]. }
  unfold numeric_match.
  destruct (numeric_token filename); [apply F|discriminate].
Qed.

Lemma finalizeMessage_payload m mediaFiles :
  media m = None ->
  forall info, media (finalizeMessage m mediaFiles) = Some info ->
    (hasData info = true <-> exists v, data info = Some v /\ v <> [])
    /\ (forall v, data info = Some v -> exists key, In (key, v) mediaFiles).
Proof.
  intros Hm info.
  assert (T : forall d : option payload,
            (truthy_payload d = true <-> exists v, d = Some v /\ v <> [])).
  { intros [[|c w]|]; cbn [truthy_payload is_empty negb]; split.
    - intros H. discriminate H.
    - intros (v & H & Hv). injection H as <-. congruence.
    - intros _. eexists. split; [reflexivity|discriminate].
    - reflexivity.
    - intros H. discriminate H.
    - intros (v & H & _). discriminate H. }
  assert (F : forall d : option payload,
            (false = true <-> exists v, @None payload = Some v /\ v <> [])
            /\ (forall v, @None payload = Some v ->
                          exists key, In (key, v) mediaFiles)).
  { intros _. split; [split; [discriminate|]|discriminate].
    intros (v & H & _). discriminate. }
  unfold finalizeMessage, finalize_attachment, finalize_pdf_attachment,
    finalize_document_omitted, finalize_call, finalize_missed_call.
  break_match;
    cbn [media set_text set_type set_media set_isSystem set_isEdited];
    rewrite ?Hm; intros H; try discriminate; injection H as <-;
    cbn [hasData data];
    try (apply (F None));
    (split; [apply T|intros v Hv; eapply findMediaFile_from_table; eauto]).
Qed.

(** X7.  In every message that [parse] returns with a media descriptor,
    [hasData] is true exactly when a payload that is not empty is
    attached, and an attached payload is one of the payloads of the media
    table. *)
Theorem parse_payloads clock locale content mediaFiles :
  Forall (fun m =>
            forall info, media m = Some info ->
              (hasData info = true <-> exists v, data info = Some v /\ v <> [])
              /\ (forall v, data info = Some v ->
                            exists key, In (key, v) mediaFiles))
         (messages (parse clock locale content mediaFiles)).
Proof.
  apply InvariantProofs.parse_all with (P := fun m => media m = None).
  - reflexivity.
  - reflexivity.
  - intros ts g txt m H. exact H.
  - intros t m H. exact H.
  - intros m Hm. now apply finalizeMessage_payload.
Qed.

End MessageProofs.

(* ================================================================== *)
(** ** Properties of the participants and of the statistics *)

Module ParticipantProofs.

Import Regex JsDate WhatsAppParser Vocabulary Conditions.

Lemma StronglySorted_weaken (A : Type) (R R' : A -> A -> Prop) l :
  (forall x y, R x y -> R' x y) ->
  StronglySorted R l -> StronglySorted R' l.
Proof.
  intros H. induction 1 as [|x l Hs IH Hx]; constructor; auto.
  rewrite Forall_forall in *. auto.
Qed.

Lemma push_sent_by mediaFiles who st :
  sent_by who (push_current mediaFiles st)
  = sent_by who (st_messages st) + open_by who (currentMessage st).
Proof.
  unfold push_current, sent_by, open_by.
  destruct (currentMessage st) as [cm|]; [|lia].
  rewrite filter_app, length_app. cbn [filter].
  rewrite InvariantProofs.finalizeMessage_sender.
  destruct (str_eqb (sender cm) who); reflexivity.
Qed.

Lemma track_participant_names g parts :
  let good := fun kc : str * nat =>
    tidy_name (fst kc) /\ isSystemSender (fst kc) = false /\ 1 <= snd kc in
  NoDup (map fst parts) /\ Forall good parts ->
  NoDup (map fst (track_participant (cleanSenderName g) parts))
  /\ Forall good (track_participant (cleanSenderName g) parts).
Proof.
  intros good [Hn Hf]. unfold track_participant.
  destruct (isSystemSender (cleanSenderName g)) eqn:Sys; [now split|].
  split; [now apply BasicFacts.set_NoDup|].
  rewrite Forall_forall in *. intros [k c] Hk.
  apply BasicFacts.set_In in Hk as [[-> ->]|Hk]; [|now apply Hf].
  unfold good. cbn [fst snd].
  split; [apply MessageProofs.cleanSenderName_tidy|]. split; [exact Sys|lia].
Qed.

Lemma track_participant_count who0 parts who :
  count_of (track_participant who0 parts) who
  <= count_of parts who + (if str_eqb who0 who then 1 else 0).
Proof.
  unfold track_participant. destruct (isSystemSender who0); [lia|].
  unfold count_of. rewrite BasicFacts.get_set.
  destruct (str_eqb who0 who) eqn:E; [|lia].
  apply BasicFacts.str_eqb_eq in E. subst.
  destruct (JsMap.get parts who); lia.
Qed.

Section Steps.

Variable clock : nat -> Z.
Variable fmt : export_format.
Variable mediaFiles : JsMap.t payload.

Lemma step_fair_counts i raw next st :
  fair_counts st -> fair_counts (step clock fmt mediaFiles i raw next st).
Proof.
  intros (Hn & Hf & Hc).
  assert (Hst : fair_counts st) by (repeat split; assumption).
  assert (Hp : forall who,
             count_of (st_participants st) who
             <= sent_by who (push_current mediaFiles st))
    by (intros who; rewrite push_sent_by; apply Hc).
  unfold step, header_step, continuation_step, orphan_step.
  destruct (is_empty _); [exact Hst|].
  destruct (exec (messagePattern fmt) _) as [m|].
  - destruct (isQuotedMessage _ st).
    + destruct (currentMessage st) as [cm|] eqn:E; [|exact Hst].
      split; [exact Hn|]. split; [exact Hf|].
      intros who. specialize (Hc who). rewrite ?E in Hc. exact Hc.
    + destruct (_ && _ && _).
      * split; [exact Hn|]. split; [exact Hf|].
        intros who. cbn [st_participants st_messages currentMessage].
        specialize (Hp who). lia.
      * destruct (track_participant_names (group 3 m) (conj Hn Hf))
          as [Hn' Hf'].
        split; [exact Hn'|]. split; [exact Hf'|].
        intros who. cbn [st_participants st_messages currentMessage].
        pose proof (track_participant_count
                      (cleanSenderName (group 3 m)) (st_participants st) who).
        specialize (Hp who). unfold open_by, new_message. cbn [sender]. lia.
  - destruct (currentMessage st) as [cm|] eqn:E.
    + split; [exact Hn|]. split; [exact Hf|].
      intros who. specialize (Hc who). rewrite ?E in Hc.
      cbn [st_participants st_messages currentMessage].
      destruct (_ && _); exact Hc.
    + destruct (exec (sysPattern fmt) _); [|exact Hst].
      split; [exact Hn|]. split; [exact Hf|].
      intros who. cbn [st_participants st_messages currentMessage].
      specialize (Hp who). lia.
Qed.

Lemma scan_fair_counts rawLines : forall i st,
  fair_counts st -> fair_counts (scan clock fmt mediaFiles i rawLines st).
Proof.
  induction rawLines as [|raw rest IH]; intros i st H; cbn [scan]; auto.
  apply IH, step_fair_counts, H.
Qed.

End Steps.

Lemma scanned_fair_counts clock content mediaFiles :
  let st := scanned clock content mediaFiles in
  NoDup (map fst (st_participants st))
  /\ Forall (fun kc => tidy_name (fst kc) /\ isSystemSender (fst kc) = false
                       /\ 1 <= snd kc)
            (st_participants st)
  /\ forall who, count_of (st_participants st) who
                 <= sent_by who (st_messages st).
Proof.
  assert (H : fair_counts
                (scan clock (detectFormat content) mediaFiles 0
                      (raw_lines content) initial)).
  { apply scan_fair_counts. split; [constructor|]. split; [constructor|].
    intros who. cbn. lia. }
  destruct H as (Hn & Hf & Hc). unfold scanned.
  cbn [st_participants st_messages]. split; [exact Hn|]. split; [exact Hf|].
  intros who. rewrite push_sent_by. apply Hc.
Qed.

Lemma participants_perm clock locale content mediaFiles :
  Permutation (participants (parse clock locale content mediaFiles))
              (st_participants (scanned clock content mediaFiles)).
Proof. unfold parse. cbn [participants]. apply BasicFacts.sort_by_perm. Qed.

(** X8.  The participants that [parse] returns have distinct names; a
    name is not empty, has no white space around it and is not a system
    sender ([system], or a name containing [whatsapp]); every count is at
    least 1. *)
Theorem parse_participants_names clock locale content mediaFiles :
  let ps := participants (parse clock locale content mediaFiles) in
  NoDup (map fst ps)
  /\ Forall (fun kc =>
               (fst kc <> [] /\ trim (fst kc) = fst kc)
               /\ isSystemSender (fst kc) = false /\ 1 <= snd kc) ps.
Proof.
  intros ps.
  destruct (scanned_fair_counts clock content mediaFiles) as (Hn & Hf & _).
  pose proof (participants_perm clock locale content mediaFiles) as Hp.
  fold ps in Hp. split.
  - eapply Permutation_NoDup; [|exact Hn].
    apply Permutation_map, Permutation_sym, Hp.
  - rewrite Forall_forall in *. intros kc Hk. apply Hf.
    eapply Permutation_in; eauto.
Qed.

(** X9.  The participants come ranked: no participant has a higher count
    than one listed before, so the first one has the highest count.  The
    list holds every entry of the scanner's table once, and the statistic
    [participants] is its length. *)
Theorem parse_participants_ranked clock locale content mediaFiles :
  let result := parse clock locale content mediaFiles in
  StronglySorted (fun a b => snd b <= snd a) (participants result)
  /\ Permutation (participants result)
                 (st_participants (scanned clock content mediaFiles))
  /\ participantCount (stats result) = length (participants result).
Proof.
  intros result. split; [|split].
  - unfold result, parse. cbn [participants].
    eapply StronglySorted_weaken; [|apply BasicFacts.sort_by_sorted].
    + cbv beta. intros x y H. lia.
    + intros x y. lia.
    + intros x y z. lia.
  - apply participants_perm.
  - unfold result. rewrite (Permutation_length (participants_perm _ _ _ _)).
    reflexivity.
Qed.

(** X10.  The count of a participant is never more than the number of
    messages of that sender that the scanner produced (before the cleanup
    drops the empty ones). *)
Theorem parse_counts_bounded clock locale content mediaFiles who count :
  In (who, count) (participants (parse clock locale content mediaFiles)) ->
  count <= sent_by who (st_messages (scanned clock content mediaFiles)).
Proof.
  intros H.
  destruct (scanned_fair_counts clock content mediaFiles) as (Hn & _ & Hc).
  apply (Permutation_in _ (participants_perm _ _ _ _)) in H.
  specialize (Hc who). unfold count_of in Hc.
  now rewrite (BasicFacts.In_get _ _ _ Hn H) in Hc.
Qed.

(** The theorem at work on the quote-merge example: Alice's count, 1, is
    bounded by her one message. *)
Lemma parse_counts_bounded_witness :
  1 <= sent_by (lit "Alice")
         (st_messages (scanned still_clock quote_merge_input [])).
Proof.
  apply (@parse_counts_bounded still_clock mute_locale quote_merge_input []
           (lit "Alice") 1).
  vm_compute. left. reflexivity.
Defined.

End ParticipantProofs.

(* ================================================================== *)
(** ** Properties of the statistics *)

Module StatsProofs.

Import Regex JsDate WhatsAppParser Vocabulary Conditions.

Local Open Scope Z_scope.

Lemma valid_dates_In (l : list message) m t :
  In m l -> timestamp m = Some t -> In t (valid_dates (map timestamp l)).
Proof.
  induction l as [|x l IH]; cbn [map valid_dates In]; [easy|].
  intros [->|H] Ht.
  - rewrite Ht. now left.
  - destruct (timestamp x); [right|]; auto.
Qed.

Lemma valid_dates_none (l : list message) :
  (forall m, In m l -> timestamp m = None) ->
  valid_dates (map timestamp l) = [].
Proof.
  induction l as [|x l IH]; intros H; cbn [map valid_dates]; auto.
  rewrite (H x (or_introl eq_refl)). apply IH. intros m Hm. apply H. now right.
Qed.

Lemma sorted_first (l : list Z) t :
  StronglySorted (fun x y => x - y <= 0) l -> In t l ->
  exists f, hd_error l = Some f /\ f <= t.
Proof.
  intros Hs Ht. destruct l as [|x l]; [easy|].
  exists x. split; [reflexivity|].
  inversion Hs as [|? ? _ Hx]; subst. destruct Ht as [->|Ht]; [lia|].
  rewrite Forall_forall in Hx. specialize (Hx t Ht). lia.
Qed.

Lemma sorted_last (l : list Z) :
  StronglySorted (fun x y => x - y <= 0) l ->
  forall t, In t l ->
  exists la, hd_error (rev l) = Some la /\ t <= la /\ In la l.
Proof.
  induction 1 as [|x l Hs IH Hx]; intros t Ht; [easy|].
  cbn [rev]. rewrite Forall_forall in Hx.
  destruct l as [|y l'].
  - destruct Ht as [->|[]]. exists t. cbn. repeat split; auto. lia.
  - destruct (IH y (or_introl eq_refl)) as (la & Hla & _ & Hin).
    assert (E : hd_error (rev (y :: l') ++ [x]) = Some la).
    { destruct (rev (y :: l')); [discriminate|exact Hla]. }
    exists la. split; [exact E|]. split; [|now right].
    destruct Ht as [->|Ht].
    + specialize (Hx la Hin). lia.
    + destruct (IH t Ht) as (la' & Hla' & Hle & _). congruence.
Qed.

(** X11.  In the statistics of a result, [totalMessages] is the number
    of messages returned and [mediaMessages] is at most that.  Every valid
    timestamp of a returned message lies between [firstDate] and
    [lastDate], which are then defined; when no returned message has a
    valid timestamp, both are undefined and the date range is the
    placeholder ["-"]. *)
Theorem parse_stats_dates clock locale content mediaFiles :
  let result := parse clock locale content mediaFiles in
  totalMessages (stats result) = length (messages result)
  /\ (mediaMessages (stats result) <= totalMessages (stats result))%nat
  /\ (forall m t,
        In m (messages result) -> timestamp m = Some t ->
        exists f l, firstDate (stats result) = Some f
                    /\ lastDate (stats result) = Some l /\ f <= t <= l)
  /\ ((forall m, In m (messages result) -> timestamp m = None) ->
      firstDate (stats result) = None /\ lastDate (stats result) = None
      /\ dateRange (stats result) = lit "-").
Proof.
  intros result. unfold result, parse.
  cbn [stats messages calculateStats totalMessages mediaMessages firstDate
       lastDate dateRange].
  set (msgs := cleanupMessages
                 (st_messages (scanned clock content mediaFiles))).
  assert (Hs : StronglySorted (fun x y => x - y <= 0)
                 (sort_by Z.sub (valid_dates (map timestamp msgs)))).
  { apply BasicFacts.sort_by_sorted; intros; lia. }
  pose proof (BasicFacts.sort_by_perm Z.sub
                (valid_dates (map timestamp msgs))) as Hp.
  split; [reflexivity|]. split; [apply filter_length_le|]. split.
  - intros m t Hm Ht.
    assert (Hin : In t (sort_by Z.sub (valid_dates (map timestamp msgs)))).
    { eapply Permutation_in; [apply Permutation_sym, Hp|].
      eapply valid_dates_In; eauto. }
    destruct (@sorted_first _ t Hs Hin) as (f & Hf & Hft).
    destruct (@sorted_last _ Hs t Hin) as (l & Hl & Htl & _).
    exists f, l. auto.
  - intros Hnone. rewrite (valid_dates_none _ Hnone). cbn. auto.
Qed.

Section Steps.

Variable clock : nat -> Z.
Variable fmt : export_format.
Variable mediaFiles : JsMap.t payload.

Local Open Scope nat_scope.

Lemma push_length st :
  length (push_current mediaFiles st)
  = length (st_messages st) + open_count (currentMessage st).
Proof.
  unfold push_current, open_count.
  destruct (currentMessage st); [|lia].
  rewrite length_app. reflexivity.
Qed.

Lemma step_message_count i raw next st :
  let st' := step clock fmt mediaFiles i raw next st in
  length (st_messages st') + open_count (currentMessage st')
  <= length (st_messages st) + open_count (currentMessage st)
     + length (nonempty_lines [raw]).
Proof.
  pose proof (push_length st) as Hp.
  unfold step, header_step, continuation_step, orphan_step, nonempty_lines.
  cbn [filter].
  destruct (is_empty (cleanText (Some raw))); cbn [negb length]; [lia|].
  destruct (exec (messagePattern fmt) _).
  - destruct (isQuotedMessage _ st).
    + destruct (currentMessage st) eqn:E;
        cbn [st_messages currentMessage open_count]; rewrite ?E;
        cbn [open_count]; lia.
    + destruct (_ && _ && _); cbn [st_messages currentMessage open_count];
        lia.
  - destruct (currentMessage st) eqn:E.
    + cbn [st_messages currentMessage open_count]. lia.
    + rewrite ?E in Hp. cbn [open_count] in Hp.
      destruct (exec (sysPattern fmt) _);
        cbn [st_messages currentMessage open_count]; rewrite ?E;
        cbn [open_count]; lia.
Qed.

Lemma scan_message_count rawLines : forall i st,
  let st' := scan clock fmt mediaFiles i rawLines st in
  length (st_messages st') + open_count (currentMessage st')
  <= length (st_messages st) + open_count (currentMessage st)
     + length (nonempty_lines rawLines).
Proof.
  induction rawLines as [|raw rest IH]; intros i st; cbn [scan].
  - cbn. lia.
  - specialize (IH (S i) (step clock fmt mediaFiles i raw (hd_error rest) st)).
    pose proof (step_message_count i raw (hd_error rest) st) as Hs.
    cbv zeta in IH, Hs. cbv zeta.
    unfold nonempty_lines in *. cbn [filter] in *.
    destruct (negb (is_empty (cleanText (Some raw)))); cbn [length] in *; lia.
Qed.

End Steps.

(** X12.  [parse] never returns more messages than the input has lines
    that are not empty once cleaned: a message takes a line to begin. *)
Theorem parse_message_count clock locale content mediaFiles :
  (totalMessages (stats (parse clock locale content mediaFiles))
   <= length (nonempty_lines (raw_lines content)))%nat.
Proof.
  unfold parse. cbn [stats calculateStats totalMessages].
  unfold cleanupMessages, scanned. cbn [st_messages].
  pose proof (scan_message_count clock (detectFormat content) mediaFiles
                (raw_lines content) 0 initial) as H.
  cbv zeta in H. cbn [initial st_messages currentMessage open_count length]
    in H.
  pose proof (filter_length_le keep_message
                (push_current mediaFiles
                   (scan clock (detectFormat content) mediaFiles 0
                      (raw_lines content) initial))) as Hf.
  rewrite push_length in Hf. lia.
Qed.

End StatsProofs.

(* ================================================================== *)
(** ** The media table filled by the application *)

Module TableProofs.

Import Regex JsDate WhatsAppParser Vocabulary Conditions.

Lemma isMediaFile_extension filename :
  App.isMediaFile filename = true ->
  In (toLowerCase (last_piece filename)) App.mediaExtensions.
Proof.
  unfold App.isMediaFile. intros H.
  apply existsb_exists in H as (x & Hx & E).
  apply BasicFacts.str_eqb_eq in E. now rewrite E.
Qed.

Lemma isMediaFile_named filename :
  App.isMediaFile filename = true -> filename <> [].
Proof. intros H ->. discriminate H. Qed.

Lemma exact_match_wins filename (mediaFiles : JsMap.t payload) v :
  filename <> [] -> JsMap.get mediaFiles filename = Some v ->
  findMediaFile filename mediaFiles = Some v.
Proof.
  intros Hne Hg. unfold findMediaFile, exact_match, JsMap.has, JsMap.size.
  destruct filename as [|c filename]; [congruence|]. cbn [is_empty orb].
  destruct mediaFiles as [|e m]; [discriminate|]. cbn [length Nat.eqb].
  now rewrite Hg.
Qed.

(** X13.  A media file that the application stores in the table is
    resolved under its own name to the payload stored, whatever the table
    held before and whatever other files are stored afterwards. *)
Theorem stored_file_resolved mediaFiles filename dataUrl :
  App.isMediaFile filename = true ->
  findMediaFile filename (App.store_media mediaFiles filename dataUrl)
  = Some dataUrl
  /\ forall other otherUrl,
       other <> filename ->
       findMediaFile filename
         (App.store_media (App.store_media mediaFiles filename dataUrl)
                          other otherUrl)
       = Some dataUrl.
Proof.
  intros H. pose proof (isMediaFile_named H) as Hne.
  unfold App.store_media. rewrite H. split.
  - apply exact_match_wins; auto.
    now rewrite BasicFacts.get_set, BasicFacts.str_eqb_refl.
  - intros other otherUrl Ho. apply exact_match_wins; auto.
    destruct (App.isMediaFile other).
    + rewrite BasicFacts.get_set.
      apply BasicFacts.str_eqb_neq in Ho. rewrite Ho.
      now rewrite BasicFacts.get_set, BasicFacts.str_eqb_refl.
    + now rewrite BasicFacts.get_set, BasicFacts.str_eqb_refl.
Qed.

(** The theorem at work on a photo. *)
Lemma stored_file_resolved_witness :
  findMediaFile (lit "IMG-001.JPG")
    (App.store_media [] (lit "IMG-001.JPG") (lit "data:image/jpeg;base64,AA"))
  = Some (lit "data:image/jpeg;base64,AA").
Proof.
  apply (proj1 (@stored_file_resolved [] (lit "IMG-001.JPG")
                  (lit "data:image/jpeg;base64,AA") eq_refl)).
Defined.

Ltac each_entry H :=
  repeat (destruct H as [H|H];
          [try (injection H as <- <-); try rewrite <- H|]);
  try contradiction.

(** X14.  Every file that the application takes for a media file has a
    MIME type of its own, not the fallback; and every file whose
    extension the parser classifies as image, video, audio or document is
    one that the application loads. *)
Theorem media_tables_agree filename :
  (App.isMediaFile filename = true ->
   App.getMimeType filename <> lit "application/octet-stream")
  /\ (In (getMediaType (toLowerCase (last_piece filename)))
         [image; video; audio; document] ->
      App.isMediaFile filename = true).
Proof.
  split.
  - intros H. apply isMediaFile_extension in H.
    unfold App.getMimeType.
    unfold App.mediaExtensions in H. cbn [In] in H.
    each_entry H; vm_compute; discriminate.
  - unfold getMediaType. rewrite BasicFacts.toLowerCase_fixed.
    destruct (JsMap.get media_types (toLowerCase (last_piece filename)))
      as [k|] eqn:E.
    + intros _. apply BasicFacts.get_In in E.
      unfold App.isMediaFile.
      unfold media_types in E. cbn [In] in E.
      each_entry E; vm_compute; reflexivity.
    + cbn [In]. intros [H|[H|[H|[H|[]]]]]; discriminate.
Qed.

(** The theorem at work on a photo. *)
Lemma media_tables_agree_witness :
  App.getMimeType (lit "IMG-001.JPG") <> lit "application/octet-stream"
  /\ App.isMediaFile (lit "clip.Mp4") = true.
Proof.
  split.
  - apply (proj1 (media_tables_agree (lit "IMG-001.JPG"))). reflexivity.
  - apply (proj2 (media_tables_agree (lit "clip.Mp4"))).
    vm_compute. right. left. reflexivity.
Defined.

End TableProofs.

(* ================================================================== *)
(** ** What the renderer shows *)

Module RendererProofs.

Import Regex JsDate WhatsAppParser ChatRenderer Vocabulary Conditions.

Lemma is_current_user_spec currentUser who :
  is_current_user currentUser who = true
  <-> exists u, currentUser = Some u /\ u <> [] /\ who = u.
Proof.
  unfold is_current_user. split.
  - destruct currentUser as [u|]; [|discriminate]. intros H.
    apply andb_true_iff in H as [Hu Hw].
    apply BasicFacts.str_eqb_eq in Hw. exists u. repeat split; auto.
    intros ->. discriminate Hu.
  - intros (u & -> & Hu & ->). rewrite BasicFacts.str_eqb_refl.
    destruct u; [congruence|reflexivity].
Qed.

(** A message is given an outgoing class exactly when it is not a
    system message and its sender is the current user, a user being set
    and not empty; a system message has the class of system messages
    whoever sent it. *)
Theorem getMessageClass_outgoing currentUser msg :
  (starts_with (lit "outgoing") (getMessageClass currentUser msg) = true
   <-> isSystem msg = false /\ type msg <> T_system
       /\ exists u, currentUser = Some u /\ u <> [] /\ sender msg = u)
  /\ (isSystem msg = true \/ type msg = T_system ->
      getMessageClass currentUser msg = lit "system").
Proof.
  rewrite <- is_current_user_spec. unfold getMessageClass.
  destruct (isSystem msg), (type msg),
    (is_current_user currentUser (sender msg));
    cbn [orb msg_type_eqb];
    (split;
     [split;
      [intros H; try discriminate H; repeat split; congruence
      |intros (H1 & H2 & H3); try discriminate; try congruence; reflexivity]
     |intros [H|H]; try discriminate H; reflexivity]).
Qed.

(** X15.  The bubble of a message names the sender only if the message
    is shown as plainly incoming: never for a system message, a call or a
    missed call, and never for a message of the current user. *)
Theorem sender_label_only_incoming currentUser msg showSender :
  sender_label_shown currentUser msg showSender = true
  <-> showSender = true /\ isSystem msg = false
      /\ type msg <> T_system /\ type msg <> T_call
      /\ type msg <> T_missed_call
      /\ is_current_user currentUser (sender msg) = false.
Proof.
  unfold sender_label_shown, getMessageClass.
  destruct showSender, (isSystem msg), (type msg),
    (is_current_user currentUser (sender msg));
    cbn [orb andb negb msg_type_eqb];
    (split;
     [intros H; try discriminate H; repeat split; congruence
     |intros (H1 & H2 & H3 & H4 & H5 & H6);
      try discriminate; try congruence; reflexivity]).
Qed.

Section Layout.

Variable formattedDate : message -> str.

Lemma loop_messages : forall msgs lastDate lastSender,
  messages_of (render_loop formattedDate msgs lastDate lastSender) = msgs.
Proof.
  induction msgs as [|m rest IH]; intros lastDate lastSender; [reflexivity|].
  cbn [render_loop].
  destruct (negb (same_text lastDate (formattedDate m)));
    cbn [app messages_of]; now rewrite IH.
Qed.

(** The element that follows a message element. *)
Lemma loop_after_message rest d s m2 b2 post :
  render_loop formattedDate rest (Some d) (Some s)
  = message_element m2 b2 :: post ->
  formattedDate m2 = d
  /\ b2 = negb (str_eqb (sender m2) s) && negb (isSystem m2).
Proof.
  destruct rest as [|m rest]; [discriminate|]. cbn [render_loop same_text].
  destruct (str_eqb (formattedDate m) d) eqn:E; cbn [negb app];
    [|discriminate].
  intros H. injection H as <- <- _.
  apply BasicFacts.str_eqb_eq in E. now split.
Qed.

Lemma loop_separator : forall msgs lastDate lastSender pre d post,
  render_loop formattedDate msgs lastDate lastSender
  = pre ++ date_separator d :: post ->
  exists m rest,
    post = message_element m (negb (isSystem m)) :: rest
    /\ formattedDate m = d.
Proof.
  induction msgs as [|m rest IH]; intros lastDate lastSender pre d post.
  - destruct pre; discriminate.
  - cbn [render_loop].
    destruct (negb (same_text lastDate (formattedDate m))); cbn [app].
    + destruct pre as [|x pre]; cbn [app]; intros H.
      * injection H as <- <-. cbn [same_text negb andb]. eauto.
      * injection H as _ H.
        destruct pre as [|y pre]; cbn [app] in H; [discriminate|].
        injection H as _ H. now apply IH in H.
    + destruct pre as [|x pre]; cbn [app]; intros H; [discriminate|].
      injection H as _ H. now apply IH in H.
Qed.

Lemma loop_neighbours : forall msgs lastDate lastSender pre m1 b1 m2 b2 post,
  render_loop formattedDate msgs lastDate lastSender
  = pre ++ message_element m1 b1 :: message_element m2 b2 :: post ->
  formattedDate m2 = formattedDate m1
  /\ b2 = negb (str_eqb (sender m2) (sender m1)) && negb (isSystem m2).
Proof.
  induction msgs as [|m rest IH];
    intros lastDate lastSender pre m1 b1 m2 b2 post.
  - destruct pre; discriminate.
  - cbn [render_loop].
    destruct (negb (same_text lastDate (formattedDate m))); cbn [app].
    + destruct pre as [|x pre]; cbn [app]; intros H; [discriminate|].
      injection H as _ H.
      destruct pre as [|y pre]; cbn [app] in H.
      * injection H as <- _ H. now apply loop_after_message in H.
      * injection H as _ H. now apply IH in H.
    + destruct pre as [|x pre]; cbn [app]; intros H.
      * injection H as <- _ H. now apply loop_after_message in H.
      * injection H as _ H. now apply IH in H.
Qed.

(** X16.  The container rendered from a list of messages holds exactly
    these messages, in order, between date separators; it starts with the
    separator of the first message; a separator is always followed by a
    message of its date, whose sender is named unless it is a system
    message; and a message that follows another one directly has the same
    date, and names its sender when the sender differs and the message is
    not a system message. *)
Theorem renderMessages_layout msgs :
  messages_of (renderMessages formattedDate msgs) = msgs
  /\ (forall m rest, msgs = m :: rest ->
       exists tail,
         renderMessages formattedDate msgs
         = date_separator (formattedDate m)
           :: message_element m (negb (isSystem m)) :: tail)
  /\ (forall pre d post,
       renderMessages formattedDate msgs = pre ++ date_separator d :: post ->
       exists m rest,
         post = message_element m (negb (isSystem m)) :: rest
         /\ formattedDate m = d)
  /\ (forall pre m1 b1 m2 b2 post,
       renderMessages formattedDate msgs
       = pre ++ message_element m1 b1 :: message_element m2 b2 :: post ->
       formattedDate m2 = formattedDate m1
       /\ b2 = negb (str_eqb (sender m2) (sender m1))
               && negb (isSystem m2)).
Proof.
  unfold renderMessages. repeat split.
  - apply loop_messages.
  - intros m rest ->. cbn. eauto.
  - eapply loop_separator; eauto.
  - eapply loop_neighbours; eauto.
  - eapply loop_neighbours; eauto.
Qed.

End Layout.

(** X17.  A search finds every message whose text or sender contains
    the query in whatever letter case, for a query that is not blank;
    stated for ASCII texts, on which the model of [toLowerCase] is
    exact. *)
Theorem searchMessages_finds allMessages query written msg :
  ascii_only query = true -> ascii_only written = true ->
  ascii_only (text msg) = true -> ascii_only (sender msg) = true ->
  blank query = false ->
  toLowerCase written = toLowerCase query ->
  In msg allMessages ->
  includes (text msg) written = true
  \/ includes (sender msg) written = true ->
  In msg (searchMessages allMessages query).
Proof.
  intros _ _ _ _ Hb Hq Hin H. unfold searchMessages.
  unfold blank in Hb. rewrite Hb. apply filter_In. split; auto.
  rewrite <- Hq. apply orb_true_iff. unfold toLowerCase.
  destruct H as [H|H]; [left|right]; now apply BasicFacts.includes_map.
Qed.

(** The theorem at work: a greeting found by a query in capitals. *)
Lemma searchMessages_finds_witness :
  In greeting (searchMessages [greeting] (lit "WORLD")).
Proof.
  apply (@searchMessages_finds [greeting] (lit "WORLD") (lit "World")
           greeting); try reflexivity.
  - left. reflexivity.
  - left. reflexivity.
Defined.

End RendererProofs.

(* ================================================================== *)
(** ** The text of the messages that [parse] returns *)

Module TextProofs.

Import Regex JsDate WhatsAppParser Vocabulary Conditions.

Lemma cleanText_trimmed line :
  cleanText (Some (cleanText line)) = cleanText line
  /\ trim (cleanText line) = cleanText line.
Proof.
  destruct line as [t|]; [|now split]. cbn [cleanText].
  destruct (is_empty t) eqn:E; rewrite ?E; [now split|]. split.
  - rewrite NormalizerProofs.clean_fixed. now destruct (clean t).
  - rewrite RegexProofs.clean_on_lists. apply NormalizerProofs.trim_fixed.
Qed.

Lemma cleanMessageText_trimmed t :
  cleanText (Some (cleanMessageText t)) = cleanMessageText t
  /\ trim (cleanMessageText t) = cleanMessageText t.
Proof.
  unfold cleanMessageText. destruct (is_empty t); [now split|].
  apply cleanText_trimmed.
Qed.

Lemma finalizeMessage_text_clean m mediaFiles :
  let done := finalizeMessage m mediaFiles in
  type done = T_text ->
  cleanText (Some (text done)) = text done /\ trim (text done) = text done.
Proof.
  unfold finalizeMessage, finalize_attachment, finalize_pdf_attachment,
    finalize_document_omitted, finalize_call, finalize_missed_call.
  break_match;
    cbn [text type set_text set_type set_media set_isSystem set_isEdited];
    intros H; try discriminate H; apply cleanMessageText_trimmed.
Qed.

(** X18.  A text message that [parse] returns has a normalized text:
    cleaning it again changes nothing and it has no white space around
    it.  Unless the message carries a quote or is a system message, its
    text is not empty: no empty bubble is returned. *)
Theorem parse_text_messages clock locale content mediaFiles :
  Forall (fun m =>
            type m = T_text ->
            cleanText (Some (text m)) = text m
            /\ trim (text m) = text m
            /\ (quotedMessage m = None -> isSystem m = false ->
                text m <> []))
         (messages (parse clock locale content mediaFiles)).
Proof.
  unfold parse, cleanupMessages. cbn [messages].
  assert (H : Forall
    (fun m => (media m <> None <-> carries_media (type m) = true)
              /\ (type m = T_text ->
                  cleanText (Some (text m)) = text m
                  /\ trim (text m) = text m))
    (st_messages (scanned clock content mediaFiles))).
  { apply InvariantProofs.scanned_all with
      (P := fun m => media m = None
                     /\ (type m = T_text \/ type m = T_system)
                     /\ (type m = T_system -> isSystem m = true)).
    - intros; cbn; repeat split; auto. discriminate.
    - intros; cbn; repeat split; auto.
    - intros ts g txt m0 H0. exact H0.
    - intros t m0 H0. exact H0.
    - intros m0 (H1 & H2 & H3). split.
      + now apply MessageProofs.finalizeMessage_media_kind.
      + apply finalizeMessage_text_clean. }
  rewrite Forall_forall in *. intros m Hm.
  apply filter_In in Hm as [Hm Hk].
  destruct (H m Hm) as [Hmedia Htext]. intros Ht.
  destruct (Htext Ht) as [Hc Htr]. repeat split; auto.
  intros Hq Hs E. unfold keep_message in Hk.
  destruct (media m) eqn:Em.
  - rewrite Ht in Hmedia. cbn in Hmedia.
    assert (F : false = true) by (apply Hmedia; discriminate).
    discriminate F.
  - rewrite Hq, Hs, Ht, E in Hk. discriminate Hk.
Qed.

End TextProofs.
